(** * sqlbunny [def/validate.go]: schema validation and model flattening

    A shallow embedding of the validation pass of the [def] package:
    registration of the declared types, resolution of their references,
    flattening of every model into columns ([makeModel]), the per-model
    constraint checks and the final aggregation of the recorded
    diagnostics ([Schema]).

    Go maps are [gmap]s, slices are lists, [*T] that may be [nil] is
    [option T].  The two package-level variables the file mutates,
    [validationErrors] and [typesByName], form the record [Globals] that
    every function threads through the monad [M].  A run-time panic is
    the outcome [Panic]; [OutOfFuel] marks a recursion that did not
    finish within the given depth.  The order in which [range] visits a
    map is a parameter of [Schema].

    The declarations of the packages [def] and [schema] that
    [validate.go] relies on without defining them are modelled from the
    spec and marked so. *)

From Stdlib Require Import String Ascii List Arith Lia DecimalString.
From stdpp Require Import gmap strings list fin_maps.

Local Open Scope string_scope.
Local Open Scope list_scope.

(** ** Strings *)

(** [strings.Join(elems, sep)]. *)
Definition strings_Join (elems : list string) (sep : string) : string :=
  String.concat sep elems.

(** The line feed character, as a string. *)
Definition newline : string := String "010"%char "".

(** [%d] of a length. *)
Definition fmt_d (n : nat) : string :=
  NilEmpty.string_of_uint (Nat.to_uint n).

(** [undot]: [strings.Replace(s, ".", "__", -1)]. *)
Fixpoint undot (s : string) : string :=
  match s with
  | EmptyString => EmptyString
  | String c r =>
      if Ascii.eqb c "."%char then String "_" (String "_" (undot r))
      else String c (undot r)
  end.

Definition undotAll (s : list string) : list string := map undot s.

Definition prefixAll (s : list string) (prefix : string) : list string :=
  map (fun x => prefix +:+ x) s.

(** [makeName]: [fmt.Sprintf("%s___%s___%s", model, strings.Join(columns, "___"), suffix)]. *)
Definition makeName (model : string) (columns : list string) (suffix : string) : string :=
  model +:+ "___" +:+ strings_Join columns "___" +:+ "___" +:+ suffix.

Definition describeIndex (columns : list string) : string :=
  strings_Join columns ", ".

(** ** Declarations consumed by the pass *)

Inductive FieldFlag :=
| nullFlag
| tagFlag (key value : string).

Inductive ModelItem :=
| field (name typeName : string) (flags : list FieldFlag)
| primaryKey (names : list string)
| index (names : list string)
| unique (names : list string)
| foreignKey (columnName foreignModelName : string).

Record TypeGo := mkTypeGo { TypeGo_Pkg : string; TypeGo_Name : string }.

(** Modelled from the spec: the implementations of the [typeInfo]
    interface are declared outside [validate.go].  A type is either a
    struct, an ordered list of items, or a base type carrying its
    per-target binding and its database type string. *)
Inductive typeInfo :=
| structType (items : list ModelItem)
| baseType (go goNull : TypeGo) (postgres : string).

Record typeEntry := mkTypeEntry { te_name : string; te_info : typeInfo }.

Record modelEntry := mkModelEntry { me_name : string; me_items : list ModelItem }.

(** ** The schema being built (package [schema]) *)

Record BaseTypeNullable := mkBaseTypeNullable {
  BaseType_Name : string;
  BaseType_Go : TypeGo;
  BaseType_GoNull : TypeGo;
  BaseType_Postgres : string }.

(** A resolved member of a struct type.  The member's type is a pointer
    to a registry entry; it is kept as the entry's key, [None] for [nil]. *)
Record StructField := mkStructField {
  StructField_Name : string;
  StructField_Type : option string }.

(** [schema.Type]: [*schema.Struct] or an implementation of
    [schema.BaseType].  The type switch of [makeModel] has a third branch
    for any other type, which panics; no value of [SchemaType] takes it. *)
Inductive SchemaType :=
| TStruct (name : string) (fields : list StructField)
| TBase (b : BaseTypeNullable).

(** Modelled from the spec: [BaseType.TypeDB()] is declared in package
    [schema]; it yields the database type string of a base type. *)
Definition TypeDB (b : BaseTypeNullable) : string := BaseType_Postgres b.

Record Field := mkField {
  Field_Name : string;
  Field_Type : SchemaType;
  Field_Nullable : bool;
  Field_Tags : gmap string string }.

Record Column := mkColumn {
  Column_Name : string;
  Column_Type : BaseTypeNullable;
  Column_DBType : string;
  Column_Nullable : bool }.

Record PrimaryKey := mkPrimaryKey { PrimaryKey_Columns : list string }.

Record Index := mkIndex { Index_Name : string; Index_Columns : list string }.

Record Unique := mkUnique { Unique_Name : string; Unique_Columns : list string }.

Record ForeignKey := mkForeignKey {
  ForeignKey_Name : string;
  ForeignKey_Model : string;
  ForeignKey_Column : string;
  ForeignKey_ForeignModel : string;
  ForeignKey_ForeignColumn : string }.

Record Model := mkModel {
  Model_Name : string;
  Model_Fields : list Field;
  Model_Columns : list Column;
  Model_PrimaryKey : option PrimaryKey;
  Model_Indexes : list Index;
  Model_Uniques : list Unique;
  Model_ForeignKeys : list ForeignKey }.

Record SchemaT := mkSchema {
  Types : gmap string SchemaType;
  Models : gmap string Model }.

(** [schema.NewSchema()]. *)
Definition NewSchema : SchemaT := mkSchema ∅ ∅.

(** [&schema.Model{Name: name}]. *)
Definition newModel (name : string) : Model :=
  mkModel name [] [] None [] [] [].

Definition appendField (m : Model) (f : Field) : Model :=
  mkModel (Model_Name m) (Model_Fields m ++ [f]) (Model_Columns m)
    (Model_PrimaryKey m) (Model_Indexes m) (Model_Uniques m) (Model_ForeignKeys m).

Definition appendColumn (m : Model) (c : Column) : Model :=
  mkModel (Model_Name m) (Model_Fields m) (Model_Columns m ++ [c])
    (Model_PrimaryKey m) (Model_Indexes m) (Model_Uniques m) (Model_ForeignKeys m).

Definition setPrimaryKey (m : Model) (pk : PrimaryKey) : Model :=
  mkModel (Model_Name m) (Model_Fields m) (Model_Columns m)
    (Some pk) (Model_Indexes m) (Model_Uniques m) (Model_ForeignKeys m).

Definition appendIndex (m : Model) (i : Index) : Model :=
  mkModel (Model_Name m) (Model_Fields m) (Model_Columns m)
    (Model_PrimaryKey m) (Model_Indexes m ++ [i]) (Model_Uniques m) (Model_ForeignKeys m).

Definition appendUnique (m : Model) (u : Unique) : Model :=
  mkModel (Model_Name m) (Model_Fields m) (Model_Columns m)
    (Model_PrimaryKey m) (Model_Indexes m) (Model_Uniques m ++ [u]) (Model_ForeignKeys m).

Definition appendForeignKey (m : Model) (f : ForeignKey) : Model :=
  mkModel (Model_Name m) (Model_Fields m) (Model_Columns m)
    (Model_PrimaryKey m) (Model_Indexes m) (Model_Uniques m) (Model_ForeignKeys m ++ [f]).

Definition setIndexes (m : Model) (l : list Index) : Model :=
  mkModel (Model_Name m) (Model_Fields m) (Model_Columns m)
    (Model_PrimaryKey m) l (Model_Uniques m) (Model_ForeignKeys m).

Definition setUniques (m : Model) (l : list Unique) : Model :=
  mkModel (Model_Name m) (Model_Fields m) (Model_Columns m)
    (Model_PrimaryKey m) (Model_Indexes m) l (Model_ForeignKeys m).

Definition setForeignKeys (m : Model) (l : list ForeignKey) : Model :=
  mkModel (Model_Name m) (Model_Fields m) (Model_Columns m)
    (Model_PrimaryKey m) (Model_Indexes m) (Model_Uniques m) l.

Definition setTypes (s : SchemaT) (t : gmap string SchemaType) : SchemaT :=
  mkSchema t (Models s).

Definition setModels (s : SchemaT) (ms : gmap string Model) : SchemaT :=
  mkSchema (Types s) ms.

(** Modelled from the spec: [Model.FindColumn] is declared in package
    [schema]; it returns the column of the model that carries the given
    name, [nil] when there is none. *)
Definition FindColumn (m : Model) (name : string) : option Column :=
  find (fun c => String.eqb (Column_Name c) name) (Model_Columns m).

(** ** Package state and the monad of the pass *)

Record Globals := mkGlobals {
  validationErrors : list string;
  typesByName : gmap string typeEntry }.

Inductive outcome (A : Type) :=
| Done (a : A)
| Panic (msg : string)
| OutOfFuel.
Arguments Done {A} a.
Arguments Panic {A} msg.
Arguments OutOfFuel {A}.

Definition M (A : Type) : Type := Globals -> outcome (A * Globals).

Definition ret {A} (a : A) : M A := fun g => Done (a, g).

Definition bind {A B} (c : M A) (k : A -> M B) : M B :=
  fun g =>
    match c g with
    | Done (a, g') => k a g'
    | Panic msg => Panic msg
    | OutOfFuel => OutOfFuel
    end.

Definition panic {A} (msg : string) : M A := fun _ => Panic msg.

Notation "x <- c ;; k" := (bind c (fun x => k))
  (at level 100, c at next level, right associativity).
Notation "c ;;; k" := (bind c (fun _ => k))
  (at level 100, right associativity).

(** [addError]: the formatted message is appended to [validationErrors]. *)
Definition addError (message : string) : M unit :=
  fun g => Done (tt, mkGlobals (validationErrors g ++ [message]) (typesByName g)).

Definition getTypesByName : M (gmap string typeEntry) :=
  fun g => Done (typesByName g, g).

Definition setTypesByName (t : gmap string typeEntry) : M unit :=
  fun g => Done (tt, mkGlobals (validationErrors g) t).

Definition getValidationErrors : M (list string) :=
  fun g => Done (validationErrors g, g).

(** ** Flattening a model: [makeModel] *)

Definition setTag (res : gmap string string) (key value : string) : gmap string string :=
  <[key := value]> res.

(** [makeTags]: the tag flags of a field, later values replacing earlier
    ones; a repeated key is a diagnostic. *)
Fixpoint makeTagsFrom (res : gmap string string) (flags : list FieldFlag)
    (context : string) : M (gmap string string) :=
  match flags with
  | [] => ret res
  | nullFlag :: rest => makeTagsFrom res rest context
  | tagFlag key value :: rest =>
      (match res !! key with
       | Some _ => addError (context +:+ " has duplicate tag '" +:+ key +:+ "'")
       | None => ret tt
       end) ;;;
      makeTagsFrom (setTag res key value) rest context
  end.

Definition makeTags (flags : list FieldFlag) (context : string) : M (gmap string string) :=
  makeTagsFrom ∅ flags context.

Fixpoint isNullable (flags : list FieldFlag) : bool :=
  match flags with
  | [] => false
  | nullFlag :: _ => true
  | tagFlag _ _ :: rest => isNullable rest
  end.

(** The synthetic presence column type of a nullable struct field. *)
Definition boolType : BaseTypeNullable :=
  mkBaseTypeNullable "bool"
    (mkTypeGo "" "bool")
    (mkTypeGo "github.com/kernelpayments/sqlbunny/types/null" "Bool")
    "boolean".

Definition presenceColumn (path : string) (forceNullable : bool) : Column :=
  mkColumn (undot path) boolType "boolean" forceNullable.

Definition baseColumn (path : string) (t : BaseTypeNullable) (nullable : bool) : Column :=
  mkColumn (undot path) t (TypeDB t) nullable.

Definition flattenNames (names : list string) (prefix : string) : list string :=
  undotAll (prefixAll names prefix).

Section MakeModel.

(** The recursive call of [makeModel] on the items of a struct type. *)
Variable rec : Model -> list ModelItem -> string -> bool -> M Model.
Variable s : SchemaT.

(** [case field] of the loop body. *)
Definition makeModelField (m : Model) (name typeName : string)
    (flags : list FieldFlag) (prefix : string) (forceNullable : bool) : M Model :=
  match Types s !! typeName with
  | None =>
      addError ("Model '" +:+ Model_Name m +:+ "' field '" +:+ (prefix +:+ name)
                +:+ "' references unknown type '" +:+ typeName +:+ "'") ;;;
      ret m
  | Some t =>
      let nullable := isNullable flags in
      m <- (if String.eqb prefix "" then
              tags <- makeTags flags
                ("Model '" +:+ Model_Name m +:+ "' field '" +:+ (prefix +:+ name) +:+ "'") ;;
              ret (appendField m (mkField name t (nullable || forceNullable) tags))
            else ret m) ;;
      match t with
      | TStruct _ _ =>
          byName <- getTypesByName ;;
          match te_info <$> byName !! typeName with
          | Some (structType items) =>
              m <- rec m items (prefix +:+ name +:+ ".") (nullable || forceNullable) ;;
              if nullable then
                ret (appendColumn m (presenceColumn (prefix +:+ name) forceNullable))
              else ret m
          | _ => panic "interface conversion: typeInfo is not structType"
          end
      | TBase b =>
          ret (appendColumn m (baseColumn (prefix +:+ name) b (nullable || forceNullable)))
      end
  end.

(** One iteration of the loop of [makeModel]. *)
Definition makeModelItem (m : Model) (i : ModelItem) (prefix : string)
    (forceNullable : bool) : M Model :=
  match i with
  | field name typeName flags => makeModelField m name typeName flags prefix forceNullable
  | primaryKey names =>
      (match Model_PrimaryKey m with
       | Some _ =>
           addError ("Model '" +:+ Model_Name m +:+ "' has multiple primary key definitions")
       | None => ret tt
       end) ;;;
      ret (setPrimaryKey m (mkPrimaryKey (flattenNames names prefix)))
  | index names => ret (appendIndex m (mkIndex "" (flattenNames names prefix)))
  | unique names => ret (appendUnique m (mkUnique "" (flattenNames names prefix)))
  | foreignKey columnName foreignModelName =>
      ret (appendForeignKey m
             (mkForeignKey "" (Model_Name m) (undot (prefix +:+ columnName))
                foreignModelName ""))
  end.

Fixpoint makeModelItems (m : Model) (items : list ModelItem) (prefix : string)
    (forceNullable : bool) : M Model :=
  match items with
  | [] => ret m
  | i :: rest =>
      m <- makeModelItem m i prefix forceNullable ;;
      makeModelItems m rest prefix forceNullable
  end.

End MakeModel.

(** [makeModel].  The Go function calls itself on the items of every
    struct-typed field; [fuel] bounds the depth of these calls. *)
Fixpoint makeModel (fuel : nat) (s : SchemaT) (m : Model) (items : list ModelItem)
    (prefix : string) (forceNullable : bool) : M Model :=
  makeModelItems
    (match fuel with
     | O => fun _ _ _ _ _ => OutOfFuel
     | S fuel' => makeModel fuel' s
     end) s m items prefix forceNullable.

(** ** Constraint checks *)

(** [checkDuplicateFields]. *)
Fixpoint checkDuplicateFieldsFrom (seen : gset string) (modelName : string)
    (fields : list Field) : M unit :=
  match fields with
  | [] => ret tt
  | f :: rest =>
      (if decide (Field_Name f ∈ seen) then
         addError ("Model '" +:+ modelName +:+ "' field '" +:+ Field_Name f
                   +:+ "' is defined multiple times.")
       else ret tt) ;;;
      checkDuplicateFieldsFrom ({[Field_Name f]} ∪ seen) modelName rest
  end.

Definition checkDuplicateFields (s : SchemaT) (m : Model) : M unit :=
  checkDuplicateFieldsFrom ∅ (Model_Name m) (Model_Fields m).

(** The inner loop of [checkPrimaryKey]. *)
Fixpoint checkPrimaryKeyColumns (m : Model) (names : list string) : M unit :=
  match names with
  | [] => ret tt
  | name :: rest =>
      (match FindColumn m name with
       | None =>
           addError ("Model '" +:+ Model_Name m
                     +:+ "' primary key references unknown column '" +:+ name +:+ "'")
       | Some c =>
           if Column_Nullable c then
             addError ("Model '" +:+ Model_Name m
                       +:+ "' primary key references nullable column '" +:+ name +:+ "'")
           else ret tt
       end) ;;;
      checkPrimaryKeyColumns m rest
  end.

Definition checkPrimaryKey (s : SchemaT) (m : Model) : M unit :=
  match Model_PrimaryKey m with
  | None => addError ("Model '" +:+ Model_Name m +:+ "' is missing a primary key")
  | Some pk => checkPrimaryKeyColumns m (PrimaryKey_Columns pk)
  end.

(** The inner loop over the column names, which [checkIndexes] and
    [checkUniques] share word for word but for the [kind] named in the
    diagnostic, [index] or [unique]. *)
Fixpoint checkConstraintColumns (kind : string) (m : Model) (columns names : list string)
    : M unit :=
  match names with
  | [] => ret tt
  | name :: rest =>
      (match FindColumn m name with
       | None =>
           addError ("Model '" +:+ Model_Name m +:+ "' " +:+ kind +:+ " '"
                     +:+ describeIndex columns
                     +:+ "' references unknown column '" +:+ name +:+ "'")
       | Some _ => ret tt
       end) ;;;
      checkConstraintColumns kind m columns rest
  end.

Fixpoint checkIndexesFrom (seen : gset string) (m : Model) (l : list Index)
    : M (list Index) :=
  match l with
  | [] => ret []
  | f :: rest =>
      let f := mkIndex (makeName (Model_Name m) (Index_Columns f) "idx") (Index_Columns f) in
      (if decide (Index_Name f ∈ seen) then
         addError ("Model '" +:+ Model_Name m +:+ "' index '"
                   +:+ describeIndex (Index_Columns f) +:+ "' is defined multiple times.")
       else ret tt) ;;;
      checkConstraintColumns "index" m (Index_Columns f) (Index_Columns f) ;;;
      rest <- checkIndexesFrom ({[Index_Name f]} ∪ seen) m rest ;;
      ret (f :: rest)
  end.

(** [checkIndexes]; the indexes are named in place, the model with the
    named indexes is returned. *)
Definition checkIndexes (s : SchemaT) (m : Model) : M Model :=
  l <- checkIndexesFrom ∅ m (Model_Indexes m) ;;
  ret (setIndexes m l).

Fixpoint checkUniquesFrom (seen : gset string) (m : Model) (l : list Unique)
    : M (list Unique) :=
  match l with
  | [] => ret []
  | f :: rest =>
      let f := mkUnique (makeName (Model_Name m) (Unique_Columns f) "key") (Unique_Columns f) in
      (if decide (Unique_Name f ∈ seen) then
         addError ("Model '" +:+ Model_Name m +:+ "' unique '"
                   +:+ describeIndex (Unique_Columns f) +:+ "' is defined multiple times.")
       else ret tt) ;;;
      checkConstraintColumns "unique" m (Unique_Columns f) (Unique_Columns f) ;;;
      rest <- checkUniquesFrom ({[Unique_Name f]} ∪ seen) m rest ;;
      ret (f :: rest)
  end.

Definition checkUniques (s : SchemaT) (m : Model) : M Model :=
  l <- checkUniquesFrom ∅ m (Model_Uniques m) ;;
  ret (setUniques m l).

Definition setForeignKeyName (f : ForeignKey) (name : string) : ForeignKey :=
  mkForeignKey name (ForeignKey_Model f) (ForeignKey_Column f)
    (ForeignKey_ForeignModel f) (ForeignKey_ForeignColumn f).

Definition setForeignColumn (f : ForeignKey) (ff : string) : ForeignKey :=
  mkForeignKey (ForeignKey_Name f) (ForeignKey_Model f) (ForeignKey_Column f)
    (ForeignKey_ForeignModel f) ff.

(** The loop body of [checkForeignKeys].  [m2.PrimaryKey.Columns] on a
    model without primary key dereferences [nil]; [Columns[0]] on an empty
    list is out of range. *)
Definition checkForeignKey (s : SchemaT) (m : Model) (f : ForeignKey) : M ForeignKey :=
  let f := setForeignKeyName f (makeName (Model_Name m) [ForeignKey_Column f] "fkey") in
  (match FindColumn m (ForeignKey_Column f) with
   | None =>
       addError ("Model '" +:+ Model_Name m +:+ "' has a foreign key on non-existing field '"
                 +:+ ForeignKey_Column f +:+ "'")
   | Some _ => ret tt
   end) ;;;
  match Models s !! ForeignKey_ForeignModel f with
  | None =>
      addError ("Model '" +:+ Model_Name m +:+ "' field '" +:+ ForeignKey_Column f
                +:+ "' has foreign key to non-existing model '"
                +:+ ForeignKey_ForeignModel f +:+ "'") ;;;
      ret f
  | Some m2 =>
      match Model_PrimaryKey m2 with
      | None => panic "invalid memory address or nil pointer dereference"
      | Some pk =>
          (if Nat.eqb (length (PrimaryKey_Columns pk)) 1 then ret tt
           else
             addError ("Model '" +:+ Model_Name m +:+ "' field '" +:+ ForeignKey_Column f
                       +:+ "' has foreign key to model with multi-column primary key '"
                       +:+ ForeignKey_ForeignModel f +:+ "'")) ;;;
          match PrimaryKey_Columns pk with
          | [] => panic "index out of range [0] with length 0"
          | ff :: _ => ret (setForeignColumn f ff)
          end
      end
  end.

Fixpoint checkForeignKeysFrom (s : SchemaT) (m : Model) (l : list ForeignKey)
    : M (list ForeignKey) :=
  match l with
  | [] => ret []
  | f :: rest =>
      f <- checkForeignKey s m f ;;
      rest <- checkForeignKeysFrom s m rest ;;
      ret (f :: rest)
  end.

Definition checkForeignKeys (s : SchemaT) (m : Model) : M Model :=
  l <- checkForeignKeysFrom s m (Model_ForeignKeys m) ;;
  ret (setForeignKeys m l).

(** The body of the last loop of [Schema]: the five checks on one model. *)
Definition checkModel (s : SchemaT) (m : Model) : M Model :=
  checkDuplicateFields s m ;;;
  checkPrimaryKey s m ;;;
  m <- checkIndexes s m ;;
  m <- checkUniques s m ;;
  checkForeignKeys s m.

(** [for _, m := range s.Models]: the models are visited in the order
    [keys]; the checks mutate the visited model through its pointer. *)
Fixpoint checkModels (s : SchemaT) (keys : list string) : M SchemaT :=
  match keys with
  | [] => ret s
  | k :: rest =>
      match Models s !! k with
      | None => checkModels s rest
      | Some m =>
          m <- checkModel s m ;;
          checkModels (setModels s (<[k := m]> (Models s))) rest
      end
  end.

(** The keys of a map in the order of its canonical enumeration. *)
Definition canonicalKeys (ms : gmap string Model) : list string :=
  (map_to_list ms).*1.

(** ** [Schema] *)

(** Modelled from the spec: [typeInfo.getType] is declared outside
    [validate.go]; a struct type yields a [*schema.Struct] of that name,
    any other type a base type. *)
Definition getType (info : typeInfo) (name : string) : SchemaType :=
  match info with
  | structType _ => TStruct name []
  | baseType go goNull postgres => TBase (mkBaseTypeNullable name go goNull postgres)
  end.

(** First loop of [Schema]: register all types by name. *)
Fixpoint registerTypes (s : SchemaT) (types : list typeEntry) : M SchemaT :=
  match types with
  | [] => ret s
  | t :: rest =>
      (match Types s !! te_name t with
       | Some _ => addError ("Type '" +:+ te_name t +:+ "' is defined multiple times")
       | None => ret tt
       end) ;;;
      byName <- getTypesByName ;;
      setTypesByName (<[te_name t := t]> byName) ;;;
      registerTypes (setTypes s (<[te_name t := getType (te_info t) (te_name t)]> (Types s))) rest
  end.

(** The closure handed to [resolveTypes]: a registry lookup that records
    a diagnostic on a miss and returns the (possibly [nil]) result. *)
Definition resolveRef (s : SchemaT) (tname name context : string) : M (option string) :=
  match Types s !! name with
  | Some _ => ret (Some name)
  | None =>
      let context := if String.eqb context "" then context else " " +:+ context in
      addError ("Type '" +:+ tname +:+ "'" +:+ context
                +:+ " references unknown type '" +:+ name +:+ "'") ;;;
      ret None
  end.

Section Schema.

(** [Schema.CalculateRelationships], the relationship-derivation pass
    of package [schema]. *)
Variable CalculateRelationships : SchemaT -> SchemaT.

(** The context string a struct type passes to the resolver for a
    member of the given name. *)
Variable fieldContext : string -> string.

Fixpoint resolveItems (s : SchemaT) (tname : string) (items : list ModelItem)
    : M (list StructField) :=
  match items with
  | [] => ret []
  | field name typeName _ :: rest =>
      r <- resolveRef s tname typeName (fieldContext name) ;;
      rest <- resolveItems s tname rest ;;
      ret (mkStructField name r :: rest)
  | _ :: rest => resolveItems s tname rest
  end.

(** Modelled from the spec: [typeInfo.resolveTypes] is declared outside
    [validate.go].  Every reference of the type is looked up through
    the resolver; a struct registered under the type's name receives
    the resolved members. *)
Definition resolveTypes (s : SchemaT) (t : typeEntry) : M SchemaT :=
  match te_info t with
  | structType items =>
      refs <- resolveItems s (te_name t) items ;;
      match Types s !! te_name t with
      | Some (TStruct n fields) =>
          ret (setTypes s (<[te_name t := TStruct n (fields ++ refs)]> (Types s)))
      | _ => ret s
      end
  | baseType _ _ _ => ret s
  end.

(** Second loop of [Schema]. *)
Fixpoint resolveAllTypes (s : SchemaT) (types : list typeEntry) : M SchemaT :=
  match types with
  | [] => ret s
  | t :: rest => s <- resolveTypes s t ;; resolveAllTypes s rest
  end.

(** Third loop of [Schema]: register and flatten all models. *)
Fixpoint registerModels (fuel : nat) (s : SchemaT) (models : list modelEntry) : M SchemaT :=
  match models with
  | [] => ret s
  | m :: rest =>
      (match Models s !! me_name m with
       | Some _ => addError ("Model '" +:+ me_name m +:+ "' is defined multiple times")
       | None => ret tt
       end) ;;;
      let model := newModel (me_name m) in
      let s := setModels s (<[me_name m := model]> (Models s)) in
      model <- makeModel fuel s model (me_items m) "" false ;;
      registerModels fuel (setModels s (<[me_name m := model]> (Models s))) rest
  end.

(** The aggregate error message, written into a [strings.Builder]. *)
Definition errorReport (errs : list string) : string :=
  fold_left (fun b e => b +:+ e +:+ newline)
    errs (fmt_d (length errs) +:+ " errors found:" +:+ newline).

(** The tail of [Schema]: fail with the aggregate error if any
    diagnostic is recorded, else derive the relationships and return the
    schema. *)
Definition finish (s : SchemaT) : M (option SchemaT * option string) :=
  errs <- getValidationErrors ;;
  if Nat.eqb (length errs) 0 then ret (Some (CalculateRelationships s), None)
  else ret (None, Some (errorReport errs)).

(** The first three loops of [Schema]. *)
Definition registerAll (fuel : nat) (types : list typeEntry) (models : list modelEntry)
    : M SchemaT :=
  let s := NewSchema in
  setTypesByName ∅ ;;;
  s <- registerTypes s types ;;
  s <- resolveAllTypes s types ;;
  registerModels fuel s models.

(** Everything of [Schema] before the test on [validationErrors]. *)
Definition buildSchema (fuel : nat) (rangeKeys : gmap string Model -> list string)
    (types : list typeEntry) (models : list modelEntry) : M SchemaT :=
  s <- registerAll fuel types models ;;
  checkModels s (rangeKeys (Models s)).

(** [Schema()] on the declarations [types] and [models].  [rangeKeys]
    is the order in which [range] visits the keys of the models map,
    which Go leaves unspecified. *)
Definition Schema (fuel : nat) (rangeKeys : gmap string Model -> list string)
    (types : list typeEntry) (models : list modelEntry)
    : M (option SchemaT * option string) :=
  s <- buildSchema fuel rangeKeys types models ;;
  finish s.

End Schema.

(** ** Scenarios *)

Module Scenario.

Definition intType : typeEntry :=
  mkTypeEntry "int" (baseType (mkTypeGo "" "int") (mkTypeGo "null" "Int") "integer").
Definition decimalType : typeEntry :=
  mkTypeEntry "decimal"
    (baseType (mkTypeGo "" "Decimal") (mkTypeGo "null" "Decimal") "numeric").

Definition ctx (name : string) : string := "field '" +:+ name +:+ "'".

Definition fresh : Globals := mkGlobals [] ∅.

(** Scenario A. *)
Definition typesA : list typeEntry := [intType].
Definition modelsA : list modelEntry :=
  [ mkModelEntry "User" [field "id" "int" []; primaryKey ["id"]];
    mkModelEntry "Post"
      [field "id" "int" []; field "author_id" "int" [];
       primaryKey ["id"]; foreignKey "author_id" "User"] ].

Definition postItems : list ModelItem :=
  [field "id" "int" []; field "author_id" "int" [];
   primaryKey ["id"]; foreignKey "author_id" "User"].

(** [Post] refers to a [User] that declares no primary key. *)
Definition modelsNoKey : list modelEntry :=
  [ mkModelEntry "User" [field "id" "int" []];
    mkModelEntry "Post" postItems ].

(** [Post] refers to a [User] whose primary key lists no column. *)
Definition modelsEmptyKey : list modelEntry :=
  [ mkModelEntry "User" [field "id" "int" []; primaryKey []];
    mkModelEntry "Post" postItems ].

Definition reverseKeys (ms : gmap string Model) : list string :=
  reverse (canonicalKeys ms).

(** A nullable struct nested in a nullable struct. *)
Definition typesNested : list typeEntry :=
  [ intType;
    mkTypeEntry "B" (structType [field "x" "int" []]);
    mkTypeEntry "A" (structType [field "b" "B" [nullFlag]]) ].
Definition modelsNested : list modelEntry :=
  [ mkModelEntry "M" [field "a" "A" [nullFlag]] ].

(** A struct type that refers to itself. *)
Definition typesCyclic : list typeEntry :=
  [ mkTypeEntry "Node" (structType [field "next" "Node" []]) ].
Definition modelsCyclic : list modelEntry :=
  [ mkModelEntry "List" [field "head" "Node" []] ].

(** Scenario B. *)
Definition typesB : list typeEntry := [decimalType].
Definition modelsB : list modelEntry :=
  [ mkModelEntry "Order" [field "total" "decimal" [nullFlag]; primaryKey ["total"]] ].

End Scenario.

(** * Notions used in the statements *)

(** ** Diagnostics carried along *)

Definition withErrors (e : list string) (g : Globals) : Globals :=
  mkGlobals (e ++ validationErrors g) (typesByName g).

(** An outcome with the diagnostics [e] put in front of those it holds. *)
Definition shift {A} (e : list string) (o : outcome (A * Globals)) : outcome (A * Globals) :=
  match o with
  | Done (a, g) => Done (a, withErrors e g)
  | Panic msg => Panic msg
  | OutOfFuel => OutOfFuel
  end.

(** A computation is a [logger] when diagnostics already recorded are
    carried along untouched and never influence what it does. *)
Definition logger {A} (c : M A) : Prop :=
  forall e g, c (withErrors e g) = shift e (c g).

(** A computation [keepsTypes] when it leaves [typesByName] as it found it. *)
Definition keepsTypes {A} (c : M A) : Prop :=
  forall g a g', c g = Done (a, g') -> typesByName g' = typesByName g.

(** ** The aggregate error *)

(** One line per diagnostic, in the order of the list. *)
Fixpoint diagnosticLines (errs : list string) : string :=
  match errs with
  | [] => ""
  | e :: rest => e +:+ newline +:+ diagnosticLines rest
  end.

(** The first line of the aggregate error. *)
Definition reportHeader (n : nat) : string :=
  fmt_d n +:+ " errors found:" +:+ newline.

Section Verdict.

(** [Schema.CalculateRelationships]. *)
Variable CalculateRelationships : SchemaT -> SchemaT.

(** What [Schema] returns once the checks have run, from the recorded
    diagnostics [errs] and the schema [s] built. *)
Definition verdict (s : SchemaT) (errs : list string) : option SchemaT * option string :=
  match errs with
  | [] => (Some (CalculateRelationships s), None)
  | _ :: _ => (None, Some (reportHeader (length errs) +:+ diagnosticLines errs))
  end.

End Verdict.

(** The number of line feeds in a string. *)
Fixpoint lineFeeds (s : string) : nat :=
  match s with
  | EmptyString => 0
  | String c r => (if Ascii.eqb c "010"%char then 1 else 0) + lineFeeds r
  end.

(** ** Computations as writers of diagnostics *)

(** The state after the diagnostics [new] have been recorded. *)
Definition record (new : list string) (g : Globals) : Globals :=
  mkGlobals (validationErrors g ++ new) (typesByName g).

(** The result of a computation together with the diagnostics it adds. *)
Definition W (A : Type) : Type := outcome (A * list string).

(** Sequencing of two results, and a result run as a computation. *)
Definition wbind {A B} (w : W A) (k : A -> W B) : W B :=
  match w with
  | Done (a, e) =>
      match k a with
      | Done (b, e') => Done (b, e ++ e')
      | Panic msg => Panic msg
      | OutOfFuel => OutOfFuel
      end
  | Panic msg => Panic msg
  | OutOfFuel => OutOfFuel
  end.

Definition replay {A} (w : W A) : M A :=
  fun g =>
    match w with
    | Done (a, e) => Done (a, record e g)
    | Panic msg => Panic msg
    | OutOfFuel => OutOfFuel
    end.

(** What a computation does when started from the empty state. *)
Definition runLog {A} (c : M A) : W A :=
  match c (mkGlobals [] ∅) with
  | Done (a, g) => Done (a, validationErrors g)
  | Panic msg => Panic msg
  | OutOfFuel => OutOfFuel
  end.

(** A computation is a [writer] when it reads nothing of the package
    state and only appends diagnostics to it. *)
Definition writer {A} (c : M A) : Prop := forall g, c g = replay (runLog c) g.

(** ** The checks and the order of the visit *)

(** The checks of one model only name its constraints and resolve its
    foreign keys. *)
Definition sameButConstraints (m m' : Model) : Prop :=
  Model_Name m' = Model_Name m /\
  Model_Fields m' = Model_Fields m /\
  Model_Columns m' = Model_Columns m /\
  Model_PrimaryKey m' = Model_PrimaryKey m.

(** The checked model and its diagnostics, as a function of the schema
    and the model. *)
Definition checked (s : SchemaT) (m : Model) : W Model := runLog (checkModel s m).

(** The primary keys of the models of a schema. *)
Definition pkView (s : SchemaT) : gmap string (option PrimaryKey) :=
  Model_PrimaryKey <$> Models s.

(** [range] over a map visits every key once. *)
Definition visitsEachKeyOnce (rangeKeys : gmap string Model -> list string) : Prop :=
  forall ms, NoDup (rangeKeys ms) /\ forall k, k ∈ rangeKeys ms <-> is_Some (ms !! k).

(** ** The diagnostics of the checks *)

(** [emits c a new]: the computation returns [a] and records exactly the
    diagnostics [new], whatever the state. *)
Definition emits {A} (c : M A) (a : A) (new : list string) : Prop :=
  forall g, c g = Done (a, record new g).

(** The diagnostics of [checkDuplicateFields]. *)
Fixpoint fieldDiagnostics (seen : gset string) (modelName : string) (fields : list Field)
    : list string :=
  match fields with
  | [] => []
  | f :: rest =>
      (if decide (Field_Name f ∈ seen) then
         ["Model '" +:+ modelName +:+ "' field '" +:+ Field_Name f
          +:+ "' is defined multiple times."]
       else [])
      ++ fieldDiagnostics ({[Field_Name f]} ∪ seen) modelName rest
  end.

(** The diagnostics of one column name of a primary key. *)
Definition primaryKeyColumnDiagnostics (m : Model) (name : string) : list string :=
  match FindColumn m name with
  | None =>
      ["Model '" +:+ Model_Name m +:+ "' primary key references unknown column '"
       +:+ name +:+ "'"]
  | Some c =>
      if Column_Nullable c then
        ["Model '" +:+ Model_Name m +:+ "' primary key references nullable column '"
         +:+ name +:+ "'"]
      else []
  end.

(** The diagnostics of [checkPrimaryKey]. *)
Definition primaryKeyDiagnostics (m : Model) : list string :=
  match Model_PrimaryKey m with
  | None => ["Model '" +:+ Model_Name m +:+ "' is missing a primary key"]
  | Some pk => flat_map (primaryKeyColumnDiagnostics m) (PrimaryKey_Columns pk)
  end.

(** An index, a unique constraint and a foreign key with the name the
    checks give them. *)
Definition namedIndex (m : Model) (f : Index) : Index :=
  mkIndex (makeName (Model_Name m) (Index_Columns f) "idx") (Index_Columns f).

Definition namedUnique (m : Model) (f : Unique) : Unique :=
  mkUnique (makeName (Model_Name m) (Unique_Columns f) "key") (Unique_Columns f).

(** The diagnostics of one column name of an index or unique constraint,
    and of a repeated constraint. *)
Definition constraintColumnDiagnostics (kind : string) (m : Model) (columns : list string)
    (name : string) : list string :=
  match FindColumn m name with
  | None =>
      ["Model '" +:+ Model_Name m +:+ "' " +:+ kind +:+ " '" +:+ describeIndex columns
       +:+ "' references unknown column '" +:+ name +:+ "'"]
  | Some _ => []
  end.

Definition duplicateDiagnostic (kind : string) (m : Model) (columns : list string) : string :=
  "Model '" +:+ Model_Name m +:+ "' " +:+ kind +:+ " '" +:+ describeIndex columns
  +:+ "' is defined multiple times.".

(** The diagnostics of [checkIndexes] and of [checkUniques], in the order
    in which they are recorded. *)
Fixpoint indexDiagnostics (seen : gset string) (m : Model) (l : list Index) : list string :=
  match l with
  | [] => []
  | f :: rest =>
      let name := makeName (Model_Name m) (Index_Columns f) "idx" in
      (if decide (name ∈ seen) then [duplicateDiagnostic "index" m (Index_Columns f)] else [])
      ++ flat_map (constraintColumnDiagnostics "index" m (Index_Columns f)) (Index_Columns f)
      ++ indexDiagnostics ({[name]} ∪ seen) m rest
  end.

Fixpoint uniqueDiagnostics (seen : gset string) (m : Model) (l : list Unique) : list string :=
  match l with
  | [] => []
  | f :: rest =>
      let name := makeName (Model_Name m) (Unique_Columns f) "key" in
      (if decide (name ∈ seen) then [duplicateDiagnostic "unique" m (Unique_Columns f)] else [])
      ++ flat_map (constraintColumnDiagnostics "unique" m (Unique_Columns f)) (Unique_Columns f)
      ++ uniqueDiagnostics ({[name]} ∪ seen) m rest
  end.


Definition namedForeignKey (m : Model) (f : ForeignKey) : ForeignKey :=
  setForeignKeyName f (makeName (Model_Name m) [ForeignKey_Column f] "fkey").

(** The diagnostic of a foreign key on a column the model does not have. *)
Definition foreignKeyColumnDiagnostics (m : Model) (f : ForeignKey) : list string :=
  match FindColumn m (ForeignKey_Column f) with
  | None =>
      ["Model '" +:+ Model_Name m +:+ "' has a foreign key on non-existing field '"
       +:+ ForeignKey_Column f +:+ "'"]
  | Some _ => []
  end.

(** A foreign key whose target model is registered but has no primary
    key, or a primary key without columns. *)
Definition keylessTarget (s : SchemaT) (f : ForeignKey) : bool :=
  match Models s !! ForeignKey_ForeignModel f with
  | Some m2 =>
      match Model_PrimaryKey m2 with
      | None => true
      | Some pk => match PrimaryKey_Columns pk with [] => true | _ :: _ => false end
      end
  | None => false
  end.

(** None of the foreign keys has a keyless target. *)
Definition safeKeys (s : SchemaT) (l : list ForeignKey) : bool :=
  forallb (fun f => negb (keylessTarget s f)) l.

(** ** Primary key declarations *)

(** The primary keys declared by an item list, in the order in which
    [makeModel] meets them: the declarations of the list itself and, at
    every struct-typed field, the declarations among the items of the
    struct, prefixed with the path of the field. *)
Section KeysDeclared.

Variable rec : list ModelItem -> string -> list (list string).

Variable s : SchemaT.

Variable byName : gmap string typeEntry.

Definition keysOfItem (i : ModelItem) (prefix : string) : list (list string) :=
  match i with
  | primaryKey names => [flattenNames names prefix]
  | field name typeName _ =>
      match Types s !! typeName with
      | Some (TStruct _ _) =>
          match te_info <$> byName !! typeName with
          | Some (structType items) => rec items (prefix +:+ name +:+ ".")
          | _ => []
          end
      | _ => []
      end
  | _ => []
  end.

Fixpoint keysOfItems (items : list ModelItem) (prefix : string) : list (list string) :=
  match items with
  | [] => []
  | i :: rest => keysOfItem i prefix ++ keysOfItems rest prefix
  end.

End KeysDeclared.

Fixpoint keysDeclared (fuel : nat) (s : SchemaT) (byName : gmap string typeEntry)
    (items : list ModelItem) (prefix : string) : list (list string) :=
  keysOfItems
    (match fuel with
     | O => fun _ _ => []
     | S fuel' => keysDeclared fuel' s byName
     end) s byName items prefix.

(** The diagnostic of a repeated primary key declaration. *)
Definition multiplePrimaryKeys (model : string) : string :=
  "Model '" +:+ model +:+ "' has multiple primary key definitions".

(** The primary key a model holds after the declarations [keys] have been
    met, [pk] being the key it held before. *)
Definition keyKept (pk : option PrimaryKey) (keys : list (list string)) : option PrimaryKey :=
  match last keys with
  | Some k => Some (mkPrimaryKey k)
  | None => pk
  end.

(** The number of declarations among [keys] that find a key in place. *)
Definition keysRefused (pk : option PrimaryKey) (keys : list (list string)) : nat :=
  match pk with
  | Some _ => length keys
  | None => length keys - 1
  end.

(** The last character of a string. *)
Fixpoint lastChar (s : string) : option ascii :=
  match s with
  | EmptyString => None
  | String c EmptyString => Some c
  | String _ r => lastChar r
  end.

(** A message that ends with a closing quote. *)
Definition quoted (msg : string) : Prop := lastChar msg = Some "'"%char.

(** [keysOutcome m g keys m' g']: going from [m], [g] to [m'], [g'] is
    what meeting the declarations [keys] does to the primary key of the
    model and to the number of multiple-primary-key diagnostics. *)
Definition keysOutcome (m : Model) (g : Globals) (keys : list (list string))
    (m' : Model) (g' : Globals) : Prop :=
  Model_Name m' = Model_Name m /\
  Model_PrimaryKey m' = keyKept (Model_PrimaryKey m) keys /\
  exists new,
    validationErrors g' = validationErrors g ++ new /\
    count_occ string_dec new (multiplePrimaryKeys (Model_Name m))
    = keysRefused (Model_PrimaryKey m) keys.

(** ** The members of a struct *)

(** The members that the flattening of a struct reaches: its leaf members
    of base type, and the struct-typed members that are nullable, each
    with its path of member names. *)
Inductive flatMember :=
| leafMember (path : list string) (t : BaseTypeNullable)
| presenceMember (path : list string).

Section StructMembers.

Variable rec : list ModelItem -> list string -> list flatMember.

Variable s : SchemaT.

Variable byName : gmap string typeEntry.

Definition membersOfItem (i : ModelItem) (path : list string) : list flatMember :=
  match i with
  | field name typeName flags =>
      match Types s !! typeName with
      | Some (TBase b) => [leafMember (path ++ [name]) b]
      | Some (TStruct _ _) =>
          match te_info <$> byName !! typeName with
          | Some (structType items) =>
              rec items (path ++ [name])
              ++ (if isNullable flags then [presenceMember (path ++ [name])] else [])
          | _ => []
          end
      | None => []
      end
  | _ => []
  end.

Fixpoint membersOfItems (items : list ModelItem) (path : list string) : list flatMember :=
  match items with
  | [] => []
  | i :: rest => membersOfItem i path ++ membersOfItems rest path
  end.

End StructMembers.

Fixpoint structMembers (fuel : nat) (s : SchemaT) (byName : gmap string typeEntry)
    (items : list ModelItem) (path : list string) : list flatMember :=
  membersOfItems
    (match fuel with
     | O => fun _ _ => []
     | S fuel' => structMembers fuel' s byName
     end) s byName items path.

(** The numbers of leaf members and of nested nullable structs. *)
Definition isLeaf (mem : flatMember) : bool :=
  match mem with leafMember _ _ => true | presenceMember _ => false end.

Definition leafCount (members : list flatMember) : nat :=
  length (filter (fun mem => isLeaf mem = true) members).

Definition presenceCount (members : list flatMember) : nat :=
  length (filter (fun mem => isLeaf mem = false) members).

(** The column name of a path: its components joined by double
    underscores (a dot inside a component is replaced as well). *)
Definition pathName (path : list string) : string :=
  strings_Join (map undot path) "__".

(** The column of a member below a nullable field. *)
Definition memberColumn (mem : flatMember) : Column :=
  match mem with
  | leafMember path t => mkColumn (pathName path) t (TypeDB t) true
  | presenceMember path => mkColumn (pathName path) boolType "boolean" true
  end.

(** The prefix [makeModel] carries at a path. *)
Fixpoint dottedPrefix (path : list string) : string :=
  match path with
  | [] => ""
  | n :: rest => n +:+ "." +:+ dottedPrefix rest
  end.

(** ** Termination and the reference graph *)

(** A computation that never runs out of fuel. *)
Definition fuelFree {A} (c : M A) : Prop := forall g, c g <> OutOfFuel.

(** A run that ends by returning a value. *)
Definition returns {A} (o : outcome A) : Prop := exists a, o = Done a.

(** The items [makeModel] recurses into at a field of type [name]: the
    registry holds a struct under that name and [typesByName] a struct
    declaration. *)
Definition structItems (types : gmap string SchemaType) (byName : gmap string typeEntry)
    (name : string) : option (list ModelItem) :=
  match types !! name with
  | Some (TStruct _ _) =>
      match te_info <$> byName !! name with
      | Some (structType items) => Some items
      | _ => None
      end
  | _ => None
  end.

(** An edge of the reference graph of the struct types: the struct [a]
    has a member whose type is the struct [b]. *)
Definition refersTo (types : gmap string SchemaType) (byName : gmap string typeEntry)
    (a b : string) : Prop :=
  exists items fname flags,
    structItems types byName a = Some items /\
    In (field fname b flags) items /\
    is_Some (structItems types byName b).

(** No struct type reaches itself along references. *)
Definition acyclic (types : gmap string SchemaType) (byName : gmap string typeEntry) : Prop :=
  forall a, ~ tc (refersTo types byName) a a.

(** [typesByName] after the registration of [types]: of two declarations
    of one name the later stands. *)
Definition declaredTable (types : list typeEntry) : gmap string typeEntry :=
  fold_left (fun t e => <[te_name e := e]> t) types ∅.

(** The items of the struct type declared under [name]. *)
Definition declaredItems (types : list typeEntry) (name : string) : option (list ModelItem) :=
  match te_info <$> declaredTable types !! name with
  | Some (structType items) => Some items
  | _ => None
  end.

(** The declared struct [a] has a member whose type is the declared
    struct [b]. *)
Definition declaredRefersTo (types : list typeEntry) (a b : string) : Prop :=
  exists items fname flags,
    declaredItems types a = Some items /\
    In (field fname b flags) items /\
    is_Some (declaredItems types b).

(** The struct types of a declaration set do not refer to one another in
    a cycle. *)
Definition acyclicTypes (types : list typeEntry) : Prop :=
  forall a, ~ tc (declaredRefersTo types) a a.

(** Whether a registry entry, a declaration, is a struct. *)
Definition isStruct (t : SchemaType) : bool :=
  match t with TStruct _ _ => true | TBase _ => false end.

Definition isStructInfo (e : typeEntry) : bool :=
  match te_info e with structType _ => true | baseType _ _ _ => false end.

(** The registry and [typesByName] agree on which names are structs. *)
Definition registered (types : gmap string SchemaType) (byName : gmap string typeEntry) : Prop :=
  forall name, isStruct <$> types !! name = isStructInfo <$> byName !! name.

(** ** Dots and tags *)

(** Whether a string holds a dot, and how many. *)
Fixpoint hasDot (s : string) : bool :=
  match s with
  | EmptyString => false
  | String c r => Ascii.eqb c "."%char || hasDot r
  end.

Fixpoint countDots (s : string) : nat :=
  match s with
  | EmptyString => 0
  | String c r => (if Ascii.eqb c "."%char then 1 else 0) + countDots r
  end.

(** The keys of the tag flags, and the values they give to one key, in
    the order of the flags. *)
Fixpoint tagKeys (flags : list FieldFlag) : list string :=
  match flags with
  | [] => []
  | nullFlag :: rest => tagKeys rest
  | tagFlag key _ :: rest => key :: tagKeys rest
  end.

Fixpoint tagValues (key : string) (flags : list FieldFlag) : list string :=
  match flags with
  | [] => []
  | nullFlag :: rest => tagValues key rest
  | tagFlag k v :: rest =>
      if String.eqb k key then v :: tagValues key rest else tagValues key rest
  end.

(** ** What flattening adds to a model *)

(** [grows m m']: [m'] is [m] with fields, columns and constraints
    appended; a primary key may have been set or replaced. *)
Definition grows (m m' : Model) : Prop :=
  Model_Name m' = Model_Name m /\
  Model_Fields m `prefix_of` Model_Fields m' /\
  Model_Columns m `prefix_of` Model_Columns m' /\
  Model_Indexes m `prefix_of` Model_Indexes m' /\
  Model_Uniques m `prefix_of` Model_Uniques m' /\
  Model_ForeignKeys m `prefix_of` Model_ForeignKeys m' /\
  (is_Some (Model_PrimaryKey m) -> is_Some (Model_PrimaryKey m')).

Definition dotFree (names : list string) : Prop :=
  Forall (fun n => hasDot n = false) names.

(** No column name and no column name listed by a constraint holds a
    dot, and every foreign key carries the name of the model. *)
Definition flatNames (m : Model) : Prop :=
  dotFree (Column_Name <$> Model_Columns m) /\
  (forall pk, Model_PrimaryKey m = Some pk -> dotFree (PrimaryKey_Columns pk)) /\
  Forall (fun i => dotFree (Index_Columns i)) (Model_Indexes m) /\
  Forall (fun u => dotFree (Unique_Columns u)) (Model_Uniques m) /\
  Forall (fun f => hasDot (ForeignKey_Column f) = false /\
                   ForeignKey_Model f = Model_Name m) (Model_ForeignKeys m).

(** What one call of [makeModel] with the given prefix does to a model. *)
Definition flattened (prefix : string) (m m' : Model) : Prop :=
  grows m m' /\
  (flatNames m -> flatNames m') /\
  (prefix <> "" -> Model_Fields m' = Model_Fields m).

(** The name, the type and the nullability of the field a top-level item
    declares: a field item whose type is registered. *)
Definition declaredField (s : SchemaT) (forceNullable : bool) (i : ModelItem)
    : option (string * SchemaType * bool) :=
  match i with
  | field name typeName flags =>
      (fun t => (name, t, isNullable flags || forceNullable)) <$> Types s !! typeName
  | _ => None
  end.

Definition fieldSummary (f : Field) : string * SchemaType * bool :=
  (Field_Name f, Field_Type f, Field_Nullable f).

(** The diagnostic of a model declared again. *)
Definition modelDiagnostic (e : modelEntry) : string :=
  "Model '" +:+ me_name e +:+ "' is defined multiple times".

(** ** The checks model by model *)

(** The diagnostics the checks record for the model registered under
    [k], and the model they leave. *)
Definition modelDiagnostics (s : SchemaT) (k : string) : list string :=
  match Models s !! k with
  | Some m => match checked s m with Done (_, e) => e | _ => [] end
  | None => []
  end.

(** ** A model that passes the checks *)

(** [validModel s m]: the field names of [m] are pairwise distinct; [m]
    has a primary key whose columns are found in [m] and are not
    nullable; every index and unique constraint carries its generated
    name, these names are pairwise distinct, and their columns are found
    in [m]; every foreign key carries its generated name and the name of
    [m], its column is found in [m], and its target is a model of [s]
    whose primary key is the one column the foreign key refers to. *)
Definition validModel (s : SchemaT) (m : Model) : Prop :=
  NoDup (Field_Name <$> Model_Fields m) /\
  (exists pk,
     Model_PrimaryKey m = Some pk /\
     forall name, In name (PrimaryKey_Columns pk) ->
       exists c, FindColumn m name = Some c /\ Column_Nullable c = false) /\
  (forall i, In i (Model_Indexes m) ->
     Index_Name i = makeName (Model_Name m) (Index_Columns i) "idx" /\
     forall name, In name (Index_Columns i) -> is_Some (FindColumn m name)) /\
  NoDup (Index_Name <$> Model_Indexes m) /\
  (forall u, In u (Model_Uniques m) ->
     Unique_Name u = makeName (Model_Name m) (Unique_Columns u) "key" /\
     forall name, In name (Unique_Columns u) -> is_Some (FindColumn m name)) /\
  NoDup (Unique_Name <$> Model_Uniques m) /\
  (forall f, In f (Model_ForeignKeys m) ->
     ForeignKey_Name f = makeName (Model_Name m) [ForeignKey_Column f] "fkey" /\
     ForeignKey_Model f = Model_Name m /\
     is_Some (FindColumn m (ForeignKey_Column f)) /\
     exists m2,
       Models s !! ForeignKey_ForeignModel f = Some m2 /\
       Model_PrimaryKey m2 = Some (mkPrimaryKey [ForeignKey_ForeignColumn f])).

(** What a silent run of [checkForeignKeys] makes of a foreign key. *)
Definition resolvedKey (s : SchemaT) (m : Model) (f f' : ForeignKey) : Prop :=
  is_Some (FindColumn m (ForeignKey_Column f)) /\
  exists m2 c,
    Models s !! ForeignKey_ForeignModel f = Some m2 /\
    Model_PrimaryKey m2 = Some (mkPrimaryKey [c]) /\
    f' = setForeignColumn (namedForeignKey m f) c.

(** ** Panics *)

(** The messages of the two panics of [checkForeignKeys]. *)
Definition keyPanic (msg : string) : Prop :=
  msg = "invalid memory address or nil pointer dereference" \/
  msg = "index out of range [0] with length 0".

(** A computation that, when it does not return, panics with one of these. *)
Definition panicsOnKeys {A} (c : M A) : Prop :=
  forall g, match c g with
            | Done _ => True
            | Panic msg => keyPanic msg
            | OutOfFuel => False
            end.

(** ** Runs that differ in the order of their diagnostics *)

(** Two outcomes with the same result and the same diagnostics, up to
    the order of the diagnostics. *)
Definition sameUpToOrder {A} (o o' : outcome (A * Globals)) : Prop :=
  match o, o' with
  | Done (a, g), Done (a', g') =>
      a = a' /\ validationErrors g ≡ₚ validationErrors g' /\ typesByName g = typesByName g'
  | Panic msg, Panic msg' => msg = msg'
  | OutOfFuel, OutOfFuel => True
  | _, _ => False
  end.

(** The struct registered under [name] with the resolved members [refs]
    added, as [resolveTypes] leaves it. *)
Definition putRefs (s : SchemaT) (name : string) (refs : list StructField) : SchemaT :=
  match Types s !! name with
  | Some (TStruct n fields) => setTypes s (<[name := TStruct n (fields ++ refs)]> (Types s))
  | _ => s
  end.

(** ** Nullable columns *)

(** [m'] is [m] with nullable columns appended. *)
Definition addsNullable (m m' : Model) : Prop :=
  exists cs,
    Model_Columns m' = Model_Columns m ++ cs /\
    Forall (fun c => Column_Nullable c = true) cs.

(** ** Sample inputs *)

Module Sample.

(** A registry with a base type and a struct type, and the declarations
    of [typesByName] that go with it. *)
Definition registry : SchemaT :=
  mkSchema {["int" := TBase (mkBaseTypeNullable "int" (mkTypeGo "" "int")
                               (mkTypeGo "null" "Int") "integer");
             "P" := TStruct "P" []]} ∅.

Definition declared : Globals :=
  mkGlobals [] {["P" := mkTypeEntry "P" (structType [field "q" "int" []])]}.

(** A model that holds a column and a primary key. *)
Definition keyed : Model :=
  mkModel "M" [] [mkColumn "id" boolType "boolean" false]
    (Some (mkPrimaryKey ["id"])) [] [] [].

(** Two models without primary key. *)
Definition unkeyed : SchemaT :=
  mkSchema ∅ {["A" := newModel "A"; "B" := newModel "B"]}.

(** The declarations of two models without primary key. *)
Definition modelsUnkeyed : list modelEntry :=
  [ mkModelEntry "A" [field "id" "int" []]; mkModelEntry "B" [field "id" "int" []] ].

(** A model with an index on two columns and an index on one column
    whose name is the join of the two. *)
Definition indexed : Model :=
  mkModel "M" [] [] None [mkIndex "" ["a"; "b"]; mkIndex "" ["a___b"]] [] [].

End Sample.

(** * Properties *)

(** ** Computations that only extend the diagnostic list *)

Lemma withErrors_nil g : withErrors [] g = g.
Proof. by destruct g. Qed.

Lemma withErrors_split g :
  g = withErrors (validationErrors g) (mkGlobals [] (typesByName g)).
Proof. destruct g; unfold withErrors; simpl. by rewrite app_nil_r. Qed.

Lemma logger_ret {A} (a : A) : logger (ret a).
Proof. done. Qed.

Lemma logger_panic {A} msg : logger (@panic A msg).
Proof. done. Qed.

Lemma logger_bind {A B} (c : M A) (k : A -> M B) :
  logger c -> (forall a, logger (k a)) -> logger (bind c k).
Proof.
  intros Hc Hk e g. unfold bind. rewrite Hc.
  destruct (c g) as [[a g']| |]; simpl; [apply Hk|done|done].
Qed.

Lemma logger_addError msg : logger (addError msg).
Proof. intros e g. unfold addError, withErrors; simpl. by rewrite <- app_assoc. Qed.

Lemma logger_getTypesByName : logger getTypesByName.
Proof. done. Qed.

Lemma logger_setTypesByName t : logger (setTypesByName t).
Proof. done. Qed.

Lemma keepsTypes_ret {A} (a : A) : keepsTypes (ret a).
Proof. intros g a' g' [= _ <-]. done. Qed.

Lemma keepsTypes_panic {A} msg : keepsTypes (@panic A msg).
Proof. intros g a' g' [=]. Qed.

Lemma keepsTypes_bind {A B} (c : M A) (k : A -> M B) :
  keepsTypes c -> (forall a, keepsTypes (k a)) -> keepsTypes (bind c k).
Proof.
  intros Hc Hk g b g'. unfold bind.
  destruct (c g) as [[a g1]| |] eqn:E; [|done|done].
  intros H. rewrite (Hk _ _ _ _ H). eapply Hc, E.
Qed.

Lemma keepsTypes_addError msg : keepsTypes (addError msg).
Proof. intros g a g' [= _ <-]. done. Qed.

Lemma keepsTypes_getTypesByName : keepsTypes getTypesByName.
Proof. intros g a g' [= _ <-]. done. Qed.

Create HintDb pass discriminated.

#[export] Hint Resolve logger_ret logger_panic logger_addError
  logger_getTypesByName logger_setTypesByName
  keepsTypes_ret keepsTypes_panic keepsTypes_addError keepsTypes_getTypesByName : pass.

(** Splits a goal [logger c] or [keepsTypes c] along the syntax of [c]. *)
Ltac pass_step :=
  lazymatch goal with
  | |- logger (bind _ _) => apply logger_bind; [|intros ?]
  | |- keepsTypes (bind _ _) => apply keepsTypes_bind; [|intros ?]
  | |- logger (match ?x with _ => _ end) => destruct x
  | |- keepsTypes (match ?x with _ => _ end) => destruct x
  | |- logger (if ?x then _ else _) => destruct x
  | |- keepsTypes (if ?x then _ else _) => destruct x
  | |- _ => solve [eauto with pass]
  end.

Ltac pass_solve := repeat pass_step.

(** What a logger adds does not depend on what was there. *)
Lemma logger_extends {A} (c : M A) g a g' :
  logger c -> c g = Done (a, g') ->
  exists new, validationErrors g' = validationErrors g ++ new.
Proof.
  intros Hc H. rewrite (withErrors_split g), Hc in H.
  destruct (c _) as [[a0 g0]| |]; simpl in H; [|done|done].
  injection H as _ <-. by exists (validationErrors g0).
Qed.

Lemma logger_makeTagsFrom flags res context : logger (makeTagsFrom res flags context).
Proof.
  revert res. induction flags as [|[|key value] flags IH]; intros res; simpl; pass_solve.
Qed.

Lemma keepsTypes_makeTagsFrom flags res context : keepsTypes (makeTagsFrom res flags context).
Proof.
  revert res. induction flags as [|[|key value] flags IH]; intros res; simpl; pass_solve.
Qed.

#[export] Hint Resolve logger_makeTagsFrom keepsTypes_makeTagsFrom : pass.

Lemma logger_makeTags flags context : logger (makeTags flags context).
Proof. unfold makeTags. pass_solve. Qed.

Lemma keepsTypes_makeTags flags context : keepsTypes (makeTags flags context).
Proof. unfold makeTags. pass_solve. Qed.

#[export] Hint Resolve logger_makeTags keepsTypes_makeTags : pass.

Section MakeModelPass.

Variable rec : Model -> list ModelItem -> string -> bool -> M Model.

Variable s : SchemaT.

Hypothesis logger_rec : forall m items prefix fn, logger (rec m items prefix fn).

Hypothesis keepsTypes_rec : forall m items prefix fn, keepsTypes (rec m items prefix fn).

Lemma logger_makeModelItem m i prefix fn : logger (makeModelItem rec s m i prefix fn).
Proof using logger_rec.
  destruct i; simpl; unfold makeModelField; pass_solve.
Qed.

Lemma keepsTypes_makeModelItem m i prefix fn : keepsTypes (makeModelItem rec s m i prefix fn).
Proof using keepsTypes_rec.
  destruct i; simpl; unfold makeModelField; pass_solve.
Qed.

Lemma logger_makeModelItems items m prefix fn : logger (makeModelItems rec s m items prefix fn).
Proof using logger_rec.
  revert m. induction items as [|i items IH]; intros m; simpl; pass_solve.
  apply logger_makeModelItem.
Qed.

Lemma keepsTypes_makeModelItems items m prefix fn :
  keepsTypes (makeModelItems rec s m items prefix fn).
Proof using keepsTypes_rec.
  revert m. induction items as [|i items IH]; intros m; simpl; pass_solve.
  apply keepsTypes_makeModelItem.
Qed.

End MakeModelPass.

Lemma logger_makeModel fuel s m items prefix fn : logger (makeModel fuel s m items prefix fn).
Proof.
  revert m items prefix fn. induction fuel as [|fuel IH]; intros; simpl;
    apply logger_makeModelItems; [done|apply IH].
Qed.

Lemma keepsTypes_makeModel fuel s m items prefix fn :
  keepsTypes (makeModel fuel s m items prefix fn).
Proof.
  revert m items prefix fn. induction fuel as [|fuel IH]; intros; simpl;
    apply keepsTypes_makeModelItems; [done|apply IH].
Qed.

#[export] Hint Resolve logger_makeModel keepsTypes_makeModel : pass.

Lemma logger_checkDuplicateFieldsFrom fields seen name :
  logger (checkDuplicateFieldsFrom seen name fields).
Proof. revert seen. induction fields as [|f fields IH]; intros seen; simpl; pass_solve. Qed.

Lemma keepsTypes_checkDuplicateFieldsFrom fields seen name :
  keepsTypes (checkDuplicateFieldsFrom seen name fields).
Proof. revert seen. induction fields as [|f fields IH]; intros seen; simpl; pass_solve. Qed.

Lemma logger_checkPrimaryKeyColumns m names : logger (checkPrimaryKeyColumns m names).
Proof. induction names as [|n names IH]; simpl; pass_solve. Qed.

Lemma keepsTypes_checkPrimaryKeyColumns m names : keepsTypes (checkPrimaryKeyColumns m names).
Proof. induction names as [|n names IH]; simpl; pass_solve. Qed.

Lemma logger_checkConstraintColumns kind m columns names :
  logger (checkConstraintColumns kind m columns names).
Proof. induction names as [|n names IH]; simpl; pass_solve. Qed.

Lemma keepsTypes_checkConstraintColumns kind m columns names :
  keepsTypes (checkConstraintColumns kind m columns names).
Proof. induction names as [|n names IH]; simpl; pass_solve. Qed.

#[export] Hint Resolve logger_checkDuplicateFieldsFrom keepsTypes_checkDuplicateFieldsFrom
  logger_checkPrimaryKeyColumns keepsTypes_checkPrimaryKeyColumns
  logger_checkConstraintColumns keepsTypes_checkConstraintColumns : pass.

Lemma logger_checkIndexesFrom l seen m : logger (checkIndexesFrom seen m l).
Proof. revert seen. induction l as [|f l IH]; intros seen; simpl; pass_solve. Qed.

Lemma keepsTypes_checkIndexesFrom l seen m : keepsTypes (checkIndexesFrom seen m l).
Proof. revert seen. induction l as [|f l IH]; intros seen; simpl; pass_solve. Qed.

Lemma logger_checkUniquesFrom l seen m : logger (checkUniquesFrom seen m l).
Proof. revert seen. induction l as [|f l IH]; intros seen; simpl; pass_solve. Qed.

Lemma keepsTypes_checkUniquesFrom l seen m : keepsTypes (checkUniquesFrom seen m l).
Proof. revert seen. induction l as [|f l IH]; intros seen; simpl; pass_solve. Qed.

Lemma logger_checkForeignKey s m f : logger (checkForeignKey s m f).
Proof. unfold checkForeignKey. pass_solve. Qed.

Lemma keepsTypes_checkForeignKey s m f : keepsTypes (checkForeignKey s m f).
Proof. unfold checkForeignKey. pass_solve. Qed.

#[export] Hint Resolve logger_checkIndexesFrom keepsTypes_checkIndexesFrom
  logger_checkUniquesFrom keepsTypes_checkUniquesFrom
  logger_checkForeignKey keepsTypes_checkForeignKey : pass.

Lemma logger_checkForeignKeysFrom s m l : logger (checkForeignKeysFrom s m l).
Proof. induction l as [|f l IH]; simpl; pass_solve. Qed.

Lemma keepsTypes_checkForeignKeysFrom s m l : keepsTypes (checkForeignKeysFrom s m l).
Proof. induction l as [|f l IH]; simpl; pass_solve. Qed.

#[export] Hint Resolve logger_checkForeignKeysFrom keepsTypes_checkForeignKeysFrom : pass.

Lemma logger_checkModel s m : logger (checkModel s m).
Proof.
  unfold checkModel, checkDuplicateFields, checkPrimaryKey, checkIndexes, checkUniques,
    checkForeignKeys. pass_solve.
Qed.

Lemma keepsTypes_checkModel s m : keepsTypes (checkModel s m).
Proof.
  unfold checkModel, checkDuplicateFields, checkPrimaryKey, checkIndexes, checkUniques,
    checkForeignKeys. pass_solve.
Qed.

#[export] Hint Resolve logger_checkModel keepsTypes_checkModel : pass.

Lemma logger_checkModels keys s : logger (checkModels s keys).
Proof. revert s. induction keys as [|k keys IH]; intros s; simpl; pass_solve. Qed.

Lemma keepsTypes_checkModels keys s : keepsTypes (checkModels s keys).
Proof. revert s. induction keys as [|k keys IH]; intros s; simpl; pass_solve. Qed.

Lemma logger_registerTypes types s : logger (registerTypes s types).
Proof. revert s. induction types as [|t types IH]; intros s; simpl; pass_solve. Qed.

Lemma logger_resolveRef s tname name context : logger (resolveRef s tname name context).
Proof. unfold resolveRef. pass_solve. Qed.

#[export] Hint Resolve logger_checkModels keepsTypes_checkModels logger_registerTypes
  logger_resolveRef : pass.

Section SchemaPass.

Variable CalculateRelationships : SchemaT -> SchemaT.

Variable fieldContext : string -> string.

Lemma logger_resolveItems items s tname : logger (resolveItems fieldContext s tname items).
Proof. induction items as [|[] items IH]; simpl; pass_solve. Qed.

Lemma logger_resolveTypes s t : logger (resolveTypes fieldContext s t).
Proof. unfold resolveTypes. pass_solve. apply logger_resolveItems. Qed.

Lemma logger_resolveAllTypes types s : logger (resolveAllTypes fieldContext s types).
Proof.
  revert s. induction types as [|t types IH]; intros s; simpl; pass_solve.
  apply logger_resolveTypes.
Qed.

Lemma logger_registerModels fuel models s : logger (registerModels fuel s models).
Proof. revert s. induction models as [|m models IH]; intros s; simpl; pass_solve. Qed.

Lemma logger_registerAll fuel types models :
  logger (registerAll fieldContext fuel types models).
Proof.
  unfold registerAll. pass_solve.
  - apply logger_resolveAllTypes.
  - apply logger_registerModels.
Qed.

Lemma logger_buildSchema fuel rangeKeys types models :
  logger (buildSchema fieldContext fuel rangeKeys types models).
Proof. unfold buildSchema. pass_solve. apply logger_registerAll. Qed.

(** [registerAll] starts by resetting [typesByName]: the table a
    previous run left behind is never read, and the diagnostics it left
    are carried along. *)
Lemma registerAll_fresh fuel types models g :
  registerAll fieldContext fuel types models g =
  shift (validationErrors g) (registerAll fieldContext fuel types models (mkGlobals [] ∅)).
Proof.
  rewrite <- logger_registerAll. unfold withErrors; simpl. by rewrite app_nil_r.
Qed.

End SchemaPass.

(** ** The aggregate error *)

Lemma append_cons a (s1 s2 : string) : String a s1 +:+ s2 = String a (s1 +:+ s2).
Proof. done. Qed.

Lemma append_assoc (s1 s2 s3 : string) : s1 +:+ s2 +:+ s3 = (s1 +:+ s2) +:+ s3.
Proof. induction s1 as [|a s1 IH]; [done|]. rewrite !append_cons. by rewrite IH. Qed.

Lemma append_nil_r (s : string) : s +:+ "" = s.
Proof. induction s as [|a s IH]; [done|]. rewrite append_cons. by rewrite IH. Qed.

Lemma diagnosticLines_app (l1 l2 : list string) :
  diagnosticLines (l1 ++ l2) = diagnosticLines l1 +:+ diagnosticLines l2.
Proof.
  induction l1 as [|e l1 IH]; simpl; [done|].
  by rewrite IH, !append_assoc.
Qed.

Lemma builder_lines (errs : list string) (b : string) :
  fold_left (fun b e => b +:+ e +:+ newline) errs b = b +:+ diagnosticLines errs.
Proof.
  revert b. induction errs as [|e errs IH]; intros b; simpl.
  - by rewrite append_nil_r.
  - by rewrite IH, !append_assoc.
Qed.

Lemma errorReport_lines (errs : list string) :
  errorReport errs = reportHeader (length errs) +:+ diagnosticLines errs.
Proof. unfold errorReport. by rewrite builder_lines. Qed.

Section SchemaResult.

Variable CalculateRelationships : SchemaT -> SchemaT.

Variable fieldContext : string -> string.

Lemma finish_verdict s g :
  finish CalculateRelationships s g = Done (verdict CalculateRelationships s (validationErrors g), g).
Proof.
  unfold finish, bind, getValidationErrors, verdict.
  destruct (validationErrors g) as [|e errs] eqn:E; simpl; [done|].
  by rewrite errorReport_lines.
Qed.

Lemma Schema_build fuel rangeKeys types models g :
  Schema CalculateRelationships fieldContext fuel rangeKeys types models g =
  match buildSchema fieldContext fuel rangeKeys types models g with
  | Done (s, g') => Done (verdict CalculateRelationships s (validationErrors g'), g')
  | Panic msg => Panic msg
  | OutOfFuel => OutOfFuel
  end.
Proof.
  unfold Schema, bind.
  destruct (buildSchema _ _ _ _ _ _) as [[s g']| |]; [|done|done].
  apply finish_verdict.
Qed.

Lemma Schema_Done_inv fuel rangeKeys types models g r g' :
  Schema CalculateRelationships fieldContext fuel rangeKeys types models g = Done (r, g') ->
  exists s new,
    buildSchema fieldContext fuel rangeKeys types models g = Done (s, g') /\
    validationErrors g' = validationErrors g ++ new /\
    r = verdict CalculateRelationships s (validationErrors g').
Proof.
  rewrite Schema_build.
  destruct (buildSchema _ _ _ _ _ _) as [[s g1]| |] eqn:E; [|done|done].
  intros [= <- <-]. destruct (logger_extends _ _ _ _ (logger_buildSchema _ _ _ _ _) E) as [new Hn].
  by exists s, new.
Qed.


(** C10.  The diagnostic list survives from one call of [Schema] to the
    next: the list after the second call starts with the whole list left
    by the first, the header of the second report counts those entries
    too, and once a call has failed every later call fails, whatever it
    is given. *)
Theorem diagnostics_accumulate fuel rangeKeys types models
    fuel' rangeKeys' types' models' g0 r1 g1 r2 g2 :
  Schema CalculateRelationships fieldContext fuel rangeKeys types models g0 = Done (r1, g1) ->
  Schema CalculateRelationships fieldContext fuel' rangeKeys' types' models' g1 = Done (r2, g2) ->
  exists new,
    validationErrors g2 = validationErrors g1 ++ new /\
    (validationErrors g1 <> [] ->
     r2 = (None,
           Some (fmt_d (length (validationErrors g1) + length new) +:+ " errors found:"
                 +:+ newline +:+ diagnosticLines (validationErrors g1)
                 +:+ diagnosticLines new))) /\
    (fst r1 = None -> validationErrors g1 <> [] /\ fst r2 = None /\ snd r2 <> None).
Proof.
  intros H1 H2.
  destruct (Schema_Done_inv _ _ _ _ _ _ _ H1) as (s1 & new1 & _ & _ & ->).
  destruct (Schema_Done_inv _ _ _ _ _ _ _ H2) as (s2 & new & _ & Hn & ->).
  exists new. split; [done|].
  assert (validationErrors g1 <> [] ->
          verdict CalculateRelationships s2 (validationErrors g2) =
          (None, Some (reportHeader (length (validationErrors g1) + length new)
                       +:+ diagnosticLines (validationErrors g1) +:+ diagnosticLines new)))
    as Hfail.
  { intros Hne. rewrite Hn. unfold verdict.
    destruct (validationErrors g1 ++ new) as [|e l] eqn:E.
    - by apply app_eq_nil in E as [? _].
    - by rewrite <- E, length_app, diagnosticLines_app. }
  split.
  - intros Hne. rewrite (Hfail Hne). unfold reportHeader. by rewrite !append_assoc.
  - unfold verdict at 1. destruct (validationErrors g1) eqn:E; [done|].
    intros _. split; [done|]. by rewrite Hfail.
Qed.

End SchemaResult.

(** ** The checks as writers of diagnostics *)

Lemma record_nil g : record [] g = g.
Proof. destruct g. unfold record; simpl. by rewrite app_nil_r. Qed.

Lemma record_record e1 e2 g : record e2 (record e1 g) = record (e1 ++ e2) g.
Proof. unfold record; simpl. by rewrite app_assoc. Qed.

Lemma writer_intro {A} (c : M A) (w : W A) : (forall g, c g = replay w g) -> writer c.
Proof.
  intros H g. unfold runLog. rewrite !H.
  destruct w as [[a e]| |]; simpl; done.
Qed.

Lemma runLog_intro {A} (c : M A) (w : W A) : (forall g, c g = replay w g) -> runLog c = w.
Proof.
  intros H. unfold runLog. rewrite H. destruct w as [[a e]| |]; simpl; done.
Qed.

Lemma replay_wbind {A B} (w : W A) (k : A -> W B) g :
  replay (wbind w k) g = bind (replay w) (fun a => replay (k a)) g.
Proof.
  unfold bind. destruct w as [[a e]| |]; simpl; [|done|done].
  destruct (k a) as [[b e']| |]; simpl; [|done|done].
  by rewrite record_record.
Qed.

Lemma bind_writer_eq {A B} (c : M A) (k : A -> M B) g :
  writer c -> (forall a, writer (k a)) ->
  bind c k g = replay (wbind (runLog c) (fun a => runLog (k a))) g.
Proof.
  intros Hc Hk. rewrite replay_wbind. unfold bind. rewrite Hc.
  destruct (replay (runLog c) g) as [[a g']| |]; [|done|done]. apply Hk.
Qed.

Lemma writer_bind {A B} (c : M A) (k : A -> M B) :
  writer c -> (forall a, writer (k a)) -> writer (bind c k).
Proof. intros Hc Hk. eapply writer_intro. intros g. by apply bind_writer_eq. Qed.

Lemma runLog_bind {A B} (c : M A) (k : A -> M B) :
  writer c -> (forall a, writer (k a)) ->
  runLog (bind c k) = wbind (runLog c) (fun a => runLog (k a)).
Proof. intros Hc Hk. apply runLog_intro. intros g. by apply bind_writer_eq. Qed.

Lemma writer_ret {A} (a : A) : writer (ret a).
Proof. apply (writer_intro _ (Done (a, []))). intros g. simpl. by rewrite record_nil. Qed.

Lemma writer_panic {A} msg : writer (@panic A msg).
Proof. by apply (writer_intro _ (Panic msg)). Qed.

Lemma writer_addError msg : writer (addError msg).
Proof. by apply (writer_intro _ (Done (tt, [msg]))). Qed.

#[export] Hint Resolve writer_ret writer_panic writer_addError : pass.

Ltac writer_step :=
  lazymatch goal with
  | |- writer (bind _ _) => apply writer_bind; [|intros ?]
  | |- writer (match ?x with _ => _ end) => destruct x
  | |- writer (if ?x then _ else _) => destruct x
  | |- _ => solve [eauto with pass]
  end.

Ltac writer_solve := repeat writer_step.

Lemma writer_checkDuplicateFieldsFrom fields seen name :
  writer (checkDuplicateFieldsFrom seen name fields).
Proof. revert seen. induction fields as [|f fields IH]; intros seen; simpl; writer_solve. Qed.

Lemma writer_checkPrimaryKeyColumns m names : writer (checkPrimaryKeyColumns m names).
Proof. induction names as [|n names IH]; simpl; writer_solve. Qed.

Lemma writer_checkConstraintColumns kind m columns names :
  writer (checkConstraintColumns kind m columns names).
Proof. induction names as [|n names IH]; simpl; writer_solve. Qed.

#[export] Hint Resolve writer_checkDuplicateFieldsFrom writer_checkPrimaryKeyColumns
  writer_checkConstraintColumns : pass.

Lemma writer_checkIndexesFrom l seen m : writer (checkIndexesFrom seen m l).
Proof. revert seen. induction l as [|f l IH]; intros seen; simpl; writer_solve. Qed.

Lemma writer_checkUniquesFrom l seen m : writer (checkUniquesFrom seen m l).
Proof. revert seen. induction l as [|f l IH]; intros seen; simpl; writer_solve. Qed.

Lemma writer_checkForeignKey s m f : writer (checkForeignKey s m f).
Proof. unfold checkForeignKey. writer_solve. Qed.

#[export] Hint Resolve writer_checkIndexesFrom writer_checkUniquesFrom
  writer_checkForeignKey : pass.

Lemma writer_checkForeignKeysFrom s m l : writer (checkForeignKeysFrom s m l).
Proof. induction l as [|f l IH]; simpl; writer_solve. Qed.

#[export] Hint Resolve writer_checkForeignKeysFrom : pass.

Lemma writer_checkDuplicateFields s m : writer (checkDuplicateFields s m).
Proof. unfold checkDuplicateFields. writer_solve. Qed.

Lemma writer_checkPrimaryKey s m : writer (checkPrimaryKey s m).
Proof. unfold checkPrimaryKey. writer_solve. Qed.

Lemma writer_checkIndexes s m : writer (checkIndexes s m).
Proof. unfold checkIndexes. writer_solve. Qed.

Lemma writer_checkUniques s m : writer (checkUniques s m).
Proof. unfold checkUniques. writer_solve. Qed.

Lemma writer_checkForeignKeys s m : writer (checkForeignKeys s m).
Proof. unfold checkForeignKeys. writer_solve. Qed.

#[export] Hint Resolve writer_checkDuplicateFields writer_checkPrimaryKey writer_checkIndexes
  writer_checkUniques writer_checkForeignKeys : pass.

Lemma writer_checkModel s m : writer (checkModel s m).
Proof. unfold checkModel. writer_solve. Qed.

#[export] Hint Resolve writer_checkModel : pass.

Lemma writer_checkModels keys s : writer (checkModels s keys).
Proof. revert s. induction keys as [|k keys IH]; intros s; simpl; writer_solve. Qed.

#[export] Hint Resolve writer_checkModels : pass.

Lemma bind_Done_inv {A B} (c : M A) (k : A -> M B) g b g' :
  bind c k g = Done (b, g') ->
  exists a g1, c g = Done (a, g1) /\ k a g1 = Done (b, g').
Proof.
  unfold bind. destruct (c g) as [[a g1]| |]; [|done|done]. intros H. by exists a, g1.
Qed.

Lemma wbind_Done_inv {A B} (w : W A) (k : A -> W B) b e :
  wbind w k = Done (b, e) ->
  exists a e1 e2, w = Done (a, e1) /\ k a = Done (b, e2) /\ e = e1 ++ e2.
Proof.
  unfold wbind. destruct w as [[a e1]| |]; [|done|done].
  destruct (k a) as [[b' e2]| |] eqn:E; [|done|done].
  intros [= <- <-]. by exists a, e1, e2.
Qed.

Lemma bind_ext {A B} (c c' : M A) (k k' : A -> M B) g :
  (forall g, c g = c' g) -> (forall a g, k a g = k' a g) -> bind c k g = bind c' k' g.
Proof.
  intros Hc Hk. unfold bind. rewrite Hc. destruct (c' g) as [[a g1]| |]; [|done|done].
  apply Hk.
Qed.

Lemma runLog_ext {A} (c c' : M A) : (forall g, c g = c' g) -> runLog c = runLog c'.
Proof. intros H. unfold runLog. by rewrite H. Qed.

(** *** What the checks leave untouched *)

Lemma checkModel_sameButConstraints s m g m' g' :
  checkModel s m g = Done (m', g') -> sameButConstraints m m'.
Proof.
  unfold checkModel, checkIndexes, checkUniques, checkForeignKeys. intros H.
  apply bind_Done_inv in H as (? & ? & _ & H).
  apply bind_Done_inv in H as (? & ? & _ & H).
  apply bind_Done_inv in H as (m1 & ? & Hi & H).
  apply bind_Done_inv in H as (m2 & ? & Hu & H).
  apply bind_Done_inv in Hi as (? & ? & _ & [= <- <-]).
  apply bind_Done_inv in Hu as (? & ? & _ & [= <- <-]).
  apply bind_Done_inv in H as (? & ? & _ & [= <- <-]).
  done.
Qed.

Lemma checkModel_checked s m g : checkModel s m g = replay (checked s m) g.
Proof. apply writer_checkModel. Qed.

Lemma checked_sameButConstraints s m m' e :
  checked s m = Done (m', e) -> sameButConstraints m m'.
Proof.
  intros H. pose proof (checkModel_checked s m (mkGlobals [] ∅)) as E.
  rewrite H in E. by apply checkModel_sameButConstraints in E.
Qed.

Lemma checkForeignKey_pkView s s' m f g :
  pkView s = pkView s' -> checkForeignKey s m f g = checkForeignKey s' m f g.
Proof.
  intros Hv. unfold checkForeignKey.
  assert (Model_PrimaryKey <$> Models s !! ForeignKey_ForeignModel f
          = Model_PrimaryKey <$> Models s' !! ForeignKey_ForeignModel f) as E.
  { unfold pkView in Hv. by rewrite <- !lookup_fmap, Hv. }
  apply bind_ext; [done|]. intros _ g1. simpl in *.
  destruct (Models s !! ForeignKey_ForeignModel f) as [m2|],
    (Models s' !! ForeignKey_ForeignModel f) as [m2'|]; simpl in E; try done.
  injection E as ->. done.
Qed.

Lemma checkForeignKeysFrom_pkView s s' m l g :
  pkView s = pkView s' -> checkForeignKeysFrom s m l g = checkForeignKeysFrom s' m l g.
Proof.
  intros Hv. revert g. induction l as [|f l IH]; intros g; simpl; [done|].
  apply bind_ext; [intros; by apply checkForeignKey_pkView|].
  intros f' g1. apply bind_ext; [done|done].
Qed.

Lemma checkModel_pkView s s' m g :
  pkView s = pkView s' -> checkModel s m g = checkModel s' m g.
Proof.
  intros Hv. unfold checkModel.
  apply bind_ext; [done|intros _ g1].
  apply bind_ext; [done|intros _ g2].
  apply bind_ext; [done|intros m1 g3].
  apply bind_ext; [done|intros m2 g4].
  unfold checkForeignKeys. apply bind_ext; [|done].
  intros g5. by apply checkForeignKeysFrom_pkView.
Qed.

Lemma checked_pkView s s' m : pkView s = pkView s' -> checked s m = checked s' m.
Proof. intros Hv. apply runLog_ext. intros g. by apply checkModel_pkView. Qed.

Lemma pkView_checked s k m m' :
  Models s !! k = Some m -> sameButConstraints m m' ->
  pkView (setModels s (<[k := m']> (Models s))) = pkView s.
Proof.
  intros Hk (_ & _ & _ & Hpk). unfold pkView; simpl.
  rewrite fmap_insert, Hpk. apply insert_id. by rewrite lookup_fmap, Hk.
Qed.

(** *** The order of the visit *)

Lemma runLog_checkModels_cons s k rest :
  runLog (checkModels s (k :: rest)) =
  match Models s !! k with
  | None => runLog (checkModels s rest)
  | Some m =>
      wbind (checked s m)
        (fun m' => runLog (checkModels (setModels s (<[k := m']> (Models s))) rest))
  end.
Proof.
  simpl. destruct (Models s !! k) as [m|]; [|done].
  apply runLog_bind; [apply writer_checkModel|intros; apply writer_checkModels].
Qed.

Lemma setModels_setModels s ms ms' : setModels (setModels s ms) ms' = setModels s ms'.
Proof. done. Qed.

Lemma checkModels_swap s k1 k2 rest s' e :
  k1 <> k2 ->
  runLog (checkModels s (k1 :: k2 :: rest)) = Done (s', e) ->
  exists e', runLog (checkModels s (k2 :: k1 :: rest)) = Done (s', e') /\ e ≡ₚ e'.
Proof.
  intros Hne H.
  rewrite runLog_checkModels_cons in H. rewrite (runLog_checkModels_cons s k2).
  destruct (Models s !! k1) as [m1|] eqn:E1, (Models s !! k2) as [m2|] eqn:E2.
  - apply wbind_Done_inv in H as (m1' & e1 & e23 & Hc1 & H & ->).
    pose proof (checked_sameButConstraints _ _ _ _ Hc1) as Hs1.
    rewrite runLog_checkModels_cons in H. cbn [Models setModels] in H.
    rewrite lookup_insert_ne, E2 in H by done.
    apply wbind_Done_inv in H as (m2' & e2 & e3 & Hc2 & H & ->).
    rewrite (checked_pkView _ s) in Hc2 by (by eapply pkView_checked).
    pose proof (checked_sameButConstraints _ _ _ _ Hc2) as Hs2.
    rewrite setModels_setModels in H.
    exists (e2 ++ e1 ++ e3). split.
    + rewrite Hc2. unfold wbind at 1.
      rewrite runLog_checkModels_cons. cbn [Models setModels].
      rewrite lookup_insert_ne, E1 by done.
      rewrite (checked_pkView _ s) by (by eapply pkView_checked).
      rewrite Hc1. unfold wbind. rewrite setModels_setModels.
      rewrite insert_insert_ne by done. by rewrite H.
    + rewrite !app_assoc. apply Permutation_app_tail, Permutation_app_comm.
  - exists e. split; [|done].
    rewrite runLog_checkModels_cons, E1.
    apply wbind_Done_inv in H as (m1' & e1 & e23 & Hc1 & H & ->).
    rewrite runLog_checkModels_cons in H. cbn [Models setModels] in H.
    rewrite lookup_insert_ne, E2 in H by done.
    rewrite Hc1. unfold wbind. by rewrite H.
  - exists e. split; [|done].
    rewrite runLog_checkModels_cons, E2 in H.
    unfold wbind. unfold wbind in H. destruct (checked s m2) as [[m2' e2]| |]; [|done|done].
    rewrite runLog_checkModels_cons. cbn [Models setModels].
    by rewrite lookup_insert_ne, E1.
  - exists e. split; [|done].
    rewrite runLog_checkModels_cons, E2 in H.
    by rewrite runLog_checkModels_cons, E1.
Qed.

(** Visiting the models in another order yields the same schema and the
    same diagnostics, in another order. *)
Lemma checkModels_perm keys1 keys2 :
  keys1 ≡ₚ keys2 -> NoDup keys1 ->
  forall s s' e,
    runLog (checkModels s keys1) = Done (s', e) ->
    exists e', runLog (checkModels s keys2) = Done (s', e') /\ e ≡ₚ e'.
Proof.
  induction 1 as [|k l l' Hp IH|k1 k2 l|l l' l'' Hp1 IH1 Hp2 IH2]; intros Hnd s s' e H.
  - by exists e.
  - apply NoDup_cons in Hnd as [_ Hnd].
    rewrite runLog_checkModels_cons in H. rewrite runLog_checkModels_cons.
    destruct (Models s !! k) as [m|]; [|by apply IH].
    apply wbind_Done_inv in H as (m' & e1 & e2 & Hc & H & ->).
    destruct (IH Hnd _ _ _ H) as (e2' & H' & Hp').
    exists (e1 ++ e2'). rewrite Hc. simpl. rewrite H'. split; [done|].
    by apply Permutation_app_head.
  - apply checkModels_swap; [|done].
    apply NoDup_cons in Hnd as [Hnd _]. intros ->. apply Hnd. by left.
  - destruct (IH1 Hnd _ _ _ H) as (e1 & H1 & Hp).
    assert (NoDup l') as Hnd' by (by rewrite <- Hp1).
    destruct (IH2 Hnd' _ _ _ H1) as (e2 & H2 & Hp').
    exists e2. split; [done|]. by etrans.
Qed.

(** ** Running [Schema] twice *)

Lemma canonicalKeys_NoDup ms : NoDup (canonicalKeys ms).
Proof. apply NoDup_fst_map_to_list. Qed.

Lemma elem_of_canonicalKeys ms k : k ∈ canonicalKeys ms <-> is_Some (ms !! k).
Proof.
  unfold canonicalKeys. rewrite list_elem_of_fmap. split.
  - intros ([k' m] & -> & H). apply elem_of_map_to_list in H. by exists m.
  - intros [m H]. exists (k, m). split; [done|]. by apply elem_of_map_to_list.
Qed.

Lemma canonicalKeys_visits : visitsEachKeyOnce canonicalKeys.
Proof. intros ms. split; [apply canonicalKeys_NoDup|apply elem_of_canonicalKeys]. Qed.

Lemma reverseKeys_visits : visitsEachKeyOnce Scenario.reverseKeys.
Proof.
  intros ms. unfold Scenario.reverseKeys. split.
  - rewrite reverse_Permutation. apply canonicalKeys_NoDup.
  - intros k. rewrite elem_of_reverse. apply elem_of_canonicalKeys.
Qed.

Lemma visits_perm rk1 rk2 ms :
  visitsEachKeyOnce rk1 -> visitsEachKeyOnce rk2 -> rk1 ms ≡ₚ rk2 ms.
Proof.
  intros H1 H2. destruct (H1 ms) as [Hn1 He1], (H2 ms) as [Hn2 He2].
  apply NoDup_Permutation; [done|done|]. intros k. by rewrite He1, He2.
Qed.

Section Idempotence.

Variable CalculateRelationships : SchemaT -> SchemaT.

Variable fieldContext : string -> string.

(** The schema built does not depend on the order of the visit nor on
    the diagnostics left by earlier runs; whether the run records a
    diagnostic does not either. *)
Lemma buildSchema_again fuel rk1 rk2 types models g s g' :
  visitsEachKeyOnce rk1 -> visitsEachKeyOnce rk2 ->
  buildSchema fieldContext fuel rk1 types models g = Done (s, g') ->
  forall h, exists new new',
    validationErrors g' = validationErrors g ++ new /\
    new ≡ₚ new' /\
    buildSchema fieldContext fuel rk2 types models h
    = Done (s, mkGlobals (validationErrors h ++ new') (typesByName g')).
Proof.
  intros Hrk1 Hrk2 H h. unfold buildSchema in *.
  apply bind_Done_inv in H as (s0 & ga & Hr & Hc).
  rewrite registerAll_fresh in Hr.
  destruct (registerAll fieldContext fuel types models (mkGlobals [] ∅))
    as [[s0' gR]| |] eqn:ER; simpl in Hr; [|done|done].
  injection Hr as -> <-.
  rewrite writer_checkModels in Hc.
  destruct (runLog (checkModels s0 (rk1 (Models s0)))) as [[s1 e1]| |] eqn:E1;
    simpl in Hc; [|done|done].
  injection Hc as -> <-.
  destruct (checkModels_perm _ _ (visits_perm rk1 rk2 (Models s0) Hrk1 Hrk2)
              (proj1 (Hrk1 _)) _ _ _ E1) as (e2 & E2 & Hp).
  exists (validationErrors gR ++ e1), (validationErrors gR ++ e2). split; [|split].
  - simpl. by rewrite app_assoc.
  - by apply Permutation_app_head.
  - unfold bind. rewrite registerAll_fresh, ER. simpl.
    rewrite writer_checkModels, E2. simpl. unfold record; simpl.
    by rewrite !app_assoc.
Qed.

(** Two aggregate errors over the same diagnostics differ as soon as one
    of them lists more: it has more lines. *)
Lemma lineFeeds_app s t : lineFeeds (s +:+ t) = lineFeeds s + lineFeeds t.
Proof.
  induction s as [|c s IH]; [done|]. rewrite append_cons. simpl. rewrite IH. lia.
Qed.

Lemma lineFeeds_fmt_d n : lineFeeds (fmt_d n) = 0.
Proof.
  unfold fmt_d.
  induction (Nat.to_uint n) as [|d IH|d IH|d IH|d IH|d IH|d IH|d IH|d IH|d IH|d IH];
    simpl; done.
Qed.

Lemma lineFeeds_reportHeader n : lineFeeds (reportHeader n) = 1.
Proof. unfold reportHeader. by rewrite !lineFeeds_app, lineFeeds_fmt_d. Qed.

Lemma lineFeeds_diagnosticLines errs : length errs <= lineFeeds (diagnosticLines errs).
Proof.
  induction errs as [|e errs IH]; simpl; [done|].
  rewrite !lineFeeds_app. simpl. lia.
Qed.

Lemma report_again (errs new : list string) :
  reportHeader (length (errs ++ new)) +:+ diagnosticLines (errs ++ new)
  = reportHeader (length errs) +:+ diagnosticLines errs ->
  new = [].
Proof.
  intros H. apply (f_equal lineFeeds) in H.
  rewrite diagnosticLines_app, !lineFeeds_app, !lineFeeds_reportHeader in H.
  pose proof (lineFeeds_diagnosticLines new) as Hn.
  destruct new; [done|]. cbn [length] in Hn. lia.
Qed.

Lemma verdict_again s errs new :
  verdict CalculateRelationships s (errs ++ new) = verdict CalculateRelationships s errs <->
  new = [].
Proof.
  split; [|intros ->; by rewrite app_nil_r].
  destruct errs as [|e errs].
  - unfold verdict. simpl. by destruct new.
  - intros H. apply (report_again (e :: errs)). unfold verdict in H. by injection H.
Qed.

(** C8, as the code has it.  A second call of [Schema] on the same
    declarations returns, and its schema is that of the first call: the
    same schema when the first call succeeded, none when it failed.  But
    the diagnostics of the first call are still recorded, and the second
    call records its own again, the same ones up to their order.  So the
    result of the second call is that of the first exactly when the first
    call recorded no diagnostic of its own, as after a success; after a
    call that failed on the declarations, the second call returns another
    aggregate error, which lists the diagnostics of both calls.  The two
    calls may visit the models in different orders. *)
Theorem Schema_idempotent fuel rk1 rk2 types models g0 r1 g1 :
  visitsEachKeyOnce rk1 -> visitsEachKeyOnce rk2 ->
  Schema CalculateRelationships fieldContext fuel rk1 types models g0 = Done (r1, g1) ->
  exists r2 g2 new new',
    Schema CalculateRelationships fieldContext fuel rk2 types models g1 = Done (r2, g2) /\
    validationErrors g1 = validationErrors g0 ++ new /\
    validationErrors g2 = validationErrors g1 ++ new' /\
    new ≡ₚ new' /\
    fst r2 = fst r1 /\
    (r2 = r1 <-> new = []) /\
    (is_Some (fst r1) -> r2 = r1) /\
    (fst r1 = None ->
     snd r2 = Some (fmt_d (length (validationErrors g1) + length new) +:+ " errors found:"
                    +:+ newline +:+ diagnosticLines (validationErrors g1)
                    +:+ diagnosticLines new')).
Proof.
  intros Hrk1 Hrk2 H.
  apply Schema_Done_inv in H as (s & _ & Hb & _ & ->).
  destruct (buildSchema_again _ _ _ _ _ _ _ _ Hrk1 Hrk2 Hb g1) as (new & new' & Hn & Hp & Hb2).
  assert (new' = [] <-> new = []) as Hnil.
  { split; intros ->; [by apply Permutation_nil_r in Hp|by apply Permutation_nil_l in Hp]. }
  assert (verdict CalculateRelationships s (validationErrors g1 ++ new')
          = verdict CalculateRelationships s (validationErrors g1) <-> new = []) as Hsame.
  { by rewrite verdict_again. }
  eexists _, _, new, new'. rewrite Schema_build, Hb2. split; [done|]. simpl.
  split; [done|]. split; [done|]. split; [done|]. split; [|split; [done|split]].
  - unfold verdict. destruct (validationErrors g1) as [|e errs] eqn:E; simpl; [|done].
    symmetry in Hn. apply app_eq_nil in Hn as [_ ->].
    apply Permutation_nil_l in Hp as <-. done.
  - intros Hsome. apply Hsame. unfold verdict in Hsome.
    destruct (validationErrors g1) as [|e errs] eqn:E; [|by destruct Hsome].
    symmetry in Hn. by apply app_eq_nil in Hn as [_ ->].
  - intros Hnone. unfold verdict in Hnone |- *.
    destruct (validationErrors g1) as [|e errs] eqn:E; [done|]. rewrite <- E. clear Hnone.
    destruct (validationErrors g1 ++ new') as [|e' errs'] eqn:E'.
    { apply app_eq_nil in E' as [E' _]. by rewrite E' in E. }
    rewrite <- E'. simpl. unfold reportHeader.
    by rewrite length_app, diagnosticLines_app, (Permutation_length Hp), !append_assoc.
Qed.

End Idempotence.

(** ** Checks that always return *)

Lemma emits_ret {A} (a : A) : emits (ret a) a [].
Proof. intros g. unfold ret. by rewrite record_nil. Qed.

Lemma emits_addError msg : emits (addError msg) tt [msg].
Proof. done. Qed.

Lemma emits_bind {A B} (c : M A) (k : A -> M B) a b n1 n2 :
  emits c a n1 -> emits (k a) b n2 -> emits (bind c k) b (n1 ++ n2).
Proof. intros Hc Hk g. unfold bind. by rewrite Hc, Hk, record_record. Qed.

Lemma emits_bind_quiet {A B} (c : M A) (k : A -> M B) a b n :
  emits c a n -> emits (k a) b [] -> emits (bind c k) b n.
Proof. intros Hc Hk. rewrite <- (app_nil_r n). by eapply emits_bind. Qed.

(** *** Fields and primary key *)

Lemma checkDuplicateFieldsFrom_emits fields seen name :
  emits (checkDuplicateFieldsFrom seen name fields) tt (fieldDiagnostics seen name fields).
Proof.
  revert seen. induction fields as [|f fields IH]; intros seen; simpl; [apply emits_ret|].
  eapply emits_bind; [|apply IH].
  destruct (decide _); [apply emits_addError|apply emits_ret].
Qed.

Lemma checkDuplicateFields_emits s m :
  emits (checkDuplicateFields s m) tt (fieldDiagnostics ∅ (Model_Name m) (Model_Fields m)).
Proof. apply checkDuplicateFieldsFrom_emits. Qed.

Lemma checkPrimaryKeyColumns_emits m names :
  emits (checkPrimaryKeyColumns m names) tt (flat_map (primaryKeyColumnDiagnostics m) names).
Proof.
  induction names as [|name names IH]; simpl; [apply emits_ret|].
  eapply emits_bind; [|apply IH].
  unfold primaryKeyColumnDiagnostics.
  destruct (FindColumn m name) as [c|]; [|apply emits_addError].
  destruct (Column_Nullable c); [apply emits_addError|apply emits_ret].
Qed.

Lemma checkPrimaryKey_emits s m : emits (checkPrimaryKey s m) tt (primaryKeyDiagnostics m).
Proof.
  unfold checkPrimaryKey, primaryKeyDiagnostics.
  destruct (Model_PrimaryKey m); [apply checkPrimaryKeyColumns_emits|apply emits_addError].
Qed.

(** *** Indexes and uniques *)

Lemma checkConstraintColumns_emits kind m columns names :
  emits (checkConstraintColumns kind m columns names) tt
    (flat_map (constraintColumnDiagnostics kind m columns) names).
Proof.
  induction names as [|name names IH]; simpl; [apply emits_ret|].
  eapply emits_bind; [|apply IH].
  unfold constraintColumnDiagnostics.
  destruct (FindColumn m name); [apply emits_ret|apply emits_addError].
Qed.

Lemma checkIndexesFrom_emits m l seen :
  emits (checkIndexesFrom seen m l) (map (namedIndex m) l) (indexDiagnostics seen m l).
Proof.
  revert seen. induction l as [|f l IH]; intros seen; simpl; [apply emits_ret|].
  eapply emits_bind.
  { destruct (decide _); [apply emits_addError|apply emits_ret]. }
  eapply emits_bind; [apply checkConstraintColumns_emits|].
  rewrite <- (app_nil_r (indexDiagnostics _ _ _)).
  eapply emits_bind; [apply IH|apply emits_ret].
Qed.

Lemma checkUniquesFrom_emits m l seen :
  emits (checkUniquesFrom seen m l) (map (namedUnique m) l) (uniqueDiagnostics seen m l).
Proof.
  revert seen. induction l as [|f l IH]; intros seen; simpl; [apply emits_ret|].
  eapply emits_bind.
  { destruct (decide _); [apply emits_addError|apply emits_ret]. }
  eapply emits_bind; [apply checkConstraintColumns_emits|].
  rewrite <- (app_nil_r (uniqueDiagnostics _ _ _)).
  eapply emits_bind; [apply IH|apply emits_ret].
Qed.

Lemma checkIndexes_emits s m :
  emits (checkIndexes s m) (setIndexes m (map (namedIndex m) (Model_Indexes m)))
    (indexDiagnostics ∅ m (Model_Indexes m)).
Proof.
  unfold checkIndexes. rewrite <- (app_nil_r (indexDiagnostics _ _ _)).
  eapply emits_bind; [apply checkIndexesFrom_emits|apply emits_ret].
Qed.

Lemma checkUniques_emits s m :
  emits (checkUniques s m) (setUniques m (map (namedUnique m) (Model_Uniques m)))
    (uniqueDiagnostics ∅ m (Model_Uniques m)).
Proof.
  unfold checkUniques. rewrite <- (app_nil_r (uniqueDiagnostics _ _ _)).
  eapply emits_bind; [apply checkUniquesFrom_emits|apply emits_ret].
Qed.


Lemma indexDiagnostics_seen m l seen f :
  In f l -> makeName (Model_Name m) (Index_Columns f) "idx" ∈ seen ->
  In (duplicateDiagnostic "index" m (Index_Columns f)) (indexDiagnostics seen m l).
Proof.
  intros Hf. revert seen. induction l as [|f' l IH]; intros seen Hseen; simpl; [done|].
  rewrite !in_app_iff. destruct Hf as [->|Hf].
  - left. rewrite decide_True by done. by left.
  - right; right. apply IH; [done|]. set_solver.
Qed.



Lemma uniqueDiagnostics_seen m l seen f :
  In f l -> makeName (Model_Name m) (Unique_Columns f) "key" ∈ seen ->
  In (duplicateDiagnostic "unique" m (Unique_Columns f)) (uniqueDiagnostics seen m l).
Proof.
  intros Hf. revert seen. induction l as [|f' l IH]; intros seen Hseen; simpl; [done|].
  rewrite !in_app_iff. destruct Hf as [->|Hf].
  - left. rewrite decide_True by done. by left.
  - right; right. apply IH; [done|]. set_solver.
Qed.


(** *** Constraint names *)





(** ** Fuel *)

(** More fuel does not change a result that was reached. *)
Lemma bind_fuel_mono {A B} (c c' : M A) (k k' : A -> M B) g :
  (c g <> OutOfFuel -> c' g = c g) ->
  (forall a g1, k a g1 <> OutOfFuel -> k' a g1 = k a g1) ->
  bind c k g <> OutOfFuel -> bind c' k' g = bind c k g.
Proof.
  unfold bind. intros Hc Hk H.
  destruct (c g) as [[a g1]| |] eqn:E; [| |done].
  - rewrite Hc by done. by apply Hk.
  - by rewrite Hc.
Qed.

Section FuelMono.

Variables rec rec' : Model -> list ModelItem -> string -> bool -> M Model.

Variable s : SchemaT.

Hypothesis rec_mono : forall m items prefix fn g,
  rec m items prefix fn g <> OutOfFuel -> rec' m items prefix fn g = rec m items prefix fn g.

Lemma makeModelItem_mono m i prefix fn g :
  makeModelItem rec s m i prefix fn g <> OutOfFuel ->
  makeModelItem rec' s m i prefix fn g = makeModelItem rec s m i prefix fn g.
Proof using rec_mono.
  destruct i; try done. simpl. unfold makeModelField.
  destruct (Types s !! typeName) as [t|]; [|done].
  apply bind_fuel_mono; [done|]. intros m1 g1.
  destruct t; [|done].
  apply bind_fuel_mono; [done|]. intros byName g2.
  destruct (te_info <$> byName !! typeName) as [[items| ]|]; [|done|done].
  apply bind_fuel_mono; [apply rec_mono|done].
Qed.

Lemma makeModelItems_mono items m prefix fn g :
  makeModelItems rec s m items prefix fn g <> OutOfFuel ->
  makeModelItems rec' s m items prefix fn g = makeModelItems rec s m items prefix fn g.
Proof using rec_mono.
  revert m g. induction items as [|i items IH]; intros m g; simpl; [done|].
  apply bind_fuel_mono; [apply makeModelItem_mono|]. intros; by apply IH.
Qed.

End FuelMono.

Lemma makeModel_S fuel s m items prefix fn g :
  makeModel fuel s m items prefix fn g <> OutOfFuel ->
  makeModel (S fuel) s m items prefix fn g = makeModel fuel s m items prefix fn g.
Proof.
  revert m items prefix fn g. induction fuel as [|fuel IH]; intros m items prefix fn g.
  - apply makeModelItems_mono. done.
  - change (makeModel (S (S fuel)) s m items prefix fn g)
      with (makeModelItems (makeModel (S fuel) s) s m items prefix fn g).
    change (makeModel (S fuel) s m items prefix fn g)
      with (makeModelItems (makeModel fuel s) s m items prefix fn g).
    apply makeModelItems_mono. apply IH.
Qed.

Lemma makeModel_fuel_mono fuel fuel' s m items prefix fn g :
  fuel <= fuel' ->
  makeModel fuel s m items prefix fn g <> OutOfFuel ->
  makeModel fuel' s m items prefix fn g = makeModel fuel s m items prefix fn g.
Proof.
  induction 1 as [|fuel' Hle IH]; [done|]. intros H.
  rewrite makeModel_S; rewrite IH; done.
Qed.

Section SchemaFuel.

Variable CalculateRelationships : SchemaT -> SchemaT.

Variable fieldContext : string -> string.

Lemma registerModels_fuel_mono fuel fuel' models s g :
  fuel <= fuel' ->
  registerModels fuel s models g <> OutOfFuel ->
  registerModels fuel' s models g = registerModels fuel s models g.
Proof.
  intros Hle. revert s g. induction models as [|m models IH]; intros s g; simpl; [done|].
  apply bind_fuel_mono; [done|]. intros _ g1.
  apply bind_fuel_mono; [by apply makeModel_fuel_mono|]. intros; by apply IH.
Qed.

Lemma registerAll_fuel_mono fuel fuel' types models g :
  fuel <= fuel' ->
  registerAll fieldContext fuel types models g <> OutOfFuel ->
  registerAll fieldContext fuel' types models g
  = registerAll fieldContext fuel types models g.
Proof.
  intros Hle. unfold registerAll.
  apply bind_fuel_mono; [done|]. intros _ g1.
  apply bind_fuel_mono; [done|]. intros s1 g2.
  apply bind_fuel_mono; [done|]. intros s2 g3.
  by apply registerModels_fuel_mono.
Qed.

Lemma buildSchema_fuel_mono fuel fuel' rangeKeys types models g :
  fuel <= fuel' ->
  buildSchema fieldContext fuel rangeKeys types models g <> OutOfFuel ->
  buildSchema fieldContext fuel' rangeKeys types models g
  = buildSchema fieldContext fuel rangeKeys types models g.
Proof.
  intros Hle. unfold buildSchema.
  apply bind_fuel_mono; [by apply registerAll_fuel_mono|done].
Qed.

Lemma Schema_fuel_mono fuel fuel' rangeKeys types models g :
  fuel <= fuel' ->
  Schema CalculateRelationships fieldContext fuel rangeKeys types models g <> OutOfFuel ->
  Schema CalculateRelationships fieldContext fuel' rangeKeys types models g
  = Schema CalculateRelationships fieldContext fuel rangeKeys types models g.
Proof.
  intros Hle. unfold Schema.
  apply bind_fuel_mono; [by apply buildSchema_fuel_mono|done].
Qed.

End SchemaFuel.

(** ** From one run to every run *)

Section AnyRun.

Variable CalculateRelationships : SchemaT -> SchemaT.

Variable fieldContext : string -> string.

(** A run from the empty state, in the canonical order, with some fuel
    decides every run with at least that fuel, from any state and in any
    order. *)
Lemma buildSchema_any fuel0 types models s new byName :
  buildSchema fieldContext fuel0 canonicalKeys types models (mkGlobals [] ∅)
  = Done (s, mkGlobals new byName) ->
  forall fuel rangeKeys g,
    fuel0 <= fuel -> visitsEachKeyOnce rangeKeys ->
    exists new',
      new ≡ₚ new' /\
      buildSchema fieldContext fuel rangeKeys types models g
      = Done (s, mkGlobals (validationErrors g ++ new') byName).
Proof.
  intros H fuel rangeKeys g Hle Hrk.
  destruct (buildSchema_again fieldContext _ _ rangeKeys _ _ _ _ _
              canonicalKeys_visits Hrk H g) as (n & n' & Hn & Hp & Hb).
  simpl in Hn, Hb. subst n. exists n'. split; [done|].
  rewrite <- Hb. apply buildSchema_fuel_mono; [done|]. by rewrite Hb.
Qed.

Lemma Schema_any fuel0 types models s new byName :
  buildSchema fieldContext fuel0 canonicalKeys types models (mkGlobals [] ∅)
  = Done (s, mkGlobals new byName) ->
  forall fuel rangeKeys g,
    fuel0 <= fuel -> visitsEachKeyOnce rangeKeys ->
    exists new',
      new ≡ₚ new' /\
      Schema CalculateRelationships fieldContext fuel rangeKeys types models g
      = Done (verdict CalculateRelationships s (validationErrors g ++ new'),
              mkGlobals (validationErrors g ++ new') byName).
Proof.
  intros H fuel rangeKeys g Hle Hrk.
  destruct (buildSchema_any _ _ _ _ _ _ H fuel rangeKeys g Hle Hrk) as (new' & Hp & Hb).
  exists new'. split; [done|]. by rewrite Schema_build, Hb.
Qed.

End AnyRun.

(** C7.  [checkPrimaryKey] always returns: on a model without primary key
    it records that the key is missing; for every column name of the key
    it records a diagnostic when the model has no such column and the
    nullable-column diagnostic when the column is nullable.  In Scenario B
    (model [Order], nullable column [total], primary key on [total]) the
    run records exactly that diagnostic and [Schema] fails with it. *)
Theorem checkPrimaryKey_diagnostics :
  (forall s m g,
     exists new,
       checkPrimaryKey s m g = Done (tt, record new g) /\
       (Model_PrimaryKey m = None ->
        new = ["Model '" +:+ Model_Name m +:+ "' is missing a primary key"]) /\
       (forall pk name,
          Model_PrimaryKey m = Some pk -> In name (PrimaryKey_Columns pk) ->
          (FindColumn m name = None ->
           In ("Model '" +:+ Model_Name m +:+ "' primary key references unknown column '"
               +:+ name +:+ "'") new) /\
          (forall c, FindColumn m name = Some c -> Column_Nullable c = true ->
           In ("Model '" +:+ Model_Name m +:+ "' primary key references nullable column '"
               +:+ name +:+ "'") new))) /\
  (forall CalculateRelationships fieldContext fuel rangeKeys,
     visitsEachKeyOnce rangeKeys ->
     exists byName,
       Schema CalculateRelationships fieldContext fuel rangeKeys
         Scenario.typesB Scenario.modelsB Scenario.fresh
       = Done ((None,
                Some ("1 errors found:" +:+ newline
                      +:+ "Model 'Order' primary key references nullable column 'total'"
                      +:+ newline)),
               mkGlobals ["Model 'Order' primary key references nullable column 'total'"]
                 byName)).
Proof.
  split.
  - intros s m g. exists (primaryKeyDiagnostics m).
    split; [apply checkPrimaryKey_emits|]. unfold primaryKeyDiagnostics. split.
    + by intros ->.
    + intros pk name -> Hin. split.
      * intros Hf. apply in_flat_map. exists name. split; [done|].
        unfold primaryKeyColumnDiagnostics. rewrite Hf. by left.
      * intros c Hf Hn. apply in_flat_map. exists name. split; [done|].
        unfold primaryKeyColumnDiagnostics. rewrite Hf, Hn. by left.
  - intros Calc ctx fuel rangeKeys Hrk.
    assert (exists s byName,
              buildSchema ctx 0 canonicalKeys Scenario.typesB Scenario.modelsB
                (mkGlobals [] ∅)
              = Done (s, mkGlobals
                           ["Model 'Order' primary key references nullable column 'total'"]
                           byName)) as (s & byName & E).
    { eexists _, _. vm_compute. reflexivity. }
    destruct (Schema_any Calc ctx _ _ _ _ _ _ E fuel rangeKeys Scenario.fresh
                ltac:(lia) Hrk) as (new' & Hp & ->).
    apply Permutation_singleton_l in Hp as <-. by exists byName.
Qed.

(** ** Foreign keys *)

Lemma makeName_fkey model column :
  makeName model [column] "fkey" = model +:+ "___" +:+ column +:+ "___" +:+ "fkey".
Proof. done. Qed.

(** The target model is not registered: a diagnostic, the foreign key is
    left unresolved. *)
Lemma checkForeignKey_unknown_model s m f :
  Models s !! ForeignKey_ForeignModel f = None ->
  emits (checkForeignKey s m f) (namedForeignKey m f)
    (foreignKeyColumnDiagnostics m f ++
     ["Model '" +:+ Model_Name m +:+ "' field '" +:+ ForeignKey_Column f
      +:+ "' has foreign key to non-existing model '" +:+ ForeignKey_ForeignModel f +:+ "'"]).
Proof.
  intros Hm. unfold checkForeignKey. eapply emits_bind.
  { unfold foreignKeyColumnDiagnostics. simpl.
    destruct (FindColumn m (ForeignKey_Column f)); [apply emits_ret|apply emits_addError]. }
  simpl. rewrite Hm.
  eapply emits_bind_quiet; [apply emits_addError|apply emits_ret].
Qed.

(** The target has a primary key of exactly one column: no diagnostic
    about the target, the foreign column is that column. *)
Lemma checkForeignKey_resolves s m f m2 c :
  Models s !! ForeignKey_ForeignModel f = Some m2 ->
  Model_PrimaryKey m2 = Some (mkPrimaryKey [c]) ->
  emits (checkForeignKey s m f) (setForeignColumn (namedForeignKey m f) c)
    (foreignKeyColumnDiagnostics m f).
Proof.
  intros Hm Hpk. unfold checkForeignKey.
  eapply emits_bind_quiet.
  { unfold foreignKeyColumnDiagnostics. simpl.
    destruct (FindColumn m (ForeignKey_Column f)); [apply emits_ret|apply emits_addError]. }
  simpl. rewrite Hm, Hpk. simpl.
  eapply emits_bind_quiet; apply emits_ret.
Qed.

(** The target has a primary key of several columns: a diagnostic is
    recorded. *)
Lemma checkForeignKey_multi_column s m f m2 c c' cs :
  Models s !! ForeignKey_ForeignModel f = Some m2 ->
  Model_PrimaryKey m2 = Some (mkPrimaryKey (c :: c' :: cs)) ->
  emits (checkForeignKey s m f) (setForeignColumn (namedForeignKey m f) c)
    (foreignKeyColumnDiagnostics m f ++
     ["Model '" +:+ Model_Name m +:+ "' field '" +:+ ForeignKey_Column f
      +:+ "' has foreign key to model with multi-column primary key '"
      +:+ ForeignKey_ForeignModel f +:+ "'"]).
Proof.
  intros Hm Hpk. unfold checkForeignKey. eapply emits_bind.
  { unfold foreignKeyColumnDiagnostics. simpl.
    destruct (FindColumn m (ForeignKey_Column f)); [apply emits_ret|apply emits_addError]. }
  simpl. rewrite Hm, Hpk. simpl.
  eapply emits_bind_quiet; [apply emits_addError|apply emits_ret].
Qed.

Lemma checkForeignKey_panics s m f m2 g :
  Models s !! ForeignKey_ForeignModel f = Some m2 ->
  (Model_PrimaryKey m2 = None ->
   checkForeignKey s m f g = Panic "invalid memory address or nil pointer dereference") /\
  (Model_PrimaryKey m2 = Some (mkPrimaryKey []) ->
   checkForeignKey s m f g = Panic "index out of range [0] with length 0").
Proof.
  intros Hm. unfold checkForeignKey, bind. simpl. rewrite Hm.
  split; intros ->; simpl;
    destruct (FindColumn m (ForeignKey_Column f)); done.
Qed.

(** C2.  What [checkForeignKeys] does with one foreign key, case by case.
    The key is named [<model>___<column>___fkey]; a source column the
    model does not have records a diagnostic; so does a target model that
    is not registered, and a target whose primary key has several columns;
    a target whose primary key has one column resolves the foreign column
    to it.  But a target without primary key, or with a primary key
    without columns, is not rejected: the check panics. *)
Theorem checkForeignKey_cases s m f g :
  let named :=
    setForeignKeyName f
      (Model_Name m +:+ "___" +:+ ForeignKey_Column f +:+ "___" +:+ "fkey") in
  let sourceDiagnostics :=
    match FindColumn m (ForeignKey_Column f) with
    | None =>
        ["Model '" +:+ Model_Name m +:+ "' has a foreign key on non-existing field '"
         +:+ ForeignKey_Column f +:+ "'"]
    | Some _ => []
    end in
  match Models s !! ForeignKey_ForeignModel f with
  | None =>
      checkForeignKey s m f g
      = Done (named,
              record (sourceDiagnostics ++
                      ["Model '" +:+ Model_Name m +:+ "' field '" +:+ ForeignKey_Column f
                       +:+ "' has foreign key to non-existing model '"
                       +:+ ForeignKey_ForeignModel f +:+ "'"]) g)
  | Some m2 =>
      match PrimaryKey_Columns <$> Model_PrimaryKey m2 with
      | None =>
          checkForeignKey s m f g
          = Panic "invalid memory address or nil pointer dereference"
      | Some [] =>
          checkForeignKey s m f g = Panic "index out of range [0] with length 0"
      | Some [c] =>
          checkForeignKey s m f g
          = Done (setForeignColumn named c, record sourceDiagnostics g)
      | Some (c :: _ :: _) =>
          checkForeignKey s m f g
          = Done (setForeignColumn named c,
                  record (sourceDiagnostics ++
                          ["Model '" +:+ Model_Name m +:+ "' field '" +:+ ForeignKey_Column f
                           +:+ "' has foreign key to model with multi-column primary key '"
                           +:+ ForeignKey_ForeignModel f +:+ "'"]) g)
      end
  end.
Proof.
  simpl. destruct (Models s !! ForeignKey_ForeignModel f) as [m2|] eqn:Em.
  - destruct (Model_PrimaryKey m2) as [[[|c [|c' cs]]]|] eqn:Ek; simpl.
    + by apply (checkForeignKey_panics s m f m2 g).
    + by apply (checkForeignKey_resolves s m f m2 c).
    + by apply (checkForeignKey_multi_column s m f m2 c c' cs).
    + by apply (checkForeignKey_panics s m f m2 g).
  - by apply checkForeignKey_unknown_model.
Qed.

Lemma checkForeignKey_cases_witness :
  checkForeignKey
    (mkSchema ∅ {["User" := newModel "User"]}) (newModel "Post")
    (mkForeignKey "" "Post" "author_id" "User" "") Scenario.fresh
  = Panic "invalid memory address or nil pointer dereference".
Proof.
  exact (checkForeignKey_cases
           (mkSchema ∅ {["User" := newModel "User"]}) (newModel "Post")
           (mkForeignKey "" "Post" "author_id" "User" "") Scenario.fresh).
Defined.

Section ForeignKeyRuns.

Variable CalculateRelationships : SchemaT -> SchemaT.

Variable fieldContext : string -> string.

Lemma buildSchema_fresh fuel rangeKeys types models g :
  buildSchema fieldContext fuel rangeKeys types models g =
  shift (validationErrors g)
    (buildSchema fieldContext fuel rangeKeys types models (mkGlobals [] ∅)).
Proof.
  rewrite <- logger_buildSchema. unfold withErrors; simpl. by rewrite app_nil_r.
Qed.

(** A panic of the run from the empty state is a panic of every run. *)
Lemma Schema_panic_any fuel0 rangeKeys types models msg :
  buildSchema fieldContext fuel0 rangeKeys types models (mkGlobals [] ∅) = Panic msg ->
  forall fuel g, fuel0 <= fuel ->
    Schema CalculateRelationships fieldContext fuel rangeKeys types models g = Panic msg.
Proof.
  intros H fuel g Hle.
  assert (buildSchema fieldContext fuel0 rangeKeys types models g = Panic msg) as H0.
  { by rewrite buildSchema_fresh, H. }
  rewrite Schema_build, (buildSchema_fuel_mono _ fuel0 fuel) by (done || by rewrite H0).
  by rewrite H0.
Qed.

(** C3.  A failed check can abort the run: with a foreign key to a
    registered model that has no primary key, or a primary key without
    columns, [Schema] panics instead of returning, in both orders in
    which the two models can be visited. *)
Theorem Schema_panics_on_keyless_target fuel g :
  Schema CalculateRelationships fieldContext fuel canonicalKeys
    Scenario.typesA Scenario.modelsNoKey g
  = Panic "invalid memory address or nil pointer dereference" /\
  Schema CalculateRelationships fieldContext fuel Scenario.reverseKeys
    Scenario.typesA Scenario.modelsNoKey g
  = Panic "invalid memory address or nil pointer dereference" /\
  Schema CalculateRelationships fieldContext fuel canonicalKeys
    Scenario.typesA Scenario.modelsEmptyKey g
  = Panic "index out of range [0] with length 0" /\
  Schema CalculateRelationships fieldContext fuel Scenario.reverseKeys
    Scenario.typesA Scenario.modelsEmptyKey g
  = Panic "index out of range [0] with length 0".
Proof.
  split; [|split; [|split]];
    (apply (Schema_panic_any 0); [vm_compute; reflexivity|lia]).
Qed.

(** Scenario A: the run succeeds and [Post.author_id] is resolved to
    [User.id]. *)
Lemma scenario_A fuel rangeKeys :
  visitsEachKeyOnce rangeKeys ->
  exists s byName post,
    Schema CalculateRelationships fieldContext fuel rangeKeys
      Scenario.typesA Scenario.modelsA Scenario.fresh
    = Done ((Some (CalculateRelationships s), None), mkGlobals [] byName) /\
    Models s !! "Post" = Some post /\
    Model_ForeignKeys post
    = [mkForeignKey "Post___author_id___fkey" "Post" "author_id" "User" "id"].
Proof.
  intros Hrk.
  assert (exists s byName,
            buildSchema fieldContext 0 canonicalKeys Scenario.typesA Scenario.modelsA
              (mkGlobals [] ∅) = Done (s, mkGlobals [] byName) /\
            (Model_ForeignKeys <$> Models s !! "Post")
            = Some [mkForeignKey "Post___author_id___fkey" "Post" "author_id" "User" "id"])
    as (s & byName & E & Hpost).
  { eexists _, _. split; vm_compute; reflexivity. }
  destruct (Schema_any CalculateRelationships fieldContext _ _ _ _ _ _ E fuel rangeKeys
              Scenario.fresh ltac:(lia) Hrk) as (new' & Hp & HS).
  apply Permutation_nil_l in Hp as <-.
  destruct (Models s !! "Post") as [post|] eqn:EP; [|done].
  injection Hpost as Hpost. exists s, byName, post.
  rewrite HS. split; [reflexivity|]. split; [exact EP|exact Hpost].
Qed.

End ForeignKeyRuns.

(** *** When the checks return *)

Lemma returns_bind_iff {A B} (c : M A) (k : A -> M B) g :
  returns (bind c k g) <-> exists a g1, c g = Done (a, g1) /\ returns (k a g1).
Proof.
  unfold bind. split.
  - intros [b H]. destruct (c g) as [[a g1]| |]; [|done|done].
    exists a, g1. split; [done|by exists b].
  - intros (a & g1 & -> & H). done.
Qed.

Lemma keylessTarget_named s m f : keylessTarget s (namedForeignKey m f) = keylessTarget s f.
Proof. done. Qed.

(** [checkForeignKey] returns exactly on the foreign keys whose target is
    not keyless; it leaves the target model of the foreign key as it is. *)
Lemma checkForeignKey_returns_iff s m f g :
  returns (checkForeignKey s m f g) <-> keylessTarget s f = false.
Proof.
  unfold checkForeignKey, keylessTarget. rewrite returns_bind_iff. simpl. split.
  - intros (a & g1 & _ & [f' H]).
    destruct (Models s !! ForeignKey_ForeignModel f) as [m2|]; [|done].
    destruct (Model_PrimaryKey m2) as [[[|c0 cs]]|]; try done.
  - intros H. destruct (FindColumn m (ForeignKey_Column f));
      (eexists _, _; split; [reflexivity|]);
      (destruct (Models s !! ForeignKey_ForeignModel f) as [m2|]; [|by eexists]);
      (destruct (Model_PrimaryKey m2) as [[[|c0 cs]]|]; try done);
      destruct cs; by eexists.
Qed.

Lemma checkForeignKey_target s m f g f' g' :
  checkForeignKey s m f g = Done (f', g') ->
  ForeignKey_ForeignModel f' = ForeignKey_ForeignModel f.
Proof.
  unfold checkForeignKey. intros H. apply bind_Done_inv in H as ([] & g1 & _ & H). simpl in H.
  destruct (Models s !! ForeignKey_ForeignModel f) as [m2|].
  - destruct (Model_PrimaryKey m2) as [pk|]; [|done].
    apply bind_Done_inv in H as ([] & g2 & _ & H).
    destruct (PrimaryKey_Columns pk); [done|]. by injection H as <- <-.
  - apply bind_Done_inv in H as ([] & g2 & _ & H). by injection H as <- <-.
Qed.

Lemma checkForeignKeysFrom_returns_iff s m l g :
  returns (checkForeignKeysFrom s m l g) <-> safeKeys s l = true.
Proof.
  revert g. induction l as [|f l IH]; intros g; simpl.
  - split; [done|by eexists].
  - rewrite returns_bind_iff, andb_true_iff, negb_true_iff. split.
    + intros (f' & g1 & Hf & Hl). apply returns_bind_iff in Hl as (l' & g2 & Hl & _).
      split.
      * apply (checkForeignKey_returns_iff s m f g). by eexists.
      * apply (IH g1). by eexists.
    + intros [Hf Hl]. apply (checkForeignKey_returns_iff s m f g) in Hf as [[f' g1] Hf].
      exists f', g1. split; [done|]. apply returns_bind_iff.
      apply (IH g1) in Hl as [[l' g2] Hl]. exists l', g2. split; [done|by eexists].
Qed.

Lemma checkForeignKeysFrom_targets s m l g l' g' :
  checkForeignKeysFrom s m l g = Done (l', g') ->
  ForeignKey_ForeignModel <$> l' = ForeignKey_ForeignModel <$> l.
Proof.
  revert g l'. induction l as [|f l IH]; intros g l'; simpl.
  - by intros [= <- <-].
  - intros H. apply bind_Done_inv in H as (f' & g1 & Hf & H).
    apply bind_Done_inv in H as (l1 & g2 & Hl & [= <- <-]).
    rewrite fmap_cons. f_equal; [by eapply checkForeignKey_target|by eapply IH].
Qed.

Lemma safeKeys_targets s l l' :
  ForeignKey_ForeignModel <$> l' = ForeignKey_ForeignModel <$> l ->
  safeKeys s l' = safeKeys s l.
Proof.
  revert l'. induction l as [|f l IH]; intros [|f' l'] H; try done.
  rewrite !fmap_cons in H. injection H as Hf Hl. simpl.
  assert (keylessTarget s f' = keylessTarget s f) as ->
    by (unfold keylessTarget; by rewrite Hf).
  f_equal. by apply IH.
Qed.

Lemma safeKeys_pkView s s' l : pkView s = pkView s' -> safeKeys s l = safeKeys s' l.
Proof.
  intros Hv. unfold safeKeys. induction l as [|f l IH]; [done|]. simpl. rewrite IH.
  f_equal. f_equal. unfold keylessTarget.
  assert (Model_PrimaryKey <$> Models s !! ForeignKey_ForeignModel f
          = Model_PrimaryKey <$> Models s' !! ForeignKey_ForeignModel f) as E.
  { unfold pkView in Hv. by rewrite <- !lookup_fmap, Hv. }
  destruct (Models s !! ForeignKey_ForeignModel f) as [m2|],
    (Models s' !! ForeignKey_ForeignModel f) as [m2'|]; simpl in E; try done.
  by injection E as ->.
Qed.

(** What [checkModel] amounts to: the first four checks always return,
    the last one runs on the model with its indexes and uniques named. *)
Lemma checkModel_unfold s m g :
  exists m2 new,
    Model_ForeignKeys m2 = Model_ForeignKeys m /\
    checkModel s m g = checkForeignKeys s m2 (record new g).
Proof.
  unfold checkModel, bind.
  rewrite (checkDuplicateFields_emits s m g), (checkPrimaryKey_emits s m),
    (checkIndexes_emits s m), (checkUniques_emits s).
  eexists _, _. split; [|by rewrite !record_record]. done.
Qed.

(** The checks of one model return exactly when none of its foreign keys
    has a keyless target. *)
Lemma checkModel_returns_iff s m g :
  returns (checkModel s m g) <-> safeKeys s (Model_ForeignKeys m) = true.
Proof.
  destruct (checkModel_unfold s m g) as (m2 & new & Hfk & ->).
  unfold checkForeignKeys. rewrite returns_bind_iff, <- Hfk.
  rewrite <- (checkForeignKeysFrom_returns_iff s m2 _ (record new g)). split.
  - intros (l & g1 & H & _). by eexists.
  - intros [[l g1] H]. exists l, g1. split; [done|by eexists].
Qed.

Lemma checkModel_targets s m g m' g' :
  checkModel s m g = Done (m', g') ->
  ForeignKey_ForeignModel <$> Model_ForeignKeys m'
  = ForeignKey_ForeignModel <$> Model_ForeignKeys m.
Proof.
  destruct (checkModel_unfold s m g) as (m2 & new & Hfk & ->).
  unfold checkForeignKeys. intros H. apply bind_Done_inv in H as (l & g1 & H & [= <- <-]).
  simpl. rewrite <- Hfk. by eapply checkForeignKeysFrom_targets.
Qed.

(** The visit returns exactly when no foreign key of a visited model has
    a keyless target. *)
Lemma checkModels_returns_iff keys s g :
  returns (checkModels s keys g) <->
  forall k m, k ∈ keys -> Models s !! k = Some m -> safeKeys s (Model_ForeignKeys m) = true.
Proof.
  revert s g. induction keys as [|k keys IH]; intros s g; simpl.
  - split; [|by eexists]. intros _ k m Hk. by apply elem_of_nil in Hk.
  - destruct (Models s !! k) as [m|] eqn:Ek.
    + rewrite returns_bind_iff. split.
      * intros (m' & g1 & Hm & Hrest) k' m0 Hk' Hm0.
        pose proof (checkModel_sameButConstraints _ _ _ _ _ Hm) as Hsame.
        pose proof (pkView_checked s k m m' Ek Hsame) as Hv.
        destruct (decide (k' = k)) as [->|Hne].
        { rewrite Ek in Hm0. injection Hm0 as <-.
          apply (checkModel_returns_iff s m g). by eexists. }
        apply elem_of_cons in Hk' as [?|Hk']; [done|].
        rewrite (safeKeys_pkView s _ _ (eq_sym Hv)).
        apply (proj1 (IH _ g1) Hrest k'); [done|]. simpl. by rewrite lookup_insert_ne.
      * intros H.
        assert (returns (checkModel s m g)) as [[m' g1] Hm].
        { apply checkModel_returns_iff, (H k); [by left|done]. }
        exists m', g1. split; [done|].
        pose proof (checkModel_sameButConstraints _ _ _ _ _ Hm) as Hsame.
        pose proof (pkView_checked s k m m' Ek Hsame) as Hv.
        apply IH. intros k' m0 Hk' Hm0. simpl in Hm0.
        rewrite (safeKeys_pkView _ s _ Hv).
        destruct (decide (k = k')) as [<-|Hne].
        { rewrite lookup_insert_eq in Hm0. injection Hm0 as <-.
          rewrite (safeKeys_targets s _ _ (checkModel_targets _ _ _ _ _ Hm)).
          apply (H k); [by left|done]. }
        rewrite lookup_insert_ne in Hm0 by done. apply (H k'); [by right|done].
    + rewrite IH. split.
      * intros H k' m0 Hk' Hm0. apply elem_of_cons in Hk' as [->|Hk'].
        { by rewrite Ek in Hm0. }
        by apply (H k').
      * intros H k' m0 Hk' Hm0. apply (H k'); [by right|done].
Qed.

Section WhenSchemaReturns.

Variable CalculateRelationships : SchemaT -> SchemaT.

Variable fieldContext : string -> string.

(** Once the models are flattened, [Schema] returns, with a schema or
    with the aggregate error, exactly when no foreign key of any model
    has a keyless target; in every other case it panics. *)
Lemma Schema_returns_iff fuel rangeKeys types models g s0 g0 :
  visitsEachKeyOnce rangeKeys ->
  registerAll fieldContext fuel types models g = Done (s0, g0) ->
  returns (Schema CalculateRelationships fieldContext fuel rangeKeys types models g) <->
  forall k m, Models s0 !! k = Some m -> safeKeys s0 (Model_ForeignKeys m) = true.
Proof.
  intros Hrk H0. rewrite Schema_build. unfold buildSchema, bind. rewrite H0.
  assert (returns (checkModels s0 (rangeKeys (Models s0)) g0) <->
          forall k m, Models s0 !! k = Some m -> safeKeys s0 (Model_ForeignKeys m) = true)
    as <-.
  { rewrite checkModels_returns_iff. split.
    - intros H k m Hm. apply (H k); [|done]. apply (proj2 (Hrk (Models s0))). by eexists.
    - intros H k m _. apply H. }
  split.
  - intros [r H]. destruct (checkModels _ _ _) as [[s1 g1]| |]; [by eexists|done|done].
  - intros [[s1 g1] ->]. by eexists.
Qed.

End WhenSchemaReturns.

(** ** Primary key declarations *)

Lemma lastChar_app (s t : string) c : lastChar t = Some c -> lastChar (s +:+ t) = Some c.
Proof.
  intros Ht. induction s as [|a s IH]; [done|].
  rewrite append_cons. simpl. by destruct (s +:+ t).
Qed.

Lemma multiplePrimaryKeys_not_quoted model : ~ quoted (multiplePrimaryKeys model).
Proof.
  unfold quoted, multiplePrimaryKeys.
  rewrite (lastChar_app _ _ "s"%char); [done|]. by apply lastChar_app.
Qed.

Lemma count_occ_quoted (new : list string) model :
  Forall quoted new -> count_occ string_dec new (multiplePrimaryKeys model) = 0.
Proof.
  induction 1 as [|x l Hx Hl IH]; [done|]. simpl.
  destruct (string_dec x (multiplePrimaryKeys model)) as [->|]; [|done].
  by apply multiplePrimaryKeys_not_quoted in Hx.
Qed.

Lemma makeTagsFrom_quoted flags res context g tags g' :
  makeTagsFrom res flags context g = Done (tags, g') ->
  exists new, validationErrors g' = validationErrors g ++ new /\ Forall quoted new.
Proof.
  revert res g. induction flags as [|[|key value] flags IH]; intros res g; simpl.
  - intros [= _ <-]. exists []. by rewrite app_nil_r.
  - apply IH.
  - intros H. apply bind_Done_inv in H as ([] & g1 & H1 & H).
    apply IH in H as (new & Hn & Hq).
    destruct (res !! key).
    + injection H1 as <-. simpl in Hn. rewrite <- app_assoc in Hn.
      eexists. split; [exact Hn|]. constructor; [|done].
      unfold quoted. do 3 apply lastChar_app. done.
    + injection H1 as <-. by exists new.
Qed.

Lemma keyKept_app pk keys1 keys2 :
  keyKept pk (keys1 ++ keys2) = keyKept (keyKept pk keys1) keys2.
Proof.
  unfold keyKept. destruct keys2 as [|k keys2 _] using rev_ind.
  - rewrite app_nil_r. simpl. by destruct (last keys1).
  - by rewrite app_assoc, !last_snoc.
Qed.

Lemma keysRefused_app pk keys1 keys2 :
  keysRefused pk (keys1 ++ keys2)
  = keysRefused pk keys1 + keysRefused (keyKept pk keys1) keys2.
Proof.
  unfold keysRefused, keyKept. rewrite length_app.
  destruct pk as [pk|].
  - by destruct (last keys1).
  - destruct keys1 as [|k keys1 _] using rev_ind; [done|].
    rewrite last_snoc, length_app. simpl. lia.
Qed.

Lemma keysOutcome_trans m g keys1 m1 g1 keys2 m2 g2 :
  keysOutcome m g keys1 m1 g1 -> keysOutcome m1 g1 keys2 m2 g2 ->
  keysOutcome m g (keys1 ++ keys2) m2 g2.
Proof.
  intros (Hn1 & Hk1 & new1 & He1 & Hc1) (Hn2 & Hk2 & new2 & He2 & Hc2).
  split; [congruence|]. split.
  - by rewrite keyKept_app, <- Hk1.
  - exists (new1 ++ new2). split.
    + by rewrite He2, He1, app_assoc.
    + rewrite count_occ_app, keysRefused_app, Hc1, <- Hk1, <- Hn1. by rewrite Hc2.
Qed.

Lemma keysOutcome_quiet m g m' g' new :
  Model_Name m' = Model_Name m -> Model_PrimaryKey m' = Model_PrimaryKey m ->
  validationErrors g' = validationErrors g ++ new -> Forall quoted new ->
  keysOutcome m g [] m' g'.
Proof.
  intros Hn Hk He Hq. split; [done|]. split; [done|].
  exists new. split; [done|]. rewrite count_occ_quoted by done.
  unfold keysRefused. by destruct (Model_PrimaryKey m).
Qed.

Lemma keysOutcome_same m g : keysOutcome m g [] m g.
Proof. apply (keysOutcome_quiet _ _ _ _ []); [done|done| |done]. by rewrite app_nil_r. Qed.

Section MakeModelKeys.

Variable rec : Model -> list ModelItem -> string -> bool -> M Model.

Variable recKeys : gmap string typeEntry -> list ModelItem -> string -> list (list string).

Variable s : SchemaT.

Hypothesis keepsTypes_rec : forall m items prefix fn, keepsTypes (rec m items prefix fn).

Hypothesis rec_keys : forall m items prefix fn g m' g',
  rec m items prefix fn g = Done (m', g') ->
  keysOutcome m g (recKeys (typesByName g) items prefix) m' g'.

Lemma makeModelItem_keys m i prefix fn g m' g' :
  makeModelItem rec s m i prefix fn g = Done (m', g') ->
  keysOutcome m g (keysOfItem (recKeys (typesByName g)) s (typesByName g) i prefix) m' g'.
Proof using keepsTypes_rec rec_keys.
  destruct i as [name typeName flags|names|names|names|columnName foreignModelName]; simpl.
  - unfold makeModelField. destruct (Types s !! typeName) as [t|] eqn:Et.
    + intros H. apply bind_Done_inv in H as (m1 & g1 & H1 & H).
      assert (keysOutcome m g [] m1 g1 /\ typesByName g1 = typesByName g) as [Ho Ht].
      { destruct (String.eqb prefix "").
        - apply bind_Done_inv in H1 as (tags & g0 & Htags & [= <- <-]).
          split; [|by eapply keepsTypes_makeTags].
          apply makeTagsFrom_quoted in Htags as (new & Hn & Hq).
          by apply (keysOutcome_quiet _ _ _ _ new).
        - injection H1 as <- <-. split; [apply keysOutcome_same|done]. }
      destruct t as [n fields|b].
      * apply bind_Done_inv in H as (byName & g2 & [= <- <-] & H). rewrite Ht in H.
        destruct (te_info <$> typesByName g !! typeName) as [[items| ]|]; [|done|done].
        apply bind_Done_inv in H as (m2 & g2 & H2 & H).
        apply rec_keys in H2. rewrite Ht in H2.
        apply (keysOutcome_trans _ _ [] _ _ _ _ _ Ho).
        rewrite <- (app_nil_r (recKeys _ _ _)).
        apply (keysOutcome_trans _ _ _ _ _ [] _ _ H2).
        destruct (isNullable flags); injection H as <- <-;
          [|apply keysOutcome_same].
        apply (keysOutcome_quiet _ _ _ _ []); [done|done| |done]. by rewrite app_nil_r.
      * injection H as <- <-.
        apply (keysOutcome_trans _ _ [] _ _ [] _ _ Ho).
        apply (keysOutcome_quiet _ _ _ _ []); [done|done| |done]. by rewrite app_nil_r.
    + intros H. apply bind_Done_inv in H as ([] & g1 & [= <-] & [= <- <-]).
      eapply keysOutcome_quiet; [done|done|done|].
      constructor; [|done]. unfold quoted. repeat apply lastChar_app. done.
  - intros H. apply bind_Done_inv in H as ([] & g1 & H1 & [= <- <-]).
    split; [done|]. split; [done|]. unfold keysRefused. simpl.
    destruct (Model_PrimaryKey m).
    + injection H1 as <-. exists [multiplePrimaryKeys (Model_Name m)]. split; [done|].
      simpl. by destruct (string_dec _ _).
    + injection H1 as <-. exists []. split; [|done]. by rewrite app_nil_r.
  - intros [= <- <-]. apply (keysOutcome_quiet _ _ _ _ []); [done|done| |done].
    by rewrite app_nil_r.
  - intros [= <- <-]. apply (keysOutcome_quiet _ _ _ _ []); [done|done| |done].
    by rewrite app_nil_r.
  - intros [= <- <-]. apply (keysOutcome_quiet _ _ _ _ []); [done|done| |done].
    by rewrite app_nil_r.
Qed.

Lemma makeModelItems_keys items m prefix fn g m' g' :
  makeModelItems rec s m items prefix fn g = Done (m', g') ->
  keysOutcome m g (keysOfItems (recKeys (typesByName g)) s (typesByName g) items prefix) m' g'.
Proof using keepsTypes_rec rec_keys.
  revert m g. induction items as [|i items IH]; intros m g; simpl.
  - intros [= <- <-]. apply keysOutcome_same.
  - intros H. apply bind_Done_inv in H as (m1 & g1 & H1 & H).
    pose proof (keepsTypes_makeModelItem rec s keepsTypes_rec _ _ _ _ _ _ _ H1) as Ht.
    apply makeModelItem_keys in H1. apply IH in H. rewrite Ht in H.
    by eapply keysOutcome_trans.
Qed.

End MakeModelKeys.

Lemma makeModel_keys fuel s m items prefix fn g m' g' :
  makeModel fuel s m items prefix fn g = Done (m', g') ->
  keysOutcome m g (keysDeclared fuel s (typesByName g) items prefix) m' g'.
Proof.
  revert m items prefix fn g m' g'. induction fuel as [|fuel IH]; intros m items prefix fn g m' g' H.
  - apply (makeModelItems_keys _ (fun _ _ _ => [])) in H; done.
  - apply (makeModelItems_keys _ (keysDeclared fuel s)) in H; [done| |done].
    intros; apply keepsTypes_makeModel.
Qed.

(** C4, as the code has it.  Every primary key declaration met while a
    model is flattened replaces the key the model holds, so the key kept
    is the last one declared; every declaration but the first records the
    multiple-primary-key diagnostic. *)
Theorem last_primary_key_kept fuel s name items g m' g' :
  makeModel fuel s (newModel name) items "" false g = Done (m', g') ->
  Model_PrimaryKey m'
  = mkPrimaryKey <$> last (keysDeclared fuel s (typesByName g) items "") /\
  exists new,
    validationErrors g' = validationErrors g ++ new /\
    count_occ string_dec new ("Model '" +:+ name +:+ "' has multiple primary key definitions")
    = length (keysDeclared fuel s (typesByName g) items "") - 1.
Proof.
  intros H. apply makeModel_keys in H as (_ & Hk & new & He & Hc). split.
  - rewrite Hk. unfold keyKept. simpl. by destruct (last _).
  - by exists new.
Qed.

Lemma last_primary_key_kept_witness :
  exists m' g',
    makeModel 0 NewSchema (newModel "M") [primaryKey ["a"]; primaryKey ["b"]] "" false
      Scenario.fresh = Done (m', g') /\
    Model_PrimaryKey m' = Some (mkPrimaryKey ["b"]) /\
    validationErrors g' = ["Model 'M' has multiple primary key definitions"].
Proof.
  eexists _, _. split; [reflexivity|].
  destruct (last_primary_key_kept 0 NewSchema "M" [primaryKey ["a"]; primaryKey ["b"]]
              Scenario.fresh _ _ eq_refl) as (Hk & new & He & Hc).
  split; [exact Hk|reflexivity].
Defined.

(** The claim of C4 fails: of two declarations the first is not kept. *)
Lemma first_primary_key_replaced :
  exists m' g',
    makeModel 0 NewSchema (newModel "M") [primaryKey ["a"]; primaryKey ["b"]] "" false
      Scenario.fresh = Done (m', g') /\
    Model_PrimaryKey m' <> Some (mkPrimaryKey (flattenNames ["a"] "")).
Proof. eexists _, _. split; [reflexivity|]. simpl. intros [=]. Qed.

(** ** Item lists piece by piece *)

Lemma bind_assoc {A B C} (c : M A) (k : A -> M B) (h : B -> M C) g :
  bind (bind c k) h g = bind c (fun a => bind (k a) h) g.
Proof. unfold bind. by destruct (c g) as [[a g1]| |]. Qed.

Lemma makeModelItems_app rec s l1 l2 m prefix fn g :
  makeModelItems rec s m (l1 ++ l2) prefix fn g
  = bind (makeModelItems rec s m l1 prefix fn)
      (fun m1 => makeModelItems rec s m1 l2 prefix fn) g.
Proof.
  revert m g. induction l1 as [|i l1 IH]; intros m g; simpl; [done|].
  rewrite bind_assoc. apply bind_ext; [done|]. intros m1 g1. apply IH.
Qed.

(** Flattening an item list is flattening its first part and then, from
    the model reached, the rest: what the theorems below say of a list
    from an arbitrary model holds of that list as a part of a longer one. *)
Lemma makeModel_app fuel s l1 l2 m prefix fn g :
  makeModel fuel s m (l1 ++ l2) prefix fn g
  = bind (makeModel fuel s m l1 prefix fn)
      (fun m1 => makeModel fuel s m1 l2 prefix fn) g.
Proof. destruct fuel; apply makeModelItems_app. Qed.

(** ** Flattening a struct-typed field *)

Lemma dottedPrefix_snoc path name :
  dottedPrefix (path ++ [name]) = dottedPrefix path +:+ name +:+ ".".
Proof.
  induction path as [|n path IH]; simpl.
  - by rewrite append_nil_r.
  - by rewrite IH, !append_assoc.
Qed.

Lemma undot_app (a b : string) : undot (a +:+ b) = undot a +:+ undot b.
Proof.
  induction a as [|c a IH]; [done|]. rewrite append_cons. simpl.
  destruct (Ascii.eqb c "."); by rewrite IH.
Qed.

Lemma undot_path path name :
  undot (dottedPrefix path +:+ name) = pathName (path ++ [name]).
Proof.
  unfold pathName, strings_Join. induction path as [|n path IH]; [done|].
  simpl dottedPrefix. rewrite <- !append_assoc, undot_app, (undot_app "."), IH.
  simpl. by destruct (map undot (path ++ [name])) eqn:E; [destruct path|].
Qed.

Lemma length_filter_split {A} (P : A -> bool) (l : list A) :
  length l = length (filter (fun x => P x = true) l) + length (filter (fun x => P x = false) l).
Proof.
  induction l as [|x l IH]; [done|]. rewrite !filter_cons.
  repeat case_decide; simpl; try lia; destruct (P x); done.
Qed.

Lemma length_members members :
  length members = leafCount members + presenceCount members.
Proof. apply length_filter_split. Qed.

Section MakeModelColumns.

Variable rec : Model -> list ModelItem -> string -> bool -> M Model.

Variable recMembers : gmap string typeEntry -> list ModelItem -> list string -> list flatMember.

Variable s : SchemaT.

Hypothesis keepsTypes_rec : forall m items prefix fn, keepsTypes (rec m items prefix fn).

Hypothesis rec_columns : forall m items path g m' g',
  rec m items (dottedPrefix path) true g = Done (m', g') ->
  Model_Columns m' = Model_Columns m
                     ++ map memberColumn (recMembers (typesByName g) items path).

Lemma makeModelItem_columns m i path g m' g' :
  makeModelItem rec s m i (dottedPrefix path) true g = Done (m', g') ->
  Model_Columns m' = Model_Columns m
    ++ map memberColumn (membersOfItem (recMembers (typesByName g)) s (typesByName g) i path).
Proof using keepsTypes_rec rec_columns.
  destruct i as [name typeName flags|names|names|names|columnName foreignModelName]; simpl;
    try (intros [= <- <-]; simpl; by rewrite app_nil_r).
  - unfold makeModelField. destruct (Types s !! typeName) as [t|] eqn:Et.
    + intros H. apply bind_Done_inv in H as (m1 & g1 & H1 & H).
      assert (Model_Columns m1 = Model_Columns m /\ typesByName g1 = typesByName g)
        as [Hc Ht].
      { destruct (String.eqb (dottedPrefix path) "").
        - apply bind_Done_inv in H1 as (tags & g0 & Htags & [= <- <-]).
          split; [done|]. by eapply keepsTypes_makeTags.
        - by injection H1 as <- <-. }
      destruct t as [n fields|b].
      * apply bind_Done_inv in H as (byName & g2 & [= <- <-] & H). rewrite Ht in H.
        destruct (te_info <$> typesByName g !! typeName) as [[items| ]|]; [|done|done].
        apply bind_Done_inv in H as (m2 & g2 & H2 & H).
        rewrite orb_true_r, <- dottedPrefix_snoc in H2.
        apply rec_columns in H2. rewrite Ht, Hc in H2.
        rewrite map_app, app_assoc, <- H2.
        destruct (isNullable flags); injection H as <- <-; simpl.
        -- unfold presenceColumn. by rewrite undot_path.
        -- by rewrite app_nil_r.
      * injection H as <- <-. simpl. rewrite Hc. unfold baseColumn.
        by rewrite undot_path, orb_true_r.
    + intros H. apply bind_Done_inv in H as ([] & g1 & _ & [= <- <-]).
      simpl. by rewrite app_nil_r.
  - intros H. apply bind_Done_inv in H as ([] & g1 & _ & [= <- <-]).
    simpl. by rewrite app_nil_r.
Qed.

Lemma makeModelItems_columns items m path g m' g' :
  makeModelItems rec s m items (dottedPrefix path) true g = Done (m', g') ->
  Model_Columns m' = Model_Columns m
    ++ map memberColumn (membersOfItems (recMembers (typesByName g)) s (typesByName g) items path).
Proof using keepsTypes_rec rec_columns.
  revert m g. induction items as [|i items IH]; intros m g; simpl.
  - intros [= <- <-]. by rewrite app_nil_r.
  - intros H. apply bind_Done_inv in H as (m1 & g1 & H1 & H).
    pose proof (keepsTypes_makeModelItem rec s keepsTypes_rec _ _ _ _ _ _ _ H1) as Ht.
    apply makeModelItem_columns in H1. apply IH in H. rewrite Ht in H.
    by rewrite H, H1, map_app, app_assoc.
Qed.

End MakeModelColumns.

Lemma makeModel_columns fuel s m items path g m' g' :
  makeModel fuel s m items (dottedPrefix path) true g = Done (m', g') ->
  Model_Columns m' = Model_Columns m
    ++ map memberColumn (structMembers fuel s (typesByName g) items path).
Proof.
  revert m items path g m' g'. induction fuel as [|fuel IH]; intros m items path g m' g' H.
  - apply (makeModelItems_columns _ (fun _ _ _ => [])) in H; done.
  - apply (makeModelItems_columns _ (structMembers fuel s)) in H; [done| |done].
    intros; apply keepsTypes_makeModel.
Qed.

(** C5, as the code has it.  A top-level field of nullable struct type
    yields one column per leaf member of the struct and one presence
    column per nullable struct-typed member nested in it, all of them
    nullable and named by their path joined with double underscores, then
    one presence column for the field itself, not nullable: [N + K + 1]
    columns for [N] leaves and [K] nested nullable structs, hence [N + 1]
    when no nullable struct is nested. *)
Theorem nullable_struct_field_columns fuel s m name typeName flags n fs sitems g m' g' :
  Types s !! typeName = Some (TStruct n fs) ->
  te_info <$> typesByName g !! typeName = Some (structType sitems) ->
  isNullable flags = true ->
  makeModel (S fuel) s m [field name typeName flags] "" false g = Done (m', g') ->
  Model_Columns m'
  = Model_Columns m
    ++ map memberColumn (structMembers fuel s (typesByName g) sitems [name])
    ++ [mkColumn (undot name) boolType "boolean" false] /\
  Forall (fun c => Column_Nullable c = true)
    (map memberColumn (structMembers fuel s (typesByName g) sitems [name])) /\
  length (Model_Columns m')
  = length (Model_Columns m)
    + (leafCount (structMembers fuel s (typesByName g) sitems [name])
       + presenceCount (structMembers fuel s (typesByName g) sitems [name]) + 1) /\
  (presenceCount (structMembers fuel s (typesByName g) sitems [name]) = 0 ->
   length (Model_Columns m')
   = length (Model_Columns m)
     + (leafCount (structMembers fuel s (typesByName g) sitems [name]) + 1)).
Proof.
  intros Hty Hby Hnull H.
  change (makeModel (S fuel) s m [field name typeName flags] "" false g)
    with (makeModelItems (makeModel fuel s) s m [field name typeName flags] "" false g) in H.
  simpl in H. apply bind_Done_inv in H as (m3 & g3 & H & [= -> _]).
  unfold makeModelField in H. rewrite Hty, Hnull in H. simpl in H.
  apply bind_Done_inv in H as (m1 & g1 & H1 & H).
  apply bind_Done_inv in H1 as (tags & g0 & Htags & [= <- <-]).
  apply keepsTypes_makeTags in Htags.
  apply bind_Done_inv in H as (byName & g2 & [= <- <-] & H).
  rewrite Htags, Hby in H.
  apply bind_Done_inv in H as (m2 & g2 & H2 & [= Hm' _]).
  replace (name +:+ ".") with (dottedPrefix [name]) in H2
    by (simpl; by rewrite append_nil_r).
  apply makeModel_columns in H2. rewrite Htags in H2. simpl in H2.
  assert (Model_Columns m'
          = Model_Columns m
            ++ map memberColumn (structMembers fuel s (typesByName g) sitems [name])
            ++ [mkColumn (undot name) boolType "boolean" false]) as Hcols.
  { rewrite <- Hm'. simpl. by rewrite H2, <- app_assoc. }
  split; [exact Hcols|]. split.
  - apply Forall_map, Forall_forall. by intros [].
  - rewrite Hcols, !length_app, length_map, length_members. simpl. split; [lia|].
    intros ->. lia.
Qed.

Lemma nullable_struct_field_columns_witness :
  exists s g m' g',
    registerAll Scenario.ctx 0 Scenario.typesNested [] Scenario.fresh = Done (s, g) /\
    makeModel 2 s (newModel "M") [field "a" "A" [nullFlag]] "" false g = Done (m', g') /\
    Column_Name <$> Model_Columns m' = ["a__b__x"; "a__b"; "a"] /\
    length (Model_Columns m')
    = 0 + (leafCount (structMembers 1 s (typesByName g) [field "b" "B" [nullFlag]] ["a"])
           + presenceCount (structMembers 1 s (typesByName g) [field "b" "B" [nullFlag]] ["a"])
           + 1).
Proof.
  eexists _, _, _, _. split; [vm_compute; reflexivity|].
  split; [vm_compute; reflexivity|]. split; [vm_compute; reflexivity|].
  refine (proj1 (proj2 (proj2 (nullable_struct_field_columns 1 _ (newModel "M") "a" "A"
                                 [nullFlag] "A" _ [field "b" "B" [nullFlag]] _ _ _
                                 _ _ _ _)))).
  all: vm_compute; reflexivity.
Defined.

(** The claim of C5 fails: the struct [A] has one leaf member, the
    field of type [A] yields three columns. *)
Lemma nested_nullable_struct_adds_columns :
  exists s g m' g',
    registerAll Scenario.ctx 0 Scenario.typesNested [] Scenario.fresh = Done (s, g) /\
    makeModel 2 s (newModel "M") [field "a" "A" [nullFlag]] "" false g = Done (m', g') /\
    leafCount (structMembers 1 s (typesByName g) [field "b" "B" [nullFlag]] ["a"]) = 1 /\
    length (Model_Columns m') = 3 /\
    length (Model_Columns m')
    <> leafCount (structMembers 1 s (typesByName g) [field "b" "B" [nullFlag]] ["a"]) + 1.
Proof.
  eexists _, _, _, _. split; [vm_compute; reflexivity|].
  split; [vm_compute; reflexivity|]. split; [vm_compute; reflexivity|].
  split; [vm_compute; reflexivity|]. vm_compute. intros [=].
Qed.


(** ** Termination *)

Lemma bind_runs {A B} (c : M A) (k : A -> M B) g :
  c g <> OutOfFuel ->
  (forall a g1, c g = Done (a, g1) -> k a g1 <> OutOfFuel) ->
  bind c k g <> OutOfFuel.
Proof.
  intros Hc Hk. unfold bind. destruct (c g) as [[a g1]| |]; [by apply Hk|done|done].
Qed.

Lemma fuelFree_bind {A B} (c : M A) (k : A -> M B) :
  fuelFree c -> (forall a, fuelFree (k a)) -> fuelFree (bind c k).
Proof. intros Hc Hk g. apply bind_runs; [apply Hc|]. intros; apply Hk. Qed.

Lemma fuelFree_ret {A} (a : A) : fuelFree (ret a).
Proof. done. Qed.

Lemma fuelFree_panic {A} msg : fuelFree (@panic A msg).
Proof. done. Qed.

Lemma fuelFree_addError msg : fuelFree (addError msg).
Proof. done. Qed.

Lemma fuelFree_getTypesByName : fuelFree getTypesByName.
Proof. done. Qed.

Lemma fuelFree_setTypesByName t : fuelFree (setTypesByName t).
Proof. done. Qed.

Lemma fuelFree_getValidationErrors : fuelFree getValidationErrors.
Proof. done. Qed.

Lemma fuelFree_writer {A} (c : M A) : writer c -> runLog c <> OutOfFuel -> fuelFree c.
Proof. intros Hw Hr g. rewrite Hw. by destruct (runLog c) as [[]| |]. Qed.

#[export] Hint Resolve fuelFree_ret fuelFree_panic fuelFree_addError fuelFree_getTypesByName
  fuelFree_setTypesByName fuelFree_getValidationErrors : pass.

Ltac fuel_step :=
  lazymatch goal with
  | |- fuelFree (bind _ _) => apply fuelFree_bind; [|intros ?]
  | |- fuelFree (match ?x with _ => _ end) => destruct x
  | |- fuelFree (if ?x then _ else _) => destruct x
  | |- _ => solve [eauto with pass]
  end.

Ltac fuel_solve := repeat fuel_step.

Lemma fuelFree_makeTagsFrom flags res context : fuelFree (makeTagsFrom res flags context).
Proof. revert res. induction flags as [|[|key value] flags IH]; intros res; simpl; fuel_solve. Qed.

#[export] Hint Resolve fuelFree_makeTagsFrom : pass.

Lemma fuelFree_makeTags flags context : fuelFree (makeTags flags context).
Proof. unfold makeTags. fuel_solve. Qed.

Lemma fuelFree_checkDuplicateFieldsFrom fields seen name :
  fuelFree (checkDuplicateFieldsFrom seen name fields).
Proof. revert seen. induction fields as [|f fields IH]; intros seen; simpl; fuel_solve. Qed.

Lemma fuelFree_checkPrimaryKeyColumns m names : fuelFree (checkPrimaryKeyColumns m names).
Proof. induction names as [|n names IH]; simpl; fuel_solve. Qed.

Lemma fuelFree_checkConstraintColumns kind m columns names :
  fuelFree (checkConstraintColumns kind m columns names).
Proof. induction names as [|n names IH]; simpl; fuel_solve. Qed.

#[export] Hint Resolve fuelFree_makeTags fuelFree_checkDuplicateFieldsFrom
  fuelFree_checkPrimaryKeyColumns fuelFree_checkConstraintColumns : pass.

Lemma fuelFree_checkIndexesFrom l seen m : fuelFree (checkIndexesFrom seen m l).
Proof. revert seen. induction l as [|f l IH]; intros seen; simpl; fuel_solve. Qed.

Lemma fuelFree_checkUniquesFrom l seen m : fuelFree (checkUniquesFrom seen m l).
Proof. revert seen. induction l as [|f l IH]; intros seen; simpl; fuel_solve. Qed.

Lemma fuelFree_checkForeignKey s m f : fuelFree (checkForeignKey s m f).
Proof. unfold checkForeignKey. fuel_solve. Qed.

#[export] Hint Resolve fuelFree_checkIndexesFrom fuelFree_checkUniquesFrom
  fuelFree_checkForeignKey : pass.

Lemma fuelFree_checkForeignKeysFrom s m l : fuelFree (checkForeignKeysFrom s m l).
Proof. induction l as [|f l IH]; simpl; fuel_solve. Qed.

#[export] Hint Resolve fuelFree_checkForeignKeysFrom : pass.

Lemma fuelFree_checkModel s m : fuelFree (checkModel s m).
Proof.
  unfold checkModel, checkDuplicateFields, checkPrimaryKey, checkIndexes, checkUniques,
    checkForeignKeys. fuel_solve.
Qed.

#[export] Hint Resolve fuelFree_checkModel : pass.

Lemma fuelFree_checkModels keys s : fuelFree (checkModels s keys).
Proof. revert s. induction keys as [|k keys IH]; intros s; simpl; fuel_solve. Qed.

Lemma fuelFree_registerTypes types s : fuelFree (registerTypes s types).
Proof. revert s. induction types as [|t types IH]; intros s; simpl; fuel_solve. Qed.

Lemma fuelFree_resolveRef s tname name context : fuelFree (resolveRef s tname name context).
Proof. unfold resolveRef. fuel_solve. Qed.

#[export] Hint Resolve fuelFree_checkModels fuelFree_registerTypes fuelFree_resolveRef : pass.

Section ResolveRuns.

Variable fieldContext : string -> string.

Lemma fuelFree_resolveItems items s tname : fuelFree (resolveItems fieldContext s tname items).
Proof. induction items as [|[] items IH]; simpl; fuel_solve. Qed.

Lemma fuelFree_resolveTypes s t : fuelFree (resolveTypes fieldContext s t).
Proof. unfold resolveTypes. fuel_solve. apply fuelFree_resolveItems. Qed.

Lemma fuelFree_resolveAllTypes types s : fuelFree (resolveAllTypes fieldContext s types).
Proof.
  revert s. induction types as [|t types IH]; intros s; simpl; fuel_solve.
  apply fuelFree_resolveTypes.
Qed.

End ResolveRuns.

Lemma bind_returns {A B} (c : M A) (k : A -> M B) g :
  returns (c g) ->
  (forall a g1, c g = Done (a, g1) -> returns (k a g1)) ->
  returns (bind c k g).
Proof. intros [[a g1] Hc] Hk. unfold bind. rewrite Hc. by apply Hk. Qed.

Lemma returns_runs {A} (o : outcome A) : returns o -> o <> OutOfFuel.
Proof. by intros [a ->]. Qed.

Lemma makeTagsFrom_returns flags res context g : returns (makeTagsFrom res flags context g).
Proof.
  revert res g. induction flags as [|[|key value] flags IH]; intros res g; simpl.
  - by eexists.
  - apply IH.
  - apply bind_returns; [|intros; apply IH]. destruct (res !! key); by eexists.
Qed.

Lemma registered_struct types byName name n fields :
  registered types byName -> types !! name = Some (TStruct n fields) ->
  exists items, te_info <$> byName !! name = Some (structType items).
Proof.
  intros Hreg Ht. specialize (Hreg name). rewrite Ht in Hreg. unfold isStructInfo in Hreg.
  destruct (byName !! name) as [[n' [items|]]|]; simpl in *; try done. by exists items.
Qed.

Section MakeModelReturns.

Variable rec : Model -> list ModelItem -> string -> bool -> M Model.

Variable s : SchemaT.

Hypothesis keepsTypes_rec : forall m items prefix fn, keepsTypes (rec m items prefix fn).

(** One iteration returns when the recursive call does.  The type
    assertion of the struct case cannot fail on a registry that agrees
    with [typesByName]. *)
Lemma makeModelItem_returns m i prefix fn g :
  registered (Types s) (typesByName g) ->
  (forall fname t flags items,
     i = field fname t flags ->
     structItems (Types s) (typesByName g) t = Some items ->
     forall m p fn g', typesByName g' = typesByName g -> returns (rec m items p fn g')) ->
  returns (makeModelItem rec s m i prefix fn g).
Proof.
  intros Hreg Hrec.
  destruct i as [name typeName flags|names|names|names|columnName foreignModelName];
    simpl; try by eexists.
  - unfold makeModelField. destruct (Types s !! typeName) as [t|] eqn:Et; [|by eexists].
    apply bind_returns.
    { destruct (String.eqb prefix ""); [|by eexists].
      apply bind_returns; [apply makeTagsFrom_returns|]. intros; by eexists. }
    intros m1 g1 H1.
    assert (typesByName g1 = typesByName g) as Ht.
    { destruct (String.eqb prefix ""); [|by injection H1 as <- <-].
      apply bind_Done_inv in H1 as (tags & g0 & Htags & [= <- <-]).
      by eapply keepsTypes_makeTags. }
    destruct t as [n fields|b]; [|by eexists].
    apply bind_returns; [by eexists|]. intros byName g2 [= <- <-].
    destruct (registered_struct _ _ _ _ _ Hreg Et) as [items E]. rewrite Ht, E.
    apply bind_returns.
    + eapply Hrec; [done| |done]. unfold structItems. by rewrite Et, E.
    + intros m2 g2 _. destruct (isNullable flags); by eexists.
  - apply bind_returns; [destruct (Model_PrimaryKey m)|intros]; by eexists.
Qed.

Lemma makeModelItems_returns items m prefix fn g :
  registered (Types s) (typesByName g) ->
  (forall fname t flags its,
     In (field fname t flags) items ->
     structItems (Types s) (typesByName g) t = Some its ->
     forall m p fn g', typesByName g' = typesByName g -> returns (rec m its p fn g')) ->
  returns (makeModelItems rec s m items prefix fn g).
Proof using keepsTypes_rec.
  revert m g. induction items as [|i items IH]; intros m g Hreg Hrec; simpl; [by eexists|].
  apply bind_returns.
  - apply makeModelItem_returns; [done|]. intros fname t flags its ->.
    apply (Hrec fname t flags its). by left.
  - intros m1 g1 H1.
    pose proof (keepsTypes_makeModelItem rec s keepsTypes_rec _ _ _ _ _ _ _ H1) as Ht.
    apply IH; rewrite Ht; [done|]. intros fname t flags its Hin Hs m2 p fn2 g' Hg'.
    apply (Hrec fname t flags its); [by right|done|done].
Qed.

End MakeModelReturns.

Section Acyclic.

Variable s : SchemaT.

Variable byName : gmap string typeEntry.

Hypothesis agree : registered (Types s) byName.

Hypothesis no_cycle : acyclic (Types s) byName.

Lemma structItems_dom name : is_Some (structItems (Types s) byName name) -> name ∈ dom byName.
Proof.
  unfold structItems. intros [items H]. apply elem_of_dom.
  destruct (Types s !! name) as [[]|]; [|done|done].
  by destruct (byName !! name).
Qed.

(** A chain of distinct struct types is no longer than the table. *)
Lemma chain_length (path : list string) :
  NoDup path -> (forall a, a ∈ path -> is_Some (structItems (Types s) byName a)) ->
  length path <= size (dom byName).
Proof.
  intros Hnd Hin. rewrite <- (size_list_to_set (C := gset string) path) by done.
  apply subseteq_size. intros a Ha. apply elem_of_list_to_set in Ha.
  by apply structItems_dom, Hin.
Qed.

(** With [n] units of fuel below a chain of [length path] distinct
    struct types, each of which reaches the types of the items at hand,
    the recursion returns when the two add up to the size of the table:
    the chain cannot grow beyond the table, and a type met twice on it
    would lie on a cycle. *)
Lemma makeModel_returns_below n :
  forall path,
    NoDup path ->
    (forall a, a ∈ path -> is_Some (structItems (Types s) byName a)) ->
    size (dom byName) <= n + length path ->
    forall items,
      (forall fname t flags, In (field fname t flags) items ->
         is_Some (structItems (Types s) byName t) ->
         forall a, a ∈ path -> tc (refersTo (Types s) byName) a t) ->
      forall m prefix fn g, typesByName g = byName ->
        returns (makeModel n s m items prefix fn g).
Proof using agree no_cycle.
  induction n as [|n IH]; intros path Hnd Hpath Hsize items Hitems m prefix fn g Hg.
  - apply makeModelItems_returns; [done|by rewrite Hg|].
    intros fname t flags its Hin Hs. exfalso. rewrite Hg in Hs.
    assert (t ∉ path) as Hfresh.
    { intros Ht. apply (no_cycle t). by eapply Hitems. }
    assert (length (t :: path) <= size (dom byName)) as Hlen.
    { apply chain_length; [by constructor|].
      intros a [->|Ha]%elem_of_cons; [by rewrite Hs|by apply Hpath]. }
    simpl in Hlen. lia.
  - change (makeModel (S n) s m items prefix fn g)
      with (makeModelItems (makeModel n s) s m items prefix fn g).
    apply makeModelItems_returns;
      [intros; apply keepsTypes_makeModel|by rewrite Hg|].
    intros fname t flags its Hin Hs m1 p fn1 g' Hg'. rewrite Hg in Hs, Hg'.
    assert (t ∉ path) as Hfresh.
    { intros Ht. apply (no_cycle t). by eapply Hitems. }
    apply (IH (t :: path)); [by constructor| | | |done].
    + intros a [->|Ha]%elem_of_cons; [by rewrite Hs|by apply Hpath].
    + simpl. lia.
    + intros fname' t' flags' Hin' Hs' a [->|Ha]%elem_of_cons.
      * apply tc_once. by exists its, fname', flags'.
      * eapply tc_r; [by eapply Hitems|]. by exists its, fname', flags'.
Qed.

Lemma makeModel_returns fuel m items prefix fn g :
  size (dom byName) <= fuel -> typesByName g = byName ->
  returns (makeModel fuel s m items prefix fn g).
Proof using agree no_cycle.
  intros Hsize Hg. apply (makeModel_returns_below fuel []); try done.
  - constructor.
  - intros a Ha. by apply elem_of_nil in Ha.
  - simpl. lia.
  - intros ???? _ a Ha. by apply elem_of_nil in Ha.
Qed.

End Acyclic.

(** *** The reference graph of the declarations *)

Lemma registered_empty : registered ∅ ∅.
Proof. intros name. by rewrite !lookup_empty. Qed.

Lemma registered_insert types byName e :
  registered types byName ->
  registered (<[te_name e := getType (te_info e) (te_name e)]> types)
             (<[te_name e := e]> byName).
Proof.
  intros H name. destruct (decide (te_name e = name)) as [<-|Hne].
  - rewrite !lookup_insert_eq. simpl. unfold isStructInfo. by destruct (te_info e).
  - by rewrite !lookup_insert_ne.
Qed.

Lemma registered_structItems types byName name :
  registered types byName ->
  structItems types byName name
  = match te_info <$> byName !! name with
    | Some (structType items) => Some items
    | _ => None
    end.
Proof.
  intros H. specialize (H name). unfold structItems, isStructInfo in *.
  destruct (types !! name) as [[]|], (byName !! name) as [[n []]|]; simpl in *; done.
Qed.

Lemma registerTypes_Done types s g :
  exists s' g',
    registerTypes s types g = Done (s', g') /\
    Models s' = Models s /\
    typesByName g' = fold_left (fun t e => <[te_name e := e]> t) types (typesByName g) /\
    (registered (Types s) (typesByName g) -> registered (Types s') (typesByName g')).
Proof.
  revert s g. induction types as [|t types IH]; intros s g; simpl.
  - by exists s, g.
  - destruct (Types s !! te_name t) eqn:E;
      unfold bind, addError, ret, getTypesByName, setTypesByName; simpl;
      match goal with
      | |- context [registerTypes ?s1 types ?g1] =>
          destruct (IH s1 g1) as (s' & g' & -> & Hm & Ht & Hr)
      end;
      (exists s', g'; split; [done|]; split; [done|]; split; [done|];
       intros Hreg; apply Hr; simpl; by apply registered_insert).
Qed.

Section DeclaredRuns.

Variable CalculateRelationships : SchemaT -> SchemaT.

Variable fieldContext : string -> string.

Lemma resolveItems_Done items s tname g :
  exists refs g',
    resolveItems fieldContext s tname items g = Done (refs, g') /\
    typesByName g' = typesByName g.
Proof.
  revert g. induction items as [|[name typeName flags| | | |] items IH]; intros g; simpl;
    try apply IH.
  - by exists [], g.
  - unfold bind at 1, resolveRef.
    destruct (Types s !! typeName).
    + simpl. unfold bind. destruct (IH g) as (refs & g' & -> & Ht). by eexists _, _.
    + simpl. unfold bind.
      edestruct IH as (refs & g' & -> & Ht). eexists _, _. split; [done|]. by rewrite Ht.
Qed.

Lemma resolveTypes_Done s t g :
  exists s' g',
    resolveTypes fieldContext s t g = Done (s', g') /\
    Models s' = Models s /\
    typesByName g' = typesByName g /\
    (forall name, isStruct <$> Types s' !! name = isStruct <$> Types s !! name).
Proof.
  unfold resolveTypes. destruct (te_info t) as [items|]; [|by exists s, g].
  unfold bind. destruct (resolveItems_Done items s (te_name t) g) as (refs & g' & -> & Ht).
  destruct (Types s !! te_name t) as [[n fields|b]|] eqn:E; try by exists s, g'.
  eexists _, g'. split; [done|]. split; [done|]. split; [done|].
  intros name. simpl. destruct (decide (te_name t = name)) as [<-|Hne].
  - by rewrite lookup_insert_eq, E.
  - by rewrite lookup_insert_ne.
Qed.

Lemma resolveAllTypes_Done types s g :
  exists s' g',
    resolveAllTypes fieldContext s types g = Done (s', g') /\
    Models s' = Models s /\
    typesByName g' = typesByName g /\
    (forall name, isStruct <$> Types s' !! name = isStruct <$> Types s !! name).
Proof.
  revert s g. induction types as [|t types IH]; intros s g; simpl; [by exists s, g|].
  unfold bind. destruct (resolveTypes_Done s t g) as (s1 & g1 & -> & Hm1 & Ht1 & Hs1).
  destruct (IH s1 g1) as (s2 & g2 & -> & Hm2 & Ht2 & Hs2).
  exists s2, g2. split; [done|]. split; [congruence|]. split; [congruence|].
  intros name. by rewrite Hs2.
Qed.

End DeclaredRuns.

Lemma tc_impl {A} (R R' : relation A) a b :
  (forall x y, R x y -> R' x y) -> tc R a b -> tc R' a b.
Proof.
  intros HR. induction 1 as [x y H|x y z H _ IH]; [by apply tc_once, HR|].
  eapply tc_l; [by apply HR|done].
Qed.

Lemma acyclicTypes_acyclic types registry :
  registered registry (declaredTable types) -> acyclicTypes types ->
  acyclic registry (declaredTable types).
Proof.
  intros Hreg Hacyc a Ha. apply (Hacyc a). revert Ha. apply tc_impl.
  intros x y (items & fname & flags & Hx & Hin & Hy).
  rewrite registered_structItems in Hx, Hy by done. by exists items, fname, flags.
Qed.

Lemma size_dom_fold_insert (types : list typeEntry) (byName : gmap string typeEntry) :
  size (dom (fold_left (fun t e => <[te_name e := e]> t) types byName))
  <= size (dom byName) + length types.
Proof.
  revert byName. induction types as [|e types IH]; intros byName; simpl; [lia|].
  etrans; [apply IH|]. rewrite dom_insert_L.
  assert (size ({[te_name e]} ∪ dom byName) <= 1 + size (dom byName)); [|lia].
  rewrite size_union_alt, size_singleton.
  assert (size (dom byName ∖ {[te_name e]}) <= size (dom byName)); [|lia].
  apply subseteq_size, subseteq_difference_l. done.
Qed.

Lemma size_declaredTable types : size (dom (declaredTable types)) <= length types.
Proof.
  unfold declaredTable. etrans; [apply size_dom_fold_insert|].
  by rewrite dom_empty_L, size_empty.
Qed.

Section Termination.

Variable CalculateRelationships : SchemaT -> SchemaT.

Variable fieldContext : string -> string.

Lemma registerModels_returns fuel models s g :
  registered (Types s) (typesByName g) ->
  acyclic (Types s) (typesByName g) -> size (dom (typesByName g)) <= fuel ->
  returns (registerModels fuel s models g).
Proof.
  revert s g. induction models as [|m models IH]; intros s g Hreg Hacyc Hsize; simpl;
    [by eexists|].
  apply bind_returns; [destruct (Models s !! me_name m); by eexists|].
  intros [] g1 H1.
  assert (typesByName g1 = typesByName g) as Ht1.
  { destruct (Models s !! me_name m); by injection H1 as <-. }
  apply bind_returns.
  - by apply (makeModel_returns _ (typesByName g)).
  - intros model g2 H2. apply keepsTypes_makeModel in H2.
    apply IH; simpl; by rewrite H2, Ht1.
Qed.

(** On declarations without a cycle the first three loops of [Schema]
    return: every model is flattened. *)
Lemma registerAll_returns fuel types models g :
  acyclicTypes types -> length types <= fuel ->
  returns (registerAll fieldContext fuel types models g).
Proof.
  intros Hacyc Hfuel. unfold registerAll.
  apply bind_returns; [by eexists|]. intros [] g0 [= <-].
  destruct (registerTypes_Done types NewSchema (mkGlobals (validationErrors g) ∅))
    as (s1 & g1 & E1 & _ & Ht1 & Hr1).
  apply bind_returns; [by eexists|]. intros s1' g1' H1.
  rewrite E1 in H1. injection H1 as <- <-.
  destruct (resolveAllTypes_Done fieldContext types s1 g1) as (s2 & g2 & E2 & _ & Ht2 & Hs2).
  apply bind_returns; [by eexists|]. intros s2' g2' H2.
  rewrite E2 in H2. injection H2 as <- <-.
  simpl in Ht1. fold (declaredTable types) in Ht1.
  assert (typesByName g2 = declaredTable types) as Ht by congruence.
  assert (registered (Types s2) (declaredTable types)) as Hreg.
  { intros name. rewrite Hs2, <- Ht1. apply Hr1, registered_empty. }
  apply registerModels_returns; rewrite Ht.
  - done.
  - by apply acyclicTypes_acyclic.
  - etrans; [apply size_declaredTable|done].
Qed.

Lemma Schema_runs fuel rangeKeys types models g :
  acyclicTypes types -> length types <= fuel ->
  Schema CalculateRelationships fieldContext fuel rangeKeys types models g <> OutOfFuel.
Proof.
  intros Hacyc Hfuel. unfold Schema, buildSchema.
  apply bind_runs; [|intros s1 g1 _; by rewrite finish_verdict].
  apply bind_runs; [by apply returns_runs, registerAll_returns|].
  intros; apply fuelFree_checkModels.
Qed.

(** A field whose type is a struct that has a member of its own type:
    the flattening runs out of every amount of fuel. *)
Lemma makeModel_cycle fuel :
  forall s m fname prefix fn g n fs,
    Types s !! "Node" = Some (TStruct n fs) ->
    typesByName g !! "Node"
    = Some (mkTypeEntry "Node" (structType [field "next" "Node" []])) ->
    makeModel fuel s m [field fname "Node" []] prefix fn g = OutOfFuel.
Proof.
  induction fuel as [|fuel IH]; intros s m fname prefix fn g n fs Hty Hby.
  - simpl. unfold bind at 1, makeModelField. rewrite Hty.
    unfold bind at 1. destruct (String.eqb prefix ""); simpl;
      unfold bind; simpl; by rewrite Hby.
  - change (makeModel (S fuel) s m [field fname "Node" []] prefix fn g)
      with (makeModelItems (makeModel fuel s) s m [field fname "Node" []] prefix fn g).
    simpl. unfold bind at 1, makeModelField. rewrite Hty.
    unfold bind at 1. destruct (String.eqb prefix ""); simpl;
      unfold bind at 1; simpl; rewrite Hby; simpl;
      unfold bind at 1; by erewrite IH.
Qed.

Lemma registerModels_cycle fuel s g n fs :
  Types s !! "Node" = Some (TStruct n fs) ->
  typesByName g !! "Node"
  = Some (mkTypeEntry "Node" (structType [field "next" "Node" []])) ->
  registerModels fuel s Scenario.modelsCyclic g = OutOfFuel.
Proof.
  intros Hty Hby. unfold Scenario.modelsCyclic. cbn [registerModels me_name me_items].
  unfold bind at 1.
  destruct (Models s !! "List"); cbn [addError ret];
    unfold bind at 1; by erewrite makeModel_cycle.
Qed.

Lemma Schema_cycle fuel rangeKeys g :
  Schema CalculateRelationships fieldContext fuel rangeKeys
    Scenario.typesCyclic Scenario.modelsCyclic g = OutOfFuel.
Proof.
  rewrite Schema_build. unfold buildSchema, bind at 1.
  rewrite registerAll_fresh.
  assert (registerAll fieldContext fuel Scenario.typesCyclic Scenario.modelsCyclic
            (mkGlobals [] ∅) = OutOfFuel) as ->; [|done].
  unfold registerAll. unfold bind at 1. cbn [setTypesByName validationErrors].
  unfold bind at 1.
  set (r := registerTypes NewSchema Scenario.typesCyclic _). vm_compute in r. subst r.
  cbv beta iota. unfold bind at 1.
  set (r := resolveAllTypes _ _ _ _). vm_compute in r. subst r.
  cbv beta iota.
  eapply registerModels_cycle; vm_compute; reflexivity.
Qed.

End Termination.

Lemma ranked_acyclicTypes types (rank : string -> nat) :
  (forall a b, declaredRefersTo types a b -> rank b < rank a) -> acyclicTypes types.
Proof.
  intros Hrank a Ha.
  assert (forall x y, tc (declaredRefersTo types) x y -> rank y < rank x) as Htc.
  { induction 1 as [x y H|x y z H _ IH]; [by apply Hrank|].
    apply Hrank in H. lia. }
  apply Htc in Ha. lia.
Qed.

Lemma typesNested_acyclic : acyclicTypes Scenario.typesNested.
Proof.
  apply (ranked_acyclicTypes _ (fun n => if String.eqb n "A" then 1 else 0)).
  intros a b (items & fname & flags & Ha & Hin & [its Hb]).
  unfold declaredItems in Ha, Hb.
  change (declaredTable Scenario.typesNested)
    with (<["A" := mkTypeEntry "A" (structType [field "b" "B" [nullFlag]])]>
            (<["B" := mkTypeEntry "B" (structType [field "x" "int" []])]>
               (<["int" := Scenario.intType]> (∅ : gmap string typeEntry)))) in Ha, Hb.
  destruct (decide (a = "A")) as [->|HA].
  - rewrite lookup_insert_eq in Ha. injection Ha as <-.
    destruct Hin as [[= _ <- _]|[]]. simpl. lia.
  - rewrite lookup_insert_ne in Ha by done.
    destruct (decide (a = "B")) as [->|HB].
    + rewrite lookup_insert_eq in Ha. injection Ha as <-.
      destruct Hin as [[= _ <- _]|[]]. by vm_compute in Hb.
    + rewrite lookup_insert_ne in Ha by done.
      destruct (decide (a = "int")) as [->|HI].
      * by rewrite lookup_insert_eq in Ha.
      * by rewrite lookup_insert_ne, lookup_empty in Ha.
Qed.

Lemma typesCyclic_cyclic : ~ acyclicTypes Scenario.typesCyclic.
Proof.
  intros H. apply (H "Node"). apply tc_once.
  exists [field "next" "Node" []], "next", []. split; [done|]. split; [by left|by eexists].
Qed.

(** C9.  When the struct types of the declarations do not refer to one
    another in a cycle, the flattening terminates: with fuel for as many
    nested calls as there are type declarations every model is flattened,
    [Schema] never runs out, and more fuel does not change its result.
    Nothing guards against a cycle: on a struct that refers to itself
    [Schema] runs out of every amount of fuel. *)
Theorem Schema_terminates_on_acyclic_types :
  (forall CalculateRelationships fieldContext fuel rangeKeys types models g,
     acyclicTypes types -> length types <= fuel ->
     (exists s g', registerAll fieldContext fuel types models g = Done (s, g')) /\
     Schema CalculateRelationships fieldContext fuel rangeKeys types models g <> OutOfFuel /\
     forall fuel', fuel <= fuel' ->
       Schema CalculateRelationships fieldContext fuel' rangeKeys types models g
       = Schema CalculateRelationships fieldContext fuel rangeKeys types models g) /\
  (~ acyclicTypes Scenario.typesCyclic /\
   forall CalculateRelationships fieldContext fuel rangeKeys g,
     Schema CalculateRelationships fieldContext fuel rangeKeys
       Scenario.typesCyclic Scenario.modelsCyclic g = OutOfFuel).
Proof.
  split.
  - intros Calc ctx fuel rangeKeys types models g Hacyc Hfuel.
    pose proof (Schema_runs Calc ctx fuel rangeKeys types models g Hacyc Hfuel) as Hruns.
    split; [|split; [done|]].
    + destruct (registerAll_returns ctx fuel types models g Hacyc Hfuel) as [[s g'] H].
      by exists s, g'.
    + intros fuel' Hle. by apply Schema_fuel_mono.
  - split; [apply typesCyclic_cyclic|]. intros. apply Schema_cycle.
Qed.

Lemma Schema_terminates_witness :
  acyclicTypes Scenario.typesNested /\
  Schema (fun s => s) Scenario.ctx 3 canonicalKeys
    Scenario.typesNested Scenario.modelsNested Scenario.fresh <> OutOfFuel.
Proof.
  split; [apply typesNested_acyclic|].
  apply (proj1 Schema_terminates_on_acyclic_types (fun s => s) Scenario.ctx 3 canonicalKeys
           Scenario.typesNested Scenario.modelsNested Scenario.fresh);
    [apply typesNested_acyclic|simpl; lia].
Defined.

(** ** The theorems at the scenarios *)


Lemma Schema_idempotent_witness :
  exists r1 g1 r2 g2,
    Schema (fun s => s) Scenario.ctx 0 canonicalKeys
      Scenario.typesA Scenario.modelsA Scenario.fresh = Done (r1, g1) /\
    Schema (fun s => s) Scenario.ctx 0 Scenario.reverseKeys
      Scenario.typesA Scenario.modelsA g1 = Done (r2, g2) /\
    r2 = r1 /\ is_Some (fst r1).
Proof.
  eexists _, _.
  edestruct (Schema_idempotent (fun s => s) Scenario.ctx 0 canonicalKeys Scenario.reverseKeys
               Scenario.typesA Scenario.modelsA Scenario.fresh)
    as (r2 & g2 & new & new' & H2 & _ & _ & _ & _ & _ & Hsame & _);
    [apply canonicalKeys_visits|apply reverseKeys_visits|vm_compute; reflexivity|].
  exists r2, g2. split; [vm_compute; reflexivity|]. split; [exact H2|].
  split; [apply Hsame|]; by eexists.
Defined.

(** The claim of C8 fails: two calls on the declarations of Scenario B
    return two different errors, the second one counting the diagnostic
    of the first call again. *)
Lemma second_failing_call_differs :
  exists r1 g1 r2 g2,
    Schema (fun s => s) Scenario.ctx 0 canonicalKeys
      Scenario.typesB Scenario.modelsB Scenario.fresh = Done (r1, g1) /\
    Schema (fun s => s) Scenario.ctx 0 canonicalKeys
      Scenario.typesB Scenario.modelsB g1 = Done (r2, g2) /\
    r1 = (None,
          Some ("1 errors found:" +:+ newline
                +:+ "Model 'Order' primary key references nullable column 'total'"
                +:+ newline)) /\
    r2 = (None,
          Some ("2 errors found:" +:+ newline
                +:+ "Model 'Order' primary key references nullable column 'total'"
                +:+ newline
                +:+ "Model 'Order' primary key references nullable column 'total'"
                +:+ newline)) /\
    r2 <> r1.
Proof.
  eexists _, _, _, _. split; [vm_compute; reflexivity|].
  split; [vm_compute; reflexivity|]. split; [reflexivity|]. split; [reflexivity|].
  intros [=].
Qed.

Lemma diagnostics_accumulate_witness :
  exists r1 g1 r2 g2,
    Schema (fun s => s) Scenario.ctx 0 canonicalKeys
      Scenario.typesB Scenario.modelsB Scenario.fresh = Done (r1, g1) /\
    Schema (fun s => s) Scenario.ctx 0 canonicalKeys
      Scenario.typesA Scenario.modelsA g1 = Done (r2, g2) /\
    fst r1 = None /\ fst r2 = None /\
    validationErrors g2 = validationErrors g1.
Proof.
  eexists _, _, _, _.
  split; [vm_compute; reflexivity|]. split; [vm_compute; reflexivity|].
  edestruct (diagnostics_accumulate (fun s => s) Scenario.ctx 0 canonicalKeys
               Scenario.typesB Scenario.modelsB 0 canonicalKeys
               Scenario.typesA Scenario.modelsA Scenario.fresh)
    as (new & Hn & Hhead & Hfail);
    [vm_compute; reflexivity|vm_compute; reflexivity|].
  split; [reflexivity|]. split; [|reflexivity].
  exact (proj1 (proj2 (Hfail eq_refl))).
Defined.

(** * Further properties of the pass *)

Set Warnings "-clear-no-such-hyp".

(** ** Dots *)

Lemma undot_hasDot s : hasDot (undot s) = false.
Proof.
  induction s as [|c s IH]; [done|]. simpl.
  destruct (Ascii.eqb c ".") eqn:E; simpl; [done|]. by rewrite E.
Qed.

Lemma undot_id s : hasDot s = false -> undot s = s.
Proof.
  induction s as [|c s IH]; [done|]. simpl.
  destruct (Ascii.eqb c "."); [done|]. simpl. intros H. by rewrite IH.
Qed.

Lemma undot_length s : String.length (undot s) = String.length s + countDots s.
Proof.
  induction s as [|c s IH]; [done|]. simpl.
  destruct (Ascii.eqb c "."); simpl; rewrite IH; lia.
Qed.

(** X1.  [undot] leaves no dot in its result; it returns its argument
    unchanged exactly when the argument holds no dot, so applying it twice
    is the same as applying it once; every dot makes the result one
    character longer; and it goes through concatenation. *)
Theorem undot_replaces_every_dot (s t : string) :
  hasDot (undot s) = false /\
  (undot s = s <-> hasDot s = false) /\
  undot (undot s) = undot s /\
  String.length (undot s) = String.length s + countDots s /\
  undot (s +:+ t) = undot s +:+ undot t.
Proof.
  split; [apply undot_hasDot|]. split.
  - split; [|apply undot_id]. intros H. rewrite <- H. apply undot_hasDot.
  - split; [apply undot_id, undot_hasDot|]. split; [apply undot_length|apply undot_app].
Qed.

Lemma flattenNames_map names prefix :
  flattenNames names prefix = map (fun n => undot prefix +:+ undot n) names.
Proof.
  unfold flattenNames, undotAll, prefixAll. rewrite map_map.
  apply map_ext. intros n. apply undot_app.
Qed.

(** X2.  [undotAll] and [prefixAll] keep the length and the order of the
    list; prefixing and then replacing dots, as [makeModel] does with the
    column names of a constraint, is replacing dots in the names and
    prefixing them with the prefix with its dots replaced; with the empty
    prefix [prefixAll] changes nothing; and no resulting name holds a dot. *)
Theorem undotAll_prefixAll (names : list string) (prefix : string) :
  length (undotAll (prefixAll names prefix)) = length names /\
  (forall i, undotAll (prefixAll names prefix) !! i
             = (fun n => undot prefix +:+ undot n) <$> names !! i) /\
  undotAll (prefixAll names prefix) = prefixAll (undotAll names) (undot prefix) /\
  prefixAll names "" = names /\
  Forall (fun n => hasDot n = false) (undotAll (prefixAll names prefix)).
Proof.
  fold (flattenNames names prefix). rewrite flattenNames_map.
  split; [by rewrite length_map|]. split; [intros i; apply list_lookup_fmap|].
  split; [unfold prefixAll, undotAll; by rewrite map_map|].
  split.
  - unfold prefixAll. induction names as [|n names IH]; [done|]. simpl. by rewrite IH.
  - apply Forall_forall. intros n Hn.
    apply list_elem_of_In, in_map_iff in Hn as [x [<- _]].
    by rewrite <- undot_app, undot_hasDot.
Qed.

(** ** Tags *)

Lemma record_eq_nil new g : record new g = g -> new = [].
Proof.
  destruct g as [errs byName]. unfold record. simpl. intros [= H].
  apply (f_equal length) in H. rewrite length_app in H.
  destruct new; [done|simpl in H; lia].
Qed.

Lemma makeTagsFrom_emits flags context : forall res g,
  exists tags new,
    makeTagsFrom res flags context g = Done (tags, record new g) /\
    (forall key,
       tags !! key = match last (tagValues key flags) with
                     | Some v => Some v
                     | None => res !! key
                     end) /\
    length new + size tags = size res + length (tagKeys flags) /\
    (new = [] <-> NoDup (tagKeys flags) /\ forall k, k ∈ tagKeys flags -> res !! k = None) /\
    Forall (fun d => exists key,
              key ∈ tagKeys flags /\ d = context +:+ " has duplicate tag '" +:+ key +:+ "'")
      new.
Proof.
  induction flags as [|[|k v] flags IH]; intros res g.
  - exists res, []. simpl. rewrite record_nil.
    split; [done|]. split; [done|]. split; [lia|]. split; [|done].
    split; [|done]. intros _. split; [constructor|]. intros k Hk. by apply elem_of_nil in Hk.
  - apply IH.
  - simpl. unfold bind.
    set (d := match res !! k with
              | Some _ => [context +:+ " has duplicate tag '" +:+ k +:+ "'"]
              | None => []
              end).
    assert ((match res !! k with
             | Some _ => addError (context +:+ " has duplicate tag '" +:+ k +:+ "'")
             | None => ret tt
             end) g = Done (tt, record d g)) as ->.
    { subst d. destruct (res !! k); [done|]. unfold ret. by rewrite record_nil. }
    destruct (IH (setTag res k v) (record d g)) as (tags & new & Hrun & Hlook & Hlen & Hnil & Hall).
    exists tags, (d ++ new). rewrite Hrun, record_record. split; [done|].
    unfold setTag in *. split; [|split; [|split]].
    + intros key. rewrite Hlook. destruct (String.eqb_spec k key) as [->|Hne].
      * rewrite last_cons. destruct (last (tagValues key flags)); [done|].
        by rewrite lookup_insert_eq.
      * destruct (last (tagValues key flags)); [done|]. by rewrite lookup_insert_ne.
    + rewrite length_app. subst d. destruct (res !! k) eqn:E; simpl.
      * rewrite map_size_insert_Some in Hlen by done. lia.
      * rewrite map_size_insert_None in Hlen by done. lia.
    + split.
      * intros [Hd ->]%app_eq_nil. destruct (proj1 Hnil eq_refl) as [Hnd Hfree].
        assert (res !! k = None) as Hk by (subst d; by destruct (res !! k)).
        split.
        -- constructor; [|done]. intros Hin. specialize (Hfree _ Hin).
           by rewrite lookup_insert_eq in Hfree.
        -- intros k' [->|Hin]%elem_of_cons; [done|].
           specialize (Hfree _ Hin). destruct (decide (k = k')) as [->|Hne]; [done|].
           by rewrite lookup_insert_ne in Hfree.
      * intros [Hnd Hfree]. apply NoDup_cons in Hnd as [Hk Hnd].
        assert (d = []) as -> by (subst d; by rewrite (Hfree k) by (by left)).
        simpl. apply Hnil. split; [done|]. intros k' Hin.
        rewrite lookup_insert_ne by (intros ->; done). apply Hfree. by right.
    + apply Forall_app. split.
      * subst d. destruct (res !! k); [|done]. constructor; [|done].
        exists k. split; [by left|done].
      * eapply Forall_impl; [done|]. intros x (key & Hin & ->). exists key.
        split; [by right|done].
Qed.

(** X3.  [makeTags] always returns.  The map it builds gives every key
    the value of the last tag flag with that key and holds no other key;
    null flags are passed over.  Every tag flag whose key an earlier flag
    carries records one duplicate-tag diagnostic, so nothing is recorded
    exactly when the keys are pairwise distinct. *)
Theorem makeTags_last_value_wins (flags : list FieldFlag) (context : string) (g : Globals) :
  exists tags new,
    makeTags flags context g = Done (tags, record new g) /\
    (forall key, tags !! key = last (tagValues key flags)) /\
    length new + size tags = length (tagKeys flags) /\
    (new = [] <-> NoDup (tagKeys flags)) /\
    Forall (fun d => exists key,
              key ∈ tagKeys flags /\ d = context +:+ " has duplicate tag '" +:+ key +:+ "'")
      new.
Proof.
  destruct (makeTagsFrom_emits flags context ∅ g) as (tags & new & Hrun & Hlook & Hlen & Hnil & Hall).
  exists tags, new. split; [done|]. split; [|split; [|split]].
  - intros key. rewrite Hlook. by destruct (last (tagValues key flags)).
  - by rewrite map_size_empty in Hlen.
  - rewrite Hnil. split; [by intros [? _]|]. intros H. split; [done|]. intros k _.
    apply lookup_empty.
  - done.
Qed.

(** ** Duplicate fields *)

Lemma fieldDiagnostics_nil fields name : forall seen,
  fieldDiagnostics seen name fields = [] <->
  NoDup (Field_Name <$> fields) /\ forall n, n ∈ Field_Name <$> fields -> n ∉ seen.
Proof.
  induction fields as [|f fields IH]; intros seen; simpl.
  - split; [|done]. intros _. split; [constructor|]. intros n Hn. by apply elem_of_nil in Hn.
  - split.
    + intros [Hd Hrest]%app_eq_nil. apply IH in Hrest as [Hnd Hfree].
      destruct (decide (Field_Name f ∈ seen)) as [|Hf]; [done|]. split.
      * constructor; [|done]. intros Hin. apply (Hfree _ Hin). set_solver.
      * intros n [->|Hin]%elem_of_cons; [done|]. specialize (Hfree _ Hin). set_solver.
    + intros [Hnd Hfree]. apply NoDup_cons in Hnd as [Hf Hnd].
      rewrite decide_False by (apply Hfree; by left). simpl. apply IH. split; [done|].
      intros n Hin. specialize (Hfree n ltac:(by right)).
      assert (n <> Field_Name f) by (intros ->; done). set_solver.
Qed.

Lemma fieldDiagnostics_length fields name : forall seen,
  length (fieldDiagnostics seen name fields)
  + size (list_to_set (Field_Name <$> fields) ∪ seen)
  = size seen + length fields.
Proof.
  induction fields as [|f fields IH]; intros seen.
  - simpl. rewrite (left_id_L ∅ (∪)). lia.
  - rewrite fmap_cons, list_to_set_cons. cbn [fieldDiagnostics]. rewrite length_app.
    specialize (IH ({[Field_Name f]} ∪ seen)).
    assert ({[Field_Name f]} ∪ list_to_set (Field_Name <$> fields) ∪ seen
            = list_to_set (Field_Name <$> fields) ∪ ({[Field_Name f]} ∪ seen)) as ->
      by set_solver.
    destruct (decide (Field_Name f ∈ seen)) as [Hin|Hout]; cbn [length].
    + assert (size ({[Field_Name f]} ∪ seen) = size seen) as E.
      { f_equal. apply leibniz_equiv. set_solver. }
      rewrite E in IH. lia.
    + assert (size ({[Field_Name f]} ∪ seen) = S (size seen)) as E.
      { rewrite size_union, size_singleton by set_solver. done. }
      rewrite E in IH. lia.
Qed.

Lemma fieldDiagnostics_seen fields name f : forall seen,
  In f fields -> Field_Name f ∈ seen ->
  In ("Model '" +:+ name +:+ "' field '" +:+ Field_Name f +:+ "' is defined multiple times.")
     (fieldDiagnostics seen name fields).
Proof.
  induction fields as [|f' fields IH]; intros seen Hf Hseen; simpl; [done|].
  rewrite in_app_iff. destruct Hf as [->|Hf].
  - left. rewrite decide_True by done. by left.
  - right. apply IH; [done|]. set_solver.
Qed.

Lemma fieldDiagnostics_duplicate fields name : forall seen i j fi fj,
  i < j -> fields !! i = Some fi -> fields !! j = Some fj ->
  Field_Name fi = Field_Name fj ->
  In ("Model '" +:+ name +:+ "' field '" +:+ Field_Name fj +:+ "' is defined multiple times.")
     (fieldDiagnostics seen name fields).
Proof.
  induction fields as [|f fields IH]; intros seen i j fi fj Hij Hi Hj Hn; [done|].
  simpl. rewrite in_app_iff. right.
  destruct j as [|j]; [lia|]. simpl in Hj.
  destruct i as [|i]; simpl in Hi.
  - injection Hi as ->. apply fieldDiagnostics_seen.
    + apply list_elem_of_In. by eapply list_elem_of_lookup_2.
    + rewrite Hn. set_solver.
  - apply (IH _ i j fi fj); [lia|done..].
Qed.

(** X4.  [checkDuplicateFields] always returns.  Every field whose name
    an earlier field of the model carries records one diagnostic, so the
    number of diagnostics is the number of fields less the number of
    distinct names, and nothing is recorded exactly when the field names
    are pairwise distinct. *)
Theorem checkDuplicateFields_diagnostics (s : SchemaT) (m : Model) (g : Globals) :
  exists new,
    checkDuplicateFields s m g = Done (tt, record new g) /\
    (new = [] <-> NoDup (Field_Name <$> Model_Fields m)) /\
    length new + size (list_to_set (Field_Name <$> Model_Fields m) : gset string)
    = length (Model_Fields m) /\
    (forall i j fi fj,
       i < j -> Model_Fields m !! i = Some fi -> Model_Fields m !! j = Some fj ->
       Field_Name fi = Field_Name fj ->
       In ("Model '" +:+ Model_Name m +:+ "' field '" +:+ Field_Name fj
           +:+ "' is defined multiple times.") new).
Proof.
  exists (fieldDiagnostics ∅ (Model_Name m) (Model_Fields m)).
  split; [apply checkDuplicateFields_emits|]. split; [|split].
  - rewrite fieldDiagnostics_nil. split; [by intros [? _]|]. intros H. split; [done|].
    intros n _. set_solver.
  - pose proof (fieldDiagnostics_length (Model_Fields m) (Model_Name m) ∅) as H.
    rewrite size_empty in H.
    by replace (list_to_set (Field_Name <$> Model_Fields m) ∪ ∅)
      with (list_to_set (Field_Name <$> Model_Fields m) : gset string) in H by set_solver.
  - intros i j fi fj. apply fieldDiagnostics_duplicate.
Qed.

(** ** Checks that record nothing *)

Lemma flat_map_nil {A B} (f : A -> list B) (l : list A) :
  flat_map f l = [] <-> Forall (fun x => f x = []) l.
Proof.
  induction l as [|x l IH]; simpl; [done|].
  rewrite Forall_cons, <- IH. split; [by intros [? ?]%app_eq_nil|by intros [-> ->]].
Qed.

Lemma primaryKeyDiagnostics_nil m :
  primaryKeyDiagnostics m = [] <->
  exists pk,
    Model_PrimaryKey m = Some pk /\
    Forall (fun name => exists c, FindColumn m name = Some c /\ Column_Nullable c = false)
      (PrimaryKey_Columns pk).
Proof.
  unfold primaryKeyDiagnostics. destruct (Model_PrimaryKey m) as [pk|].
  - rewrite flat_map_nil. split.
    + intros H. exists pk. split; [done|]. eapply Forall_impl; [done|].
      intros name. unfold primaryKeyColumnDiagnostics.
      destruct (FindColumn m name) as [c|]; [|done].
      destruct (Column_Nullable c) eqn:E; [done|]. intros _. by exists c.
    + intros (pk' & [= <-] & H). eapply Forall_impl; [done|].
      intros name (c & Hc & Hn). unfold primaryKeyColumnDiagnostics. by rewrite Hc, Hn.
  - split; [done|]. by intros (pk & ? & _).
Qed.

Lemma constraintColumnDiagnostics_nil kind m columns names :
  flat_map (constraintColumnDiagnostics kind m columns) names = [] <->
  Forall (fun name => is_Some (FindColumn m name)) names.
Proof.
  rewrite flat_map_nil. apply Forall_iff. intros name.
  unfold constraintColumnDiagnostics. destruct (FindColumn m name); [|split; [done|]].
  - split; [by eexists|done].
  - by intros [? ?].
Qed.

Lemma indexDiagnostics_nil m l : forall seen,
  indexDiagnostics seen m l = [] <->
  NoDup (Index_Name <$> map (namedIndex m) l) /\
  (forall n, n ∈ Index_Name <$> map (namedIndex m) l -> n ∉ seen) /\
  Forall (fun f => Forall (fun name => is_Some (FindColumn m name)) (Index_Columns f)) l.
Proof.
  induction l as [|f l IH]; intros seen; simpl.
  - split; [|done]. intros _. split; [constructor|]. split; [|done].
    intros n Hn. by apply elem_of_nil in Hn.
  - rewrite Forall_cons, <- constraintColumnDiagnostics_nil. split.
    + intros [Hd [Hc Hrest]%app_eq_nil]%app_eq_nil. apply IH in Hrest as (Hnd & Hfree & Hall).
      destruct (decide (_ ∈ seen)) as [|Hf]; [done|]. split; [|split; [|done]].
      * constructor; [|done]. intros Hin. apply (Hfree _ Hin). set_solver.
      * intros n [->|Hin]%elem_of_cons; [done|]. specialize (Hfree _ Hin). set_solver.
    + intros (Hnd & Hfree & Hc & Hall). apply NoDup_cons in Hnd as [Hf Hnd].
      rewrite decide_False by (apply Hfree; by left). rewrite Hc. simpl. apply IH.
      split; [done|]. split; [|done]. intros n Hin. specialize (Hfree n ltac:(by right)).
      assert (n <> makeName (Model_Name m) (Index_Columns f) "idx") by (intros ->; done).
      set_solver.
Qed.

Lemma uniqueDiagnostics_nil m l : forall seen,
  uniqueDiagnostics seen m l = [] <->
  NoDup (Unique_Name <$> map (namedUnique m) l) /\
  (forall n, n ∈ Unique_Name <$> map (namedUnique m) l -> n ∉ seen) /\
  Forall (fun f => Forall (fun name => is_Some (FindColumn m name)) (Unique_Columns f)) l.
Proof.
  induction l as [|f l IH]; intros seen; simpl.
  - split; [|done]. intros _. split; [constructor|]. split; [|done].
    intros n Hn. by apply elem_of_nil in Hn.
  - rewrite Forall_cons, <- constraintColumnDiagnostics_nil. split.
    + intros [Hd [Hc Hrest]%app_eq_nil]%app_eq_nil. apply IH in Hrest as (Hnd & Hfree & Hall).
      destruct (decide (_ ∈ seen)) as [|Hf]; [done|]. split; [|split; [|done]].
      * constructor; [|done]. intros Hin. apply (Hfree _ Hin). set_solver.
      * intros n [->|Hin]%elem_of_cons; [done|]. specialize (Hfree _ Hin). set_solver.
    + intros (Hnd & Hfree & Hc & Hall). apply NoDup_cons in Hnd as [Hf Hnd].
      rewrite decide_False by (apply Hfree; by left). rewrite Hc. simpl. apply IH.
      split; [done|]. split; [|done]. intros n Hin. specialize (Hfree n ltac:(by right)).
      assert (n <> makeName (Model_Name m) (Unique_Columns f) "key") by (intros ->; done).
      set_solver.
Qed.

Lemma indexDiagnostics_same_name m l : forall seen i j fi fj,
  i < j -> l !! i = Some fi -> l !! j = Some fj ->
  makeName (Model_Name m) (Index_Columns fi) "idx"
  = makeName (Model_Name m) (Index_Columns fj) "idx" ->
  In (duplicateDiagnostic "index" m (Index_Columns fj)) (indexDiagnostics seen m l).
Proof.
  induction l as [|f l IH]; intros seen i j fi fj Hij Hi Hj Hc; [done|].
  simpl. rewrite !in_app_iff. right; right.
  destruct j as [|j]; [lia|]. simpl in Hj.
  destruct i as [|i]; simpl in Hi.
  - injection Hi as ->. apply indexDiagnostics_seen.
    + apply list_elem_of_In. by eapply list_elem_of_lookup_2.
    + rewrite <- Hc. set_solver.
  - apply (IH _ i j fi fj); [lia|done..].
Qed.

Lemma uniqueDiagnostics_same_name m l : forall seen i j fi fj,
  i < j -> l !! i = Some fi -> l !! j = Some fj ->
  makeName (Model_Name m) (Unique_Columns fi) "key"
  = makeName (Model_Name m) (Unique_Columns fj) "key" ->
  In (duplicateDiagnostic "unique" m (Unique_Columns fj)) (uniqueDiagnostics seen m l).
Proof.
  induction l as [|f l IH]; intros seen i j fi fj Hij Hi Hj Hc; [done|].
  simpl. rewrite !in_app_iff. right; right.
  destruct j as [|j]; [lia|]. simpl in Hj.
  destruct i as [|i]; simpl in Hi.
  - injection Hi as ->. apply uniqueDiagnostics_seen.
    + apply list_elem_of_In. by eapply list_elem_of_lookup_2.
    + rewrite <- Hc. set_solver.
  - apply (IH _ i j fi fj); [lia|done..].
Qed.

(** X5.  [checkPrimaryKey] records nothing exactly when the model has a
    primary key and every column it lists is found in the model and is
    not nullable; a primary key that lists no column passes. *)
Theorem checkPrimaryKey_silent_iff (s : SchemaT) (m : Model) (g : Globals) :
  (checkPrimaryKey s m g = Done (tt, g) <->
   exists pk,
     Model_PrimaryKey m = Some pk /\
     forall name, In name (PrimaryKey_Columns pk) ->
       exists c, FindColumn m name = Some c /\ Column_Nullable c = false) /\
  (Model_PrimaryKey m = Some (mkPrimaryKey []) -> checkPrimaryKey s m g = Done (tt, g)).
Proof.
  assert (checkPrimaryKey s m g = Done (tt, g) <-> primaryKeyDiagnostics m = []) as Hnil.
  { rewrite checkPrimaryKey_emits. split.
    - intros [= H]. by apply record_eq_nil in H.
    - intros ->. by rewrite record_nil. }
  split.
  - rewrite Hnil, primaryKeyDiagnostics_nil.
    split; intros (pk & Hpk & H); exists pk; (split; [done|]).
    + intros name Hin. rewrite Forall_forall in H. by apply H, list_elem_of_In.
    + apply Forall_forall. intros name Hin. by apply H, list_elem_of_In.
  - intros Hpk. apply Hnil, primaryKeyDiagnostics_nil. eexists. split; [done|]. constructor.
Qed.

(** X6.  [checkIndexes] records nothing exactly when the names it
    generates for the indexes of the model are pairwise distinct and every
    column an index lists is found in the model; [checkUniques] likewise.
    The generated name tells two indexes, or two unique constraints,
    apart only by the triple underscore join of their columns: one whose
    column list differs from that of an earlier one but has the same join
    is reported as defined multiple times. *)
Theorem checkIndexes_silent_iff (s : SchemaT) (m : Model) (g : Globals) :
  (forall named,
     checkIndexes s m g = Done (setIndexes m named, g) <->
     named = map (fun f => mkIndex (makeName (Model_Name m) (Index_Columns f) "idx")
                                   (Index_Columns f)) (Model_Indexes m) /\
     NoDup (Index_Name <$> named) /\
     forall f name, In f (Model_Indexes m) -> In name (Index_Columns f) ->
       is_Some (FindColumn m name)) /\
  (forall named,
     checkUniques s m g = Done (setUniques m named, g) <->
     named = map (fun f => mkUnique (makeName (Model_Name m) (Unique_Columns f) "key")
                                    (Unique_Columns f)) (Model_Uniques m) /\
     NoDup (Unique_Name <$> named) /\
     forall f name, In f (Model_Uniques m) -> In name (Unique_Columns f) ->
       is_Some (FindColumn m name)) /\
  (forall i j fi fj new named,
     i < j -> Model_Indexes m !! i = Some fi -> Model_Indexes m !! j = Some fj ->
     strings_Join (Index_Columns fi) "___" = strings_Join (Index_Columns fj) "___" ->
     checkIndexes s m g = Done (setIndexes m named, record new g) ->
     In ("Model '" +:+ Model_Name m +:+ "' index '" +:+ describeIndex (Index_Columns fj)
         +:+ "' is defined multiple times.") new) /\
  (forall i j fi fj new named,
     i < j -> Model_Uniques m !! i = Some fi -> Model_Uniques m !! j = Some fj ->
     strings_Join (Unique_Columns fi) "___" = strings_Join (Unique_Columns fj) "___" ->
     checkUniques s m g = Done (setUniques m named, record new g) ->
     In ("Model '" +:+ Model_Name m +:+ "' unique '" +:+ describeIndex (Unique_Columns fj)
         +:+ "' is defined multiple times.") new) /\
  (forall c1 c2 cs suffix,
     makeName (Model_Name m) (c1 :: c2 :: cs) suffix
     = makeName (Model_Name m) [strings_Join (c1 :: c2 :: cs) "___"] suffix).
Proof.
  split; [|split; [|split; [|split]]].
  - intros named. rewrite checkIndexes_emits. fold (namedIndex m). split.
    + intros [= Hn Hg]. apply record_eq_nil in Hg.
      subst named.
      apply indexDiagnostics_nil in Hg as (Hnd & _ & Hall).
      split; [done|]. split; [done|]. intros f name Hf Hname.
      rewrite Forall_forall in Hall. specialize (Hall f ltac:(by apply list_elem_of_In)).
      rewrite Forall_forall in Hall. by apply Hall, list_elem_of_In.
    + intros (-> & Hnd & Hall).
      assert (indexDiagnostics ∅ m (Model_Indexes m) = []) as ->; [|by rewrite record_nil].
      apply indexDiagnostics_nil. split; [done|]. split; [set_solver|].
      apply Forall_forall. intros f Hf. apply Forall_forall. intros name Hname.
      apply (Hall f); by apply list_elem_of_In.
  - intros named. rewrite checkUniques_emits. fold (namedUnique m). split.
    + intros [= Hn Hg]. apply record_eq_nil in Hg.
      subst named.
      apply uniqueDiagnostics_nil in Hg as (Hnd & _ & Hall).
      split; [done|]. split; [done|]. intros f name Hf Hname.
      rewrite Forall_forall in Hall. specialize (Hall f ltac:(by apply list_elem_of_In)).
      rewrite Forall_forall in Hall. by apply Hall, list_elem_of_In.
    + intros (-> & Hnd & Hall).
      assert (uniqueDiagnostics ∅ m (Model_Uniques m) = []) as ->; [|by rewrite record_nil].
      apply uniqueDiagnostics_nil. split; [done|]. split; [set_solver|].
      apply Forall_forall. intros f Hf. apply Forall_forall. intros name Hname.
      apply (Hall f); by apply list_elem_of_In.
  - intros i j fi fj new named Hij Hi Hj Hjoin. rewrite checkIndexes_emits. intros [= _ Hg].
    assert (new = indexDiagnostics ∅ m (Model_Indexes m)) as ->.
    { by apply app_inv_head in Hg. }
    apply (indexDiagnostics_same_name m _ ∅ i j fi fj); [done..|].
    unfold makeName. by rewrite Hjoin.
  - intros i j fi fj new named Hij Hi Hj Hjoin. rewrite checkUniques_emits. intros [= _ Hg].
    assert (new = uniqueDiagnostics ∅ m (Model_Uniques m)) as ->.
    { by apply app_inv_head in Hg. }
    apply (uniqueDiagnostics_same_name m _ ∅ i j fi fj); [done..|].
    unfold makeName. by rewrite Hjoin.
  - done.
Qed.

Lemma checkIndexes_silent_iff_witness :
  exists named new,
    checkIndexes NewSchema Sample.indexed Scenario.fresh
    = Done (setIndexes Sample.indexed named, record new Scenario.fresh) /\
    Index_Name <$> named = ["M___a___b___idx"; "M___a___b___idx"] /\
    In "Model 'M' index 'a___b' is defined multiple times." new.
Proof.
  eexists _, _. split; [vm_compute; reflexivity|]. split; [vm_compute; reflexivity|].
  refine (proj1 (proj2 (proj2 (checkIndexes_silent_iff NewSchema Sample.indexed Scenario.fresh)))
            0 1 (mkIndex "" ["a"; "b"]) (mkIndex "" ["a___b"]) _ _ _ _ _ _ _).
  - lia.
  - reflexivity.
  - reflexivity.
  - reflexivity.
  - vm_compute. reflexivity.
Defined.

(** ** What flattening adds to a model *)

Lemma grows_refl m : grows m m.
Proof. by repeat split. Qed.

Lemma grows_trans m1 m2 m3 : grows m1 m2 -> grows m2 m3 -> grows m1 m3.
Proof.
  intros (Hn & Hf & Hc & Hi & Hu & Hk & Hp) (Hn' & Hf' & Hc' & Hi' & Hu' & Hk' & Hp').
  split; [congruence|]. repeat split; try (by etrans). auto.
Qed.

Lemma flattened_refl prefix m : flattened prefix m m.
Proof. split; [apply grows_refl|done]. Qed.

Lemma flattened_trans prefix m1 m2 m3 :
  flattened prefix m1 m2 -> flattened prefix m2 m3 -> flattened prefix m1 m3.
Proof.
  intros (Hg & Hf & Hp) (Hg' & Hf' & Hp').
  split; [by eapply grows_trans|]. split; [auto|].
  intros Hne. by rewrite Hp', Hp.
Qed.

Lemma flattened_nested prefix name m m' :
  flattened (prefix +:+ name +:+ ".") m m' -> flattened prefix m m'.
Proof.
  intros (Hg & Hf & Hp). split; [done|]. split; [done|]. intros _. apply Hp.
  destruct prefix; [destruct name|]; done.
Qed.

Lemma dotFree_flattenNames names prefix : dotFree (flattenNames names prefix).
Proof.
  rewrite flattenNames_map. apply Forall_forall. intros n Hn.
  apply list_elem_of_In, in_map_iff in Hn as [x [<- _]].
  by rewrite <- undot_app, undot_hasDot.
Qed.

Lemma flattened_appendField m f : flattened "" m (appendField m f).
Proof.
  split; [|split; [|done]].
  - split; [done|]. repeat split; try done. by apply prefix_app_r.
  - by intros (Hc & Hp & Hi & Hu & Hk).
Qed.

Lemma flattened_appendColumn prefix m path t db nullable :
  flattened prefix m (appendColumn m (mkColumn (undot path) t db nullable)).
Proof.
  split; [|split; [|done]].
  - split; [done|]. repeat split; try done. by apply prefix_app_r.
  - intros (Hc & Hp & Hi & Hu & Hk). split; [|done].
    unfold dotFree. simpl. rewrite fmap_app. apply Forall_app. split; [done|].
    constructor; [|done]. apply undot_hasDot.
Qed.

Lemma flattened_setPrimaryKey prefix m names p :
  flattened prefix m (setPrimaryKey m (mkPrimaryKey (flattenNames names p))).
Proof.
  split; [|split; [|done]].
  - split; [done|]. repeat split; done.
  - intros (Hc & Hp & Hi & Hu & Hk). split; [done|]. split; [|done].
    intros pk [= <-]. apply dotFree_flattenNames.
Qed.

Lemma flattened_appendIndex prefix m names p :
  flattened prefix m (appendIndex m (mkIndex "" (flattenNames names p))).
Proof.
  split; [|split; [|done]].
  - split; [done|]. repeat split; try done. by apply prefix_app_r.
  - intros (Hc & Hp & Hi & Hu & Hk). split; [done|]. split; [done|]. split; [|done].
    simpl. apply Forall_app. split; [done|]. constructor; [|done]. apply dotFree_flattenNames.
Qed.

Lemma flattened_appendUnique prefix m names p :
  flattened prefix m (appendUnique m (mkUnique "" (flattenNames names p))).
Proof.
  split; [|split; [|done]].
  - split; [done|]. repeat split; try done. by apply prefix_app_r.
  - intros (Hc & Hp & Hi & Hu & Hk). split; [done|]. split; [done|]. split; [done|].
    split; [|done].
    simpl. apply Forall_app. split; [done|]. constructor; [|done]. apply dotFree_flattenNames.
Qed.

Lemma flattened_appendForeignKey prefix m path target :
  flattened prefix m
    (appendForeignKey m (mkForeignKey "" (Model_Name m) (undot path) target "")).
Proof.
  split; [|split; [|done]].
  - split; [done|]. repeat split; try done. by apply prefix_app_r.
  - intros (Hc & Hp & Hi & Hu & Hk). split; [done|]. split; [done|]. split; [done|].
    split; [done|].
    simpl. apply Forall_app. split; [done|]. constructor; [|done].
    split; [apply undot_hasDot|done].
Qed.

Section MakeModelAdds.

Variable rec : Model -> list ModelItem -> string -> bool -> M Model.

Variable s : SchemaT.

Hypothesis rec_flattened : forall m items prefix fn g m' g',
  rec m items prefix fn g = Done (m', g') -> flattened prefix m m'.

Lemma makeModelItem_flattened m i prefix fn g m' g' :
  makeModelItem rec s m i prefix fn g = Done (m', g') -> flattened prefix m m'.
Proof using rec_flattened.
  destruct i as [name typeName flags|names|names|names|columnName foreignModelName]; simpl.
  - unfold makeModelField. destruct (Types s !! typeName) as [t|] eqn:Et.
    + intros H. apply bind_Done_inv in H as (m1 & g1 & H1 & H).
      assert (flattened prefix m m1) as Hm1.
      { destruct (String.eqb_spec prefix "") as [->|Hne].
        - apply bind_Done_inv in H1 as (tags & g0 & Htags & [= <- <-]).
          apply flattened_appendField.
        - injection H1 as <- <-. apply flattened_refl. }
      apply (flattened_trans _ _ _ _ Hm1).
      destruct t as [n fields|b].
      * apply bind_Done_inv in H as (byName & g2 & [= <- <-] & H).
        destruct (te_info <$> typesByName g1 !! typeName) as [[items| ]|]; [|done|done].
        apply bind_Done_inv in H as (m2 & g2 & H2 & H).
        apply rec_flattened, flattened_nested in H2.
        apply (flattened_trans _ _ _ _ H2).
        destruct (isNullable flags); injection H as <- <-;
          [apply flattened_appendColumn|apply flattened_refl].
      * injection H as <- <-. apply flattened_appendColumn.
    + intros H. apply bind_Done_inv in H as ([] & g1 & [= <-] & [= <- <-]).
      apply flattened_refl.
  - intros H. apply bind_Done_inv in H as ([] & g1 & H1 & [= <- <-]).
    apply flattened_setPrimaryKey.
  - intros [= <- <-]. apply flattened_appendIndex.
  - intros [= <- <-]. apply flattened_appendUnique.
  - intros [= <- <-]. apply flattened_appendForeignKey.
Qed.

Lemma makeModelItems_flattened items m prefix fn g m' g' :
  makeModelItems rec s m items prefix fn g = Done (m', g') -> flattened prefix m m'.
Proof using rec_flattened.
  revert m g. induction items as [|i items IH]; intros m g; simpl.
  - intros [= <- <-]. apply flattened_refl.
  - intros H. apply bind_Done_inv in H as (m1 & g1 & H1 & H).
    apply makeModelItem_flattened in H1. apply IH in H. by eapply flattened_trans.
Qed.

Lemma makeModelItem_fields m i fn g m' g' :
  makeModelItem rec s m i "" fn g = Done (m', g') ->
  fieldSummary <$> Model_Fields m'
  = (fieldSummary <$> Model_Fields m) ++ option_list (declaredField s fn i).
Proof using rec_flattened.
  destruct i as [name typeName flags|names|names|names|columnName foreignModelName]; simpl.
  - unfold makeModelField. destruct (Types s !! typeName) as [t|] eqn:Et; simpl.
    + intros H. apply bind_Done_inv in H as (m1 & g1 & H1 & H).
      apply bind_Done_inv in H1 as (tags & g0 & Htags & [= <- <-]).
      assert (Model_Fields m' = Model_Fields (appendField m
                (mkField name t (isNullable flags || fn) tags))) as ->;
        [|simpl; by rewrite fmap_app].
      destruct t as [n fields|b].
      * apply bind_Done_inv in H as (byName & g2 & [= <- <-] & H).
        destruct (te_info <$> typesByName g0 !! typeName) as [[items| ]|]; [|done|done].
        apply bind_Done_inv in H as (m2 & g2 & H2 & H).
        apply rec_flattened in H2 as (_ & _ & Hf).
        rewrite <- Hf by (by destruct name).
        by destruct (isNullable flags); injection H as <- <-.
      * by injection H as <- <-.
    + intros H. apply bind_Done_inv in H as ([] & g1 & [= <-] & [= <- <-]).
      by rewrite app_nil_r.
  - intros H. apply bind_Done_inv in H as ([] & g1 & H1 & [= <- <-]). by rewrite app_nil_r.
  - intros [= <- <-]. by rewrite app_nil_r.
  - intros [= <- <-]. by rewrite app_nil_r.
  - intros [= <- <-]. by rewrite app_nil_r.
Qed.

Lemma makeModelItems_fields items m fn g m' g' :
  makeModelItems rec s m items "" fn g = Done (m', g') ->
  fieldSummary <$> Model_Fields m'
  = (fieldSummary <$> Model_Fields m) ++ omap (declaredField s fn) items.
Proof using rec_flattened.
  revert m g. induction items as [|i items IH]; intros m g; simpl.
  - intros [= <- <-]. by rewrite app_nil_r.
  - intros H. apply bind_Done_inv in H as (m1 & g1 & H1 & H).
    apply makeModelItem_fields in H1. apply IH in H. rewrite H, H1, <- app_assoc.
    f_equal. by destruct (declaredField s fn i).
Qed.

End MakeModelAdds.

Lemma makeModel_flattened fuel s m items prefix fn g m' g' :
  makeModel fuel s m items prefix fn g = Done (m', g') -> flattened prefix m m'.
Proof.
  revert m items prefix fn g m' g'.
  induction fuel as [|fuel IH]; intros m items prefix fn g m' g' H.
  - by apply makeModelItems_flattened in H.
  - by apply makeModelItems_flattened in H.
Qed.

(** X7.  [makeModel] only adds to the model it is given: the name is
    kept; the fields, columns, indexes, unique constraints and foreign
    keys the model held come first, unchanged, in those of the result; a
    primary key is replaced at most, never removed.  It only adds to the
    recorded diagnostics and leaves [typesByName] alone. *)
Theorem makeModel_only_appends fuel s m items prefix forceNullable g m' g' :
  makeModel fuel s m items prefix forceNullable g = Done (m', g') ->
  Model_Name m' = Model_Name m /\
  Model_Fields m `prefix_of` Model_Fields m' /\
  Model_Columns m `prefix_of` Model_Columns m' /\
  Model_Indexes m `prefix_of` Model_Indexes m' /\
  Model_Uniques m `prefix_of` Model_Uniques m' /\
  Model_ForeignKeys m `prefix_of` Model_ForeignKeys m' /\
  (is_Some (Model_PrimaryKey m) -> is_Some (Model_PrimaryKey m')) /\
  validationErrors g `prefix_of` validationErrors g' /\
  typesByName g' = typesByName g.
Proof.
  intros H. pose proof (makeModel_flattened _ _ _ _ _ _ _ _ _ H) as [Hg _].
  destruct Hg as (? & ? & ? & ? & ? & ? & ?). repeat (split; [done|]). split.
  - by eapply logger_extends; [apply logger_makeModel|].
  - by eapply keepsTypes_makeModel.
Qed.

Lemma makeModel_only_appends_witness :
  exists m' g',
    makeModel 0 Sample.registry Sample.keyed
      [field "n" "int" []; primaryKey ["n"]; field "x" "text" []] "" false
      Sample.declared = Done (m', g') /\
    Model_Name m' = "M" /\
    [mkColumn "id" boolType "boolean" false] `prefix_of` Model_Columns m' /\
    Model_PrimaryKey m' = Some (mkPrimaryKey ["n"]) /\
    validationErrors g'
    = ["Model 'M' has multiple primary key definitions";
       "Model 'M' field 'x' references unknown type 'text'"].
Proof.
  eexists _, _. split; [vm_compute; reflexivity|].
  destruct (makeModel_only_appends 0 Sample.registry Sample.keyed
              [field "n" "int" []; primaryKey ["n"]; field "x" "text" []] "" false
              Sample.declared _ _ ltac:(vm_compute; reflexivity)) as (Hn & _ & Hc & _).
  split; [exact Hn|]. split; [exact Hc|]. split; reflexivity.
Defined.

(** X8.  [makeModel] appends fields only at the top level.  Called with
    the empty prefix it appends one field for every field item whose type
    is registered, in the order of the items, with the name of the item,
    the registered type and the nullability of the item; the members of
    a struct type add none.  Called with another prefix it leaves the
    fields as they are. *)
Theorem makeModel_fields fuel s m items prefix forceNullable g m' g' :
  makeModel fuel s m items prefix forceNullable g = Done (m', g') ->
  (prefix = "" ->
   fieldSummary <$> Model_Fields m'
   = (fieldSummary <$> Model_Fields m) ++ omap (declaredField s forceNullable) items) /\
  (prefix <> "" -> Model_Fields m' = Model_Fields m).
Proof.
  intros H. split.
  - intros ->. destruct fuel as [|fuel]; simpl in H.
    + by apply makeModelItems_fields in H.
    + apply makeModelItems_fields in H; [done|]. intros. by eapply makeModel_flattened.
  - by apply makeModel_flattened in H as (_ & _ & Hf).
Qed.

Lemma makeModel_fields_witness :
  exists m' g',
    makeModel 1 Sample.registry (newModel "M")
      [field "p" "P" [nullFlag]; field "x" "text" []; field "n" "int" []] "" false
      Sample.declared = Done (m', g') /\
    Field_Name <$> Model_Fields m' = ["p"; "n"] /\
    Column_Name <$> Model_Columns m' = ["p__q"; "p"; "n"].
Proof.
  eexists _, _. split; [vm_compute; reflexivity|].
  pose proof (proj1 (makeModel_fields 1 Sample.registry (newModel "M")
                [field "p" "P" [nullFlag]; field "x" "text" []; field "n" "int" []] "" false
                Sample.declared _ _ ltac:(vm_compute; reflexivity)) eq_refl) as H.
  split; [|vm_compute; reflexivity].
  apply (f_equal (fmap (fun x => fst (fst x)))) in H. vm_compute in H. vm_compute. exact H.
Defined.

(** ** Registration *)

Lemma fold_insert_other {A V} (key : A -> string) (val : A -> V) l : forall (t : gmap string V) k,
  k ∉ key <$> l ->
  fold_left (fun t e => <[key e := val e]> t) l t !! k = t !! k.
Proof.
  induction l as [|e l IH]; intros t k Hk; simpl; [done|].
  rewrite fmap_cons, not_elem_of_cons in Hk. destruct Hk as [Hne Hk].
  rewrite IH by done. by rewrite lookup_insert_ne.
Qed.

Lemma fold_insert_last {A V} (key : A -> string) (val : A -> V) l1 e l2 (t : gmap string V) :
  key e ∉ key <$> l2 ->
  fold_left (fun t e => <[key e := val e]> t) (l1 ++ e :: l2) t !! key e = Some (val e).
Proof.
  intros Hk. rewrite fold_left_app. simpl. rewrite fold_insert_other by done.
  apply lookup_insert_eq.
Qed.

Lemma registerTypes_emits types : forall s g,
  exists new,
    registerTypes s types g
    = Done (setTypes s
              (fold_left (fun t e => <[te_name e := getType (te_info e) (te_name e)]> t)
                 types (Types s)),
            mkGlobals (validationErrors g ++ new)
              (fold_left (fun t e => <[te_name e := e]> t) types (typesByName g))) /\
    (new = [] <->
     NoDup (te_name <$> types) /\ forall n, n ∈ te_name <$> types -> Types s !! n = None) /\
    length new
    + size (fold_left (fun t e => <[te_name e := getType (te_info e) (te_name e)]> t)
              types (Types s))
    = size (Types s) + length types.
Proof.
  induction types as [|t types IH]; intros s g.
  - exists []. simpl. rewrite app_nil_r. split; [by destruct s, g|]. split; [|lia].
    split; [|done]. intros _. split; [constructor|]. intros n Hn. by apply elem_of_nil in Hn.
  - simpl. unfold bind.
    set (d := match Types s !! te_name t with
              | Some _ => ["Type '" +:+ te_name t +:+ "' is defined multiple times"]
              | None => []
              end).
    assert ((match Types s !! te_name t with
             | Some _ => addError ("Type '" +:+ te_name t +:+ "' is defined multiple times")
             | None => ret tt
             end) g = Done (tt, record d g)) as ->.
    { subst d. destruct (Types s !! te_name t); [done|]. unfold ret. by rewrite record_nil. }
    simpl.
    edestruct IH as (new & -> & Hnil & Hlen). exists (d ++ new). simpl in *.
    rewrite <- app_assoc. split; [done|]. split.
    + split.
      * intros [Hd ->]%app_eq_nil. destruct (proj1 Hnil eq_refl) as [Hnd Hfree].
        assert (Types s !! te_name t = None) as Hk by (subst d; by destruct (Types s !! _)).
        split.
        -- constructor; [|done]. intros Hin. specialize (Hfree _ Hin).
           by rewrite lookup_insert_eq in Hfree.
        -- intros k' [->|Hin]%elem_of_cons; [done|].
           specialize (Hfree _ Hin). destruct (decide (te_name t = k')) as [<-|Hne]; [done|].
           by rewrite lookup_insert_ne in Hfree.
      * intros [Hnd Hfree]. apply NoDup_cons in Hnd as [Hk Hnd].
        assert (d = []) as -> by (subst d; by rewrite (Hfree (te_name t)) by (by left)).
        simpl. apply Hnil. split; [done|]. intros k' Hin.
        rewrite lookup_insert_ne by (intros <-; done). apply Hfree. by right.
    + rewrite length_app. simpl in Hlen. subst d. destruct (Types s !! te_name t) eqn:E; simpl.
      * rewrite map_size_insert_Some in Hlen by done. lia.
      * rewrite map_size_insert_None in Hlen by done. lia.
Qed.

(** X9.  The first loop of [Schema] always returns.  It registers every
    declared type under its name, in the registry of the schema and in
    [typesByName]; of several declarations of one name the last one
    stands in both, and a name that is not declared is not registered.
    Every declaration whose name is already registered records one
    diagnostic, so nothing is recorded exactly when the declared names are
    pairwise distinct.  The models of the schema are not touched. *)
Theorem registerTypes_last_declaration_stands (types : list typeEntry) (g : Globals) :
  exists s' new byName,
    registerTypes NewSchema types g = Done (s', mkGlobals (validationErrors g ++ new) byName) /\
    Models s' = ∅ /\
    (forall l1 e l2,
       types = l1 ++ e :: l2 -> te_name e ∉ te_name <$> l2 ->
       Types s' !! te_name e = Some (getType (te_info e) (te_name e)) /\
       byName !! te_name e = Some e) /\
    (forall n,
       n ∉ te_name <$> types ->
       Types s' !! n = None /\ byName !! n = typesByName g !! n) /\
    (new = [] <-> NoDup (te_name <$> types)) /\
    length new + size (Types s') = length types.
Proof.
  destruct (registerTypes_emits types NewSchema g) as (new & Hrun & Hnil & Hlen).
  eexists _, new, _. split; [exact Hrun|]. split; [done|]. split; [|split; [|split]].
  - intros l1 e l2 -> He. simpl. split.
    + by apply (fold_insert_last te_name (fun e => getType (te_info e) (te_name e))).
    + by apply (fold_insert_last te_name (fun e => e)).
  - intros n Hn. simpl. split.
    + by rewrite (fold_insert_other te_name (fun e => getType (te_info e) (te_name e))).
    + by rewrite (fold_insert_other te_name (fun e => e)).
  - rewrite Hnil. split; [by intros [? _]|]. intros H. split; [done|]. intros n _.
    apply lookup_empty.
  - simpl in *. by rewrite map_size_empty in Hlen.
Qed.

(** ** The registration of the models *)

Section MakeModelRegistry.

Variable rec rec' : Model -> list ModelItem -> string -> bool -> M Model.

Variable s s' : SchemaT.

Hypothesis same_types : Types s = Types s'.

Hypothesis same_rec : forall m items prefix fn g, rec m items prefix fn g = rec' m items prefix fn g.

Lemma makeModelItem_registry m i prefix fn g :
  makeModelItem rec s m i prefix fn g = makeModelItem rec' s' m i prefix fn g.
Proof using same_types same_rec.
  destruct i as [name typeName flags|names|names|names|columnName foreignModelName]; simpl;
    [|done..].
  unfold makeModelField. rewrite <- same_types.
  destruct (Types s !! typeName) as [t|]; [|done].
  apply bind_ext; [done|]. intros m1 g1. destruct t as [n fields|b]; [|done].
  apply bind_ext; [done|]. intros byName g2.
  destruct (te_info <$> byName !! typeName) as [[items| ]|]; [|done|done].
  apply bind_ext; [|done]. intros g3. apply same_rec.
Qed.

Lemma makeModelItems_registry items m prefix fn g :
  makeModelItems rec s m items prefix fn g = makeModelItems rec' s' m items prefix fn g.
Proof using same_types same_rec.
  revert m g. induction items as [|i items IH]; intros m g; simpl; [done|].
  apply bind_ext; [intros; apply makeModelItem_registry|]. intros; apply IH.
Qed.

End MakeModelRegistry.

Lemma makeModel_registry fuel s s' m items prefix fn g :
  Types s = Types s' ->
  makeModel fuel s m items prefix fn g = makeModel fuel s' m items prefix fn g.
Proof.
  intros Ht. revert m items prefix fn g.
  induction fuel as [|fuel IH]; intros m items prefix fn g; simpl;
    by apply makeModelItems_registry.
Qed.

Lemma makeModel_any_state fuel s m items prefix fn g m' g' :
  makeModel fuel s m items prefix fn g = Done (m', g') ->
  exists new,
    validationErrors g' = validationErrors g ++ new /\
    forall h, typesByName h = typesByName g ->
      makeModel fuel s m items prefix fn h = Done (m', record new h).
Proof.
  intros H. pose proof (keepsTypes_makeModel _ _ _ _ _ _ _ _ _ H) as Ht.
  rewrite (withErrors_split g), logger_makeModel in H.
  destruct (makeModel fuel s m items prefix fn (mkGlobals [] (typesByName g)))
    as [[m0 g0]| |] eqn:E; simpl in H; [|done|done].
  injection H as -> <-. exists (validationErrors g0). split; [done|].
  intros h Hh. rewrite (withErrors_split h), logger_makeModel, Hh, E. simpl.
  apply keepsTypes_makeModel in E. simpl in E.
  unfold withErrors, record. simpl. by rewrite app_nil_r, E.
Qed.




Lemma registerModels_step fuel s e rest g s' g' :
  registerModels fuel s (e :: rest) g = Done (s', g') ->
  exists m g2,
    makeModel fuel s (newModel (me_name e)) (me_items e) "" false
      (record (match Models s !! me_name e with
               | Some _ => [modelDiagnostic e]
               | None => []
               end) g)
    = Done (m, g2) /\
    Model_Name m = me_name e /\
    registerModels fuel (setModels s (<[me_name e := m]> (Models s))) rest g2 = Done (s', g').
Proof.
  simpl. intros H. apply bind_Done_inv in H as ([] & g1 & H1 & H).
  apply bind_Done_inv in H as (m & g2 & H2 & H).
  exists m, g2.
  assert (g1 = record (match Models s !! me_name e with
                       | Some _ => [modelDiagnostic e]
                       | None => []
                       end) g) as <-.
  { destruct (Models s !! me_name e); injection H1 as <-; [done|]. by rewrite record_nil. }
  split; [|split].
  - by rewrite <- H2; apply makeModel_registry.
  - by apply makeModel_flattened in H2 as [[Hn _] _].
  - rewrite <- H. f_equal. unfold setModels. simpl. f_equal. symmetry. apply insert_insert_eq.
Qed.

Lemma registerModels_seen fuel models : forall s g s' g' e,
  registerModels fuel s models g = Done (s', g') ->
  In e models -> is_Some (Models s !! me_name e) ->
  exists new, validationErrors g' = validationErrors g ++ new /\ In (modelDiagnostic e) new.
Proof.
  induction models as [|e0 rest IH]; intros s g s' g' e H He Hs; [done|].
  apply registerModels_step in H as (m & g2 & Hm & _ & H).
  apply makeModel_any_state in Hm as (n2 & Hn2 & _). simpl in Hn2.
  destruct He as [->|He].
  - destruct Hs as [m0 Hs]. rewrite Hs in Hn2.
    destruct (logger_extends _ _ _ _ (logger_registerModels _ _ _) H) as (n3 & Hn3).
    exists ([modelDiagnostic e] ++ n2 ++ n3). rewrite Hn3, Hn2, <- !app_assoc.
    split; [done|]. by left.
  - eapply IH in H as (new & Hnew & Hin); [|done|].
    + exists ((match Models s !! me_name e0 with
               | Some _ => [modelDiagnostic e0]
               | None => []
               end) ++ n2 ++ new).
      rewrite Hnew, Hn2, <- !app_assoc. split; [done|].
      rewrite !in_app_iff. by right; right.
    + simpl. destruct (decide (me_name e0 = me_name e)) as [->|Hne].
      * rewrite lookup_insert_eq. by eexists.
      * by rewrite lookup_insert_ne.
Qed.

Lemma registerModels_emits fuel models : forall s g s' g',
  registerModels fuel s models g = Done (s', g') ->
  Types s' = Types s /\
  typesByName g' = typesByName g /\
  (forall n, n ∉ me_name <$> models -> Models s' !! n = Models s !! n) /\
  (forall l1 e l2,
     models = l1 ++ e :: l2 -> me_name e ∉ me_name <$> l2 ->
     exists m new,
       Models s' !! me_name e = Some m /\
       Model_Name m = me_name e /\
       forall h, typesByName h = typesByName g ->
         makeModel fuel s (newModel (me_name e)) (me_items e) "" false h
         = Done (m, record new h)) /\
  exists new,
    validationErrors g' = validationErrors g ++ new /\
    (forall i j ei ej,
       i < j -> models !! i = Some ei -> models !! j = Some ej -> me_name ei = me_name ej ->
       In (modelDiagnostic ej) new) /\
    (new = [] ->
     NoDup (me_name <$> models) /\ forall n, n ∈ me_name <$> models -> Models s !! n = None).
Proof.
  induction models as [|e rest IH]; intros s g s' g' H.
  - injection H as <- <-. split; [done|]. split; [done|]. split; [done|]. split.
    + intros [|? ?] ? ? ?; done.
    + exists []. rewrite app_nil_r. split; [done|]. split; [done|]. intros _.
      split; [constructor|]. intros n Hn. by apply elem_of_nil in Hn.
  - pose proof H as Hfull.
    apply registerModels_step in H as (m & g2 & Hm & Hname & H).
    pose proof (keepsTypes_makeModel _ _ _ _ _ _ _ _ _ Hm) as Ht2. simpl in Ht2.
    destruct (makeModel_any_state _ _ _ _ _ _ _ _ _ Hm) as (n2 & Hn2 & Hany). simpl in Hn2, Hany.
    destruct (IH _ _ _ _ H) as (Hty & Hby & Hother & Hlast & new & Hnew & Hdup & Hnil).
    simpl in Hty, Hother, Hlast, Hnil.
    split; [done|]. split; [congruence|]. split; [|split].
    + intros n Hn. rewrite fmap_cons, not_elem_of_cons in Hn. destruct Hn as [Hne Hn].
      rewrite Hother by done. by rewrite lookup_insert_ne.
    + intros l1 e' l2 Hl He'. destruct l1 as [|e0 l1]; simpl in Hl.
      * injection Hl as <- <-. exists m, n2. split; [|split; [done|]].
        -- rewrite Hother by done. apply lookup_insert_eq.
        -- intros h Hh. apply Hany. done.
      * injection Hl as <- ->.
        destruct (Hlast l1 e' l2 eq_refl He') as (m' & new' & Hlook & Hn' & Hrun).
        exists m', new'. split; [done|]. split; [done|]. intros h Hh.
        rewrite <- (Hrun h) by congruence. by apply makeModel_registry.
    + exists ((match Models s !! me_name e with
               | Some _ => [modelDiagnostic e]
               | None => []
               end) ++ n2 ++ new).
      rewrite Hnew, Hn2, <- !app_assoc. split; [done|]. split.
      * intros i j ei ej Hij Hi Hj Hsame. destruct j as [|j]; [lia|]. simpl in Hj.
        destruct i as [|i]; simpl in Hi.
        -- injection Hi as ->.
           destruct (registerModels_seen _ _ _ _ _ _ ej H) as (new0 & Hnew0 & Hin).
           ++ apply list_elem_of_In. by eapply list_elem_of_lookup_2.
           ++ simpl. rewrite Hsame, lookup_insert_eq. by eexists.
           ++ rewrite Hnew in Hnew0. apply app_inv_head in Hnew0 as ->.
              rewrite !in_app_iff. by right; right.
        -- rewrite !in_app_iff. right; right. apply (Hdup i j ei ej); [lia|done..].
      * intros [Hd [-> ->]%app_eq_nil]%app_eq_nil.
        destruct (Hnil eq_refl) as [Hnd Hfree].
        assert (Models s !! me_name e = None) as Hk by (by destruct (Models s !! me_name e)).
        split.
        -- constructor; [|done]. intros Hin. specialize (Hfree _ Hin).
           by rewrite lookup_insert_eq in Hfree.
        -- intros k' [->|Hin]%elem_of_cons; [done|].
           specialize (Hfree _ Hin). destruct (decide (me_name e = k')) as [<-|Hne]; [done|].
           by rewrite lookup_insert_ne in Hfree.
Qed.

(** X10.  The third loop of [Schema] registers every declared model
    under its name.  Of several declarations of one name the last one
    stands, and every declaration after the first of its name records a
    diagnostic.  The model registered is the flattening of the items of
    that declaration alone, started from an empty model of that name: it
    does not depend on the other models, nor on the diagnostics recorded
    so far.  Models registered under other names, the type registry and
    [typesByName] are left as they were. *)
Theorem registerModels_last_declaration_stands fuel s models g s' g' :
  registerModels fuel s models g = Done (s', g') ->
  Types s' = Types s /\
  typesByName g' = typesByName g /\
  (forall n, n ∉ me_name <$> models -> Models s' !! n = Models s !! n) /\
  (forall l1 e l2,
     models = l1 ++ e :: l2 -> me_name e ∉ me_name <$> l2 ->
     exists m new,
       Models s' !! me_name e = Some m /\
       Model_Name m = me_name e /\
       forall h, typesByName h = typesByName g ->
         makeModel fuel s (newModel (me_name e)) (me_items e) "" false h
         = Done (m, record new h)) /\
  exists new,
    validationErrors g' = validationErrors g ++ new /\
    (forall i j ei ej,
       i < j -> models !! i = Some ei -> models !! j = Some ej -> me_name ei = me_name ej ->
       In ("Model '" +:+ me_name ej +:+ "' is defined multiple times") new) /\
    (new = [] -> NoDup (me_name <$> models)).
Proof.
  intros H. apply registerModels_emits in H as (Hty & Hby & Hother & Hlast & new & Hnew & Hdup & Hnil).
  repeat (split; [done|]). exists new. split; [done|]. split; [done|].
  intros Hn. by apply Hnil.
Qed.

Lemma registerModels_last_declaration_stands_witness :
  exists s' g' m,
    registerModels 0 Sample.registry
      [mkModelEntry "M" [field "a" "int" []]; mkModelEntry "M" [field "b" "int" []]]
      Sample.declared = Done (s', g') /\
    Types s' = Types Sample.registry /\
    Models s' !! "M" = Some m /\ Model_Name m = "M" /\
    Column_Name <$> Model_Columns m = ["b"] /\
    validationErrors g' = ["Model 'M' is defined multiple times"].
Proof.
  destruct (registerModels_last_declaration_stands 0 Sample.registry
              [mkModelEntry "M" [field "a" "int" []]; mkModelEntry "M" [field "b" "int" []]]
              Sample.declared _ _ ltac:(vm_compute; reflexivity))
    as (Hty & _ & _ & Hlast & _).
  destruct (Hlast [mkModelEntry "M" [field "a" "int" []]]
              (mkModelEntry "M" [field "b" "int" []]) [] eq_refl) as (m & new & Hm & Hn & Hrun).
  { simpl. apply not_elem_of_nil. }
  eexists _, _, m. split; [vm_compute; reflexivity|]. split; [exact Hty|]. split; [exact Hm|].
  split; [exact Hn|].
  specialize (Hrun Sample.declared eq_refl). vm_compute in Hrun. injection Hrun as <- _.
  split; reflexivity.
Defined.

(** ** The checks model by model *)

Lemma checked_Done s m m' e :
  checked s m = Done (m', e) <-> forall h, checkModel s m h = Done (m', record e h).
Proof.
  split.
  - intros H h. by rewrite checkModel_checked, H.
  - intros H. unfold checked. apply runLog_intro. intros g. by rewrite H.
Qed.

Lemma checkModels_each keys : forall s g s' g',
  NoDup keys -> checkModels s keys g = Done (s', g') ->
  Types s' = Types s /\
  pkView s' = pkView s /\
  typesByName g' = typesByName g /\
  validationErrors g' = validationErrors g ++ flat_map (modelDiagnostics s) keys /\
  (forall k, k ∉ keys -> Models s' !! k = Models s !! k) /\
  (forall k m, k ∈ keys -> Models s !! k = Some m ->
     exists m' new,
       checked s m = Done (m', new) /\ modelDiagnostics s k = new /\
       Models s' !! k = Some m').
Proof.
  induction keys as [|k rest IH]; intros s g s' g' Hnd H.
  - injection H as <- <-. simpl. rewrite app_nil_r. repeat (split; [done|]).
    intros k m Hk. by apply elem_of_nil in Hk.
  - apply NoDup_cons in Hnd as [Hk Hnd]. simpl in H.
    destruct (Models s !! k) as [m|] eqn:Em.
    + apply bind_Done_inv in H as (m1 & g1 & H1 & H).
      rewrite checkModel_checked in H1.
      destruct (checked s m) as [[m1' e1]| |] eqn:Ec; simpl in H1; [|done|done].
      injection H1 as -> <-.
      pose proof (pkView_checked s k m m1 Em (checked_sameButConstraints _ _ _ _ Ec)) as Hv.
      destruct (IH _ _ _ _ Hnd H) as (Hty & Hpk & Hby & Herr & Hother & Hin).
      simpl in Hty, Hby, Herr, Hother, Hin.
      assert (forall k', k' <> k ->
                modelDiagnostics (setModels s (<[k:=m1]> (Models s))) k' = modelDiagnostics s k')
        as Hdiag.
      { intros k' Hne. unfold modelDiagnostics. simpl. rewrite lookup_insert_ne by done.
        destruct (Models s !! k'); [|done]. by rewrite (checked_pkView _ s). }
      split; [done|]. split; [congruence|]. split; [done|]. split; [|split].
      * rewrite Herr, <- app_assoc. f_equal. simpl. unfold modelDiagnostics at 2.
        rewrite Em, Ec. f_equal. clear -Hk Hdiag.
        induction rest as [|k' rest IH]; [done|]. simpl.
        rewrite not_elem_of_cons in Hk. destruct Hk as [Hne Hk].
        rewrite Hdiag by done. by rewrite IH.
      * intros k' Hk'. rewrite not_elem_of_cons in Hk'. destruct Hk' as [Hne Hk'].
        rewrite Hother by done. by rewrite lookup_insert_ne.
      * intros k' m0 Hk' Hm0. destruct (decide (k' = k)) as [->|Hne].
        -- rewrite Em in Hm0. injection Hm0 as <-. exists m1, e1.
           split; [done|]. split; [unfold modelDiagnostics; by rewrite Em, Ec|].
           rewrite Hother by done. apply lookup_insert_eq.
        -- apply elem_of_cons in Hk' as [->|Hk']; [done|].
           destruct (Hin k' m0 Hk') as (m' & new & Hc & Hd & Hm').
           { by rewrite lookup_insert_ne. }
           exists m', new. rewrite (checked_pkView _ s) in Hc by done.
           split; [done|]. split; [|done]. by rewrite <- Hdiag.
    + destruct (IH _ _ _ _ Hnd H) as (Hty & Hpk & Hby & Herr & Hother & Hin).
      repeat (split; [done|]). split; [|split].
      * simpl. unfold modelDiagnostics at 1. by rewrite Em.
      * intros k' Hk'. rewrite not_elem_of_cons in Hk'. destruct Hk' as [Hne Hk']. by apply Hother.
      * intros k' m0 Hk' Hm0. apply elem_of_cons in Hk' as [->|Hk']; [congruence|].
        by apply Hin.
Qed.

(** X11.  The last loop of [Schema] checks every model on its own: the
    checks of one model do not depend on what the checks of the models
    visited before it recorded or changed.  When the loop returns, the
    diagnostics it adds are those of the visited models, model after
    model in the order of the visit; every visited model is replaced by
    its checked version, which has the same name, fields, columns and
    primary key; the type registry and [typesByName] are left alone. *)
Theorem checkModels_model_by_model keys s g s' g' :
  NoDup keys -> checkModels s keys g = Done (s', g') ->
  Types s' = Types s /\
  typesByName g' = typesByName g /\
  validationErrors g' = validationErrors g ++ flat_map (modelDiagnostics s) keys /\
  (forall k, k ∉ keys -> Models s' !! k = Models s !! k) /\
  (forall k m, k ∈ keys -> Models s !! k = Some m ->
     exists m' new,
       (forall h, checkModel s m h = Done (m', record new h)) /\
       modelDiagnostics s k = new /\
       Models s' !! k = Some m' /\
       Model_Name m' = Model_Name m /\ Model_Fields m' = Model_Fields m /\
       Model_Columns m' = Model_Columns m /\ Model_PrimaryKey m' = Model_PrimaryKey m).
Proof.
  intros Hnd H. apply checkModels_each in H as (Hty & _ & Hby & Herr & Hother & Hin); [|done].
  repeat (split; [done|]). intros k m Hk Hm.
  destruct (Hin k m Hk Hm) as (m' & new & Hc & Hd & Hm').
  exists m', new. split; [by apply checked_Done|]. split; [done|]. split; [done|].
  by apply checked_sameButConstraints in Hc.
Qed.

Lemma checkModels_model_by_model_witness :
  exists s' g',
    checkModels Sample.unkeyed ["B"; "A"] Scenario.fresh = Done (s', g') /\
    validationErrors g'
    = validationErrors Scenario.fresh
      ++ flat_map (modelDiagnostics Sample.unkeyed) ["B"; "A"] /\
    validationErrors g'
    = ["Model 'B' is missing a primary key"; "Model 'A' is missing a primary key"].
Proof.
  eexists _, _. split; [vm_compute; reflexivity|]. split; [|vm_compute; reflexivity].
  refine (proj1 (proj2 (proj2
            (checkModels_model_by_model ["B"; "A"] Sample.unkeyed Scenario.fresh _ _ _ _)))).
  - repeat constructor; set_solver.
  - vm_compute. reflexivity.
Defined.

(** ** A schema without diagnostics *)

Lemma emits_silent {A} (c : M A) a new g a' g' :
  emits c a new -> c g = Done (a', g') -> validationErrors g' = validationErrors g ->
  a' = a /\ new = [] /\ g' = g.
Proof.
  intros Hc H He. rewrite Hc in H. injection H as <- <-. simpl in He.
  assert (new = []) as ->.
  { apply (f_equal length) in He. rewrite length_app in He. destruct new; [done|simpl in He; lia]. }
  by rewrite record_nil.
Qed.

Lemma checkForeignKey_silent s m f g f' g' :
  checkForeignKey s m f g = Done (f', g') -> validationErrors g' = validationErrors g ->
  resolvedKey s m f f' /\ g' = g.
Proof.
  intros H He. unfold resolvedKey.
  destruct (Models s !! ForeignKey_ForeignModel f) as [m2|] eqn:Em.
  - destruct (Model_PrimaryKey m2) as [[[|c [|c' cs]]]|] eqn:Ek.
    + by rewrite (proj2 (checkForeignKey_panics s m f m2 g Em) Ek) in H.
    + destruct (emits_silent _ _ _ _ _ _ (checkForeignKey_resolves s m f m2 c Em Ek) H He)
        as (-> & Hnil & ->).
      split; [|done]. split.
      * unfold foreignKeyColumnDiagnostics in Hnil.
        by destruct (FindColumn m (ForeignKey_Column f)).
      * by exists m2, c.
    + destruct (emits_silent _ _ _ _ _ _ (checkForeignKey_multi_column s m f m2 c c' cs Em Ek) H He)
        as (_ & Hnil & _).
      by apply app_eq_nil in Hnil as [_ ?].
    + by rewrite (proj1 (checkForeignKey_panics s m f m2 g Em) Ek) in H.
  - destruct (emits_silent _ _ _ _ _ _ (checkForeignKey_unknown_model s m f Em) H He)
      as (_ & Hnil & _).
    by apply app_eq_nil in Hnil as [_ ?].
Qed.

Lemma extends_silent (e0 e1 e2 : list string) n1 n2 :
  e1 = e0 ++ n1 -> e2 = e1 ++ n2 -> e2 = e0 -> e1 = e0 /\ e2 = e1.
Proof.
  intros -> -> H. rewrite <- app_assoc in H.
  rewrite <- (app_nil_r e0) in H at 2. apply app_inv_head in H.
  apply app_eq_nil in H as [-> ->]. by rewrite !app_nil_r.
Qed.

Lemma checkForeignKeysFrom_silent s m l : forall g l' g',
  checkForeignKeysFrom s m l g = Done (l', g') -> validationErrors g' = validationErrors g ->
  Forall2 (resolvedKey s m) l l'.
Proof.
  induction l as [|f l IH]; intros g l' g' H He; simpl in H.
  - injection H as <- <-. constructor.
  - apply bind_Done_inv in H as (f' & g1 & Hf & H).
    apply bind_Done_inv in H as (l1 & g2 & Hl & [= <- <-]).
    destruct (logger_extends _ _ _ _ (logger_checkForeignKey s m f) Hf) as (n1 & Hn1).
    destruct (logger_extends _ _ _ _ (logger_checkForeignKeysFrom s m l) Hl) as (n2 & Hn2).
    destruct (extends_silent _ _ _ _ _ Hn1 Hn2 He) as [He1 He2].
    constructor; [by eapply checkForeignKey_silent|by eapply IH].
Qed.

Lemma app_silent {A} (l n : list A) : l ++ n = l -> n = [].
Proof.
  intros H. apply (f_equal length) in H. rewrite length_app in H.
  destruct n; [done|simpl in H; lia].
Qed.

Lemma checkModel_silent s m g m' g' :
  checkModel s m g = Done (m', g') -> validationErrors g' = validationErrors g ->
  Forall (fun f => ForeignKey_Model f = Model_Name m) (Model_ForeignKeys m) ->
  validModel s m'.
Proof.
  unfold checkModel. intros H He Hown.
  apply bind_Done_inv in H as ([] & g1 & H1 & H).
  apply bind_Done_inv in H as ([] & g2 & H2 & H).
  apply bind_Done_inv in H as (m1 & g3 & H3 & H).
  apply bind_Done_inv in H as (m2 & g4 & H4 & H).
  unfold checkForeignKeys in H.
  apply bind_Done_inv in H as (l' & g5 & H5 & [= <- <-]).
  rewrite checkDuplicateFields_emits in H1. injection H1 as <-.
  rewrite checkPrimaryKey_emits in H2. injection H2 as <-.
  rewrite checkIndexes_emits in H3. injection H3 as <- <-.
  rewrite checkUniques_emits in H4. injection H4 as <- <-.
  destruct (logger_extends _ _ _ _ (logger_checkForeignKeysFrom _ _ _) H5) as (n5 & Hn5).
  assert (validationErrors g5 = validationErrors (record (uniqueDiagnostics ∅
            (setIndexes m (map (namedIndex m) (Model_Indexes m)))
            (Model_Uniques (setIndexes m (map (namedIndex m) (Model_Indexes m)))))
            (record (indexDiagnostics ∅ m (Model_Indexes m))
               (record (primaryKeyDiagnostics m)
                  (record (fieldDiagnostics ∅ (Model_Name m) (Model_Fields m)) g)))))
    as He5.
  { rewrite Hn5 in He |- *. simpl in He |- *. rewrite <- !app_assoc in He.
    apply app_silent in He.
    apply app_eq_nil in He as [-> He]. apply app_eq_nil in He as [-> He].
    apply app_eq_nil in He as [-> He]. apply app_eq_nil in He as [-> ->].
    by rewrite !app_nil_r. }
  apply (checkForeignKeysFrom_silent _ _ _ _ _ _ H5) in He5 as Hkeys.
  rewrite Hn5 in He. simpl in He. rewrite <- !app_assoc in He. apply app_silent in He.
  apply app_eq_nil in He as [Hd1 He]. apply app_eq_nil in He as [Hd2 He].
  apply app_eq_nil in He as [Hd3 He]. apply app_eq_nil in He as [Hd4 _].
  apply fieldDiagnostics_nil in Hd1 as [Hfields _].
  apply primaryKeyDiagnostics_nil in Hd2 as (pk & Hpk & Hcols).
  apply indexDiagnostics_nil in Hd3 as (Hinames & _ & Hicols).
  apply uniqueDiagnostics_nil in Hd4 as (Hunames & _ & Hucols).
  simpl in Hunames, Hucols, Hkeys.
  unfold validModel. simpl. split; [done|]. split; [|split; [|split; [|split; [|split]]]].
  - exists pk. split; [done|]. intros name Hin. rewrite Forall_forall in Hcols.
    by apply Hcols, list_elem_of_In.
  - intros i [f [<- Hf]]%in_map_iff. split; [done|]. intros name Hname. simpl in Hname.
    rewrite Forall_forall in Hicols. specialize (Hicols f ltac:(by apply list_elem_of_In)).
    rewrite Forall_forall in Hicols. by apply Hicols, list_elem_of_In.
  - done.
  - intros u [f [<- Hf]]%in_map_iff. split; [done|]. intros name Hname. simpl in Hname.
    rewrite Forall_forall in Hucols. specialize (Hucols f ltac:(by apply list_elem_of_In)).
    rewrite Forall_forall in Hucols. by apply Hucols, list_elem_of_In.
  - done.
  - intros f' Hf'. apply list_elem_of_In, list_elem_of_lookup in Hf' as [i Hi].
    destruct (Forall2_lookup_r _ _ _ _ _ Hkeys Hi) as (f & Hf & Hcol & m2 & c & Hm2 & Hk & ->).
    simpl. split; [done|]. split; [|split; [done|by exists m2]].
    rewrite Forall_forall in Hown. by apply Hown, (list_elem_of_lookup_2 _ i).
Qed.

Lemma validModel_pkView s s' m : pkView s = pkView s' -> validModel s m -> validModel s' m.
Proof.
  intros Hv (Hf & Hpk & Hi & Hin & Hu & Hun & Hk). repeat (split; [done|]).
  intros f Hf'. destruct (Hk f Hf') as (Hname & Hown & Hcol & m2 & Hm2 & Hkey).
  repeat (split; [done|]).
  assert (Model_PrimaryKey <$> Models s' !! ForeignKey_ForeignModel f
          = Some (Some (mkPrimaryKey [ForeignKey_ForeignColumn f]))) as E.
  { unfold pkView in Hv. by rewrite <- lookup_fmap, <- Hv, lookup_fmap, Hm2; simpl; rewrite Hkey. }
  destruct (Models s' !! ForeignKey_ForeignModel f) as [m2'|]; [|done].
  exists m2'. split; [done|]. by injection E.
Qed.

Lemma last_occurrence {A} (key : A -> string) (l : list A) (k : string) :
  k ∈ key <$> l ->
  exists l1 e l2, l = l1 ++ e :: l2 /\ key e = k /\ k ∉ key <$> l2.
Proof.
  induction l as [|a l IH]; intros Hk; [by apply elem_of_nil in Hk|].
  destruct (decide (k ∈ key <$> l)) as [Hin|Hout].
  - destruct (IH Hin) as (l1 & e & l2 & -> & He & Hl2). by exists (a :: l1), e, l2.
  - rewrite fmap_cons in Hk. apply elem_of_cons in Hk as [->|Hk]; [|done].
    by exists [], a, l.
Qed.

Lemma flatNames_newModel name : flatNames (newModel name).
Proof. unfold flatNames, dotFree. simpl. by repeat split. Qed.

Section ErrorFree.

Variable CalculateRelationships : SchemaT -> SchemaT.

Variable fieldContext : string -> string.

Lemma registerAll_models fuel types models g s0 g0 :
  registerAll fieldContext fuel types models g = Done (s0, g0) ->
  (forall k, is_Some (Models s0 !! k) <-> k ∈ me_name <$> models) /\
  (forall k m, Models s0 !! k = Some m -> Model_Name m = k /\ flatNames m) /\
  exists new,
    validationErrors g0 = validationErrors g ++ new /\
    (new = [] -> NoDup (te_name <$> types) /\ NoDup (me_name <$> models)).
Proof.
  unfold registerAll. intros H.
  apply bind_Done_inv in H as ([] & ga & [= <-] & H).
  apply bind_Done_inv in H as (s1 & g1 & H1 & H).
  apply bind_Done_inv in H as (s2 & g2 & H2 & H).
  destruct (registerTypes_emits types NewSchema (mkGlobals (validationErrors g) ∅))
    as (n1 & H1' & Hnil1 & _).
  rewrite H1' in H1. injection H1 as <- <-. simpl in *.
  match type of H2 with
  | resolveAllTypes _ ?s _ ?g = _ =>
      destruct (resolveAllTypes_Done fieldContext types s g) as (s2' & g2' & H2' & Hm2 & _ & _)
  end.
  rewrite H2' in H2. injection H2 as <- <-.
  destruct (logger_extends _ _ _ _ (logger_resolveAllTypes fieldContext _ _) H2') as (n2 & Hn2).
  simpl in Hm2, Hn2.
  pose proof H as Hreg.
  apply registerModels_emits in H as (_ & _ & Hother & Hlast & n3 & Hn3 & _ & Hnil3).
  assert (forall k, k ∈ me_name <$> models ->
            exists m, Models s0 !! k = Some m /\ Model_Name m = k /\ flatNames m) as Hin.
  { intros k Hk. apply last_occurrence in Hk as (l1 & e & l2 & Hl & <- & Hl2).
    destruct (Hlast l1 e l2 Hl Hl2) as (m & new & Hm & Hname & Hrun).
    exists m. split; [done|]. split; [done|].
    specialize (Hrun g2' eq_refl). apply makeModel_flattened in Hrun as (_ & Hflat & _).
    apply Hflat, flatNames_newModel. }
  split; [|split].
  - intros k. split.
    + intros Hs. destruct (decide (k ∈ me_name <$> models)) as [|Hout]; [done|].
      rewrite Hother, Hm2 in Hs by done. simpl in Hs. rewrite lookup_empty in Hs.
      by destruct Hs.
    + intros Hk. destruct (Hin k Hk) as (m & -> & _). by eexists.
  - intros k m Hm. destruct (decide (k ∈ me_name <$> models)) as [Hk|Hout].
    + destruct (Hin k Hk) as (m0 & Hm0 & Hn & Hf). rewrite Hm in Hm0. by injection Hm0 as ->.
    + rewrite Hother, Hm2 in Hm by done. simpl in Hm. by rewrite lookup_empty in Hm.
  - exists (n1 ++ n2 ++ n3). rewrite Hn3, Hn2, <- !app_assoc. split; [done|].
    intros [-> [-> ->]%app_eq_nil]%app_eq_nil. split.
    + by apply Hnil1.
    + by apply Hnil3.
Qed.

(** X12.  A schema that [Schema] returns is sound.  When [Schema]
    returns a schema, no diagnostic is recorded, before or after; the
    declared type names are pairwise distinct and so are the declared
    model names; the schema handed to [CalculateRelationships] holds a
    model for exactly the declared names, each under its own name, and
    every model passes all the checks: distinct field names, a primary
    key on columns that are found and not nullable, named indexes and
    unique constraints with distinct names on columns that are found,
    and foreign keys on columns that are found, each resolved to the one
    column of the primary key of a model of the schema. *)
Theorem Schema_result_is_valid fuel rangeKeys types models g r e g' :
  visitsEachKeyOnce rangeKeys ->
  Schema CalculateRelationships fieldContext fuel rangeKeys types models g
  = Done ((Some r, e), g') ->
  e = None /\ validationErrors g = [] /\ validationErrors g' = [] /\
  NoDup (te_name <$> types) /\ NoDup (me_name <$> models) /\
  exists s,
    r = CalculateRelationships s /\
    (forall k, is_Some (Models s !! k) <-> k ∈ me_name <$> models) /\
    forall k m, Models s !! k = Some m -> Model_Name m = k /\ validModel s m.
Proof.
  intros Hrk H.
  apply Schema_Done_inv in H as (s & new & Hb & Hnew & Hr).
  unfold verdict in Hr. destruct (validationErrors g') as [|x errs] eqn:Eg'; [|done].
  injection Hr as -> ->. symmetry in Hnew. apply app_eq_nil in Hnew as [Eg _].
  split; [done|]. split; [done|]. split; [done|].
  unfold buildSchema in Hb. apply bind_Done_inv in Hb as (s0 & g0 & H0 & Hc).
  destruct (registerAll_models _ _ _ _ _ _ H0) as (Hdom & Hmodels & n0 & Hn0 & Hnil0).
  destruct (Hrk (Models s0)) as [Hnd Hkeys].
  destruct (checkModels_each _ _ _ _ _ Hnd Hc) as (_ & Hpk & _ & Herr & Hother & Hin).
  rewrite Eg', Hn0, Eg in Herr. simpl in Herr. symmetry in Herr.
  apply app_eq_nil in Herr as [-> Hquiet].
  destruct (Hnil0 eq_refl) as [Htypes Hnames]. split; [done|]. split; [done|].
  rewrite flat_map_nil, Forall_forall in Hquiet.
  assert (forall k m0, Models s0 !! k = Some m0 ->
            exists m, Models s !! k = Some m /\ Model_Name m = k /\ validModel s m) as Hvalid.
  { intros k m0 Hm0.
    assert (k ∈ rangeKeys (Models s0)) as Hk by (apply Hkeys; by eexists).
    destruct (Hin k m0 Hk Hm0) as (m & newk & Hck & Hd & Hm).
    rewrite (Hquiet k Hk) in Hd. subst newk.
    destruct (Hmodels k m0 Hm0) as [Hname (_ & _ & _ & _ & Hown)].
    exists m. split; [done|]. split.
    - apply checked_sameButConstraints in Hck as (Hn & _). congruence.
    - apply (validModel_pkView s0); [done|].
      pose proof (proj1 (checked_Done _ _ _ _) Hck g0) as Hrun. rewrite record_nil in Hrun.
      apply (checkModel_silent _ _ _ _ _ Hrun); [done|].
      eapply Forall_impl; [done|]. by intros f [_ ?]. }
  assert (forall k, is_Some (Models s !! k) <-> is_Some (Models s0 !! k)) as Hsame.
  { intros k. split.
    - intros Hs. destruct (decide (k ∈ rangeKeys (Models s0))) as [Hk|Hk]; [by apply Hkeys|].
      by rewrite Hother in Hs.
    - intros [m0 Hm0]. destruct (Hvalid k m0 Hm0) as (m & -> & _). by eexists. }
  exists s. split; [done|]. split.
  - intros k. by rewrite Hsame.
  - intros k m Hm. destruct (proj1 (Hsame k) ltac:(by eexists)) as [m0 Hm0].
    destruct (Hvalid k m0 Hm0) as (m1 & Hm1 & Hn & Hv). rewrite Hm in Hm1.
    by injection Hm1 as <-.
Qed.

End ErrorFree.

Lemma Schema_result_is_valid_witness :
  exists r g',
    Schema (fun s => s) Scenario.ctx 0 canonicalKeys Scenario.typesA Scenario.modelsA
      Scenario.fresh = Done ((Some r, None), g') /\
    NoDup (me_name <$> Scenario.modelsA) /\
    forall k m, Models r !! k = Some m -> Model_Name m = k /\ validModel r m.
Proof.
  eexists _, _. split; [vm_compute; reflexivity|].
  destruct (Schema_result_is_valid (fun s => s) Scenario.ctx 0 canonicalKeys
              Scenario.typesA Scenario.modelsA Scenario.fresh _ _ _
              canonicalKeys_visits ltac:(vm_compute; reflexivity))
    as (_ & _ & _ & _ & Hnd & s & Hs & _ & Hvalid).
  split; [exact Hnd|]. rewrite Hs. exact Hvalid.
Defined.

(** ** Names *)

Lemma checkForeignKeysFrom_columns s m l : forall g l' g',
  checkForeignKeysFrom s m l g = Done (l', g') ->
  Forall2 (fun f f' => ForeignKey_Column f' = ForeignKey_Column f /\
                       ForeignKey_Model f' = ForeignKey_Model f) l l'.
Proof.
  induction l as [|f l IH]; intros g l' g' H; simpl in H.
  - injection H as <- <-. constructor.
  - apply bind_Done_inv in H as (f' & g1 & Hf & H).
    apply bind_Done_inv in H as (l1 & g2 & Hl & [= <- <-]).
    constructor; [|by eapply IH].
    unfold checkForeignKey in Hf. apply bind_Done_inv in Hf as ([] & g0 & _ & Hf). simpl in Hf.
    destruct (Models s !! ForeignKey_ForeignModel f) as [m2|].
    + destruct (Model_PrimaryKey m2) as [pk|]; [|done].
      apply bind_Done_inv in Hf as ([] & g3 & _ & Hf).
      destruct (PrimaryKey_Columns pk); [done|]. by injection Hf as <- <-.
    + apply bind_Done_inv in Hf as ([] & g3 & _ & Hf). by injection Hf as <- <-.
Qed.

(** X13.  No name that [makeModel] writes into a model holds a dot: when
    the column names and the column names listed by the primary key, the
    indexes, the unique constraints and the foreign keys of the model
    hold none before the call, they hold none after it; and every foreign
    key it appends carries the name of the model.  The checks keep it so. *)
Theorem makeModel_names_without_dots fuel s m items prefix forceNullable g m' g' :
  makeModel fuel s m items prefix forceNullable g = Done (m', g') ->
  flatNames m ->
  flatNames m' /\
  forall s1 g1 m1 g1', checkModel s1 m' g1 = Done (m1, g1') -> flatNames m1.
Proof.
  intros H Hm. apply makeModel_flattened in H as (_ & Hflat & _).
  specialize (Hflat Hm). split; [done|]. clear -Hflat.
  intros s1 g1 m1 g1' H. destruct Hflat as (Hc & Hp & Hi & Hu & Hk).
  unfold checkModel in H.
  apply bind_Done_inv in H as ([] & g2 & _ & H).
  apply bind_Done_inv in H as ([] & g3 & _ & H).
  apply bind_Done_inv in H as (m2 & g4 & H3 & H).
  apply bind_Done_inv in H as (m3 & g5 & H4 & H).
  unfold checkForeignKeys in H.
  apply bind_Done_inv in H as (l' & g6 & H5 & [= <- <-]).
  rewrite checkIndexes_emits in H3. injection H3 as <- <-.
  rewrite checkUniques_emits in H4. injection H4 as <- <-.
  apply checkForeignKeysFrom_columns in H5. simpl in H5.
  unfold flatNames. simpl. split; [done|]. split; [done|]. split; [|split].
  - apply Forall_forall. intros i Hin.
    apply list_elem_of_In, in_map_iff in Hin as [f [<- Hf]]. simpl.
    rewrite Forall_forall in Hi. by apply Hi, list_elem_of_In.
  - apply Forall_forall. intros u Hin.
    apply list_elem_of_In, in_map_iff in Hin as [f [<- Hf]]. simpl.
    rewrite Forall_forall in Hu. by apply Hu, list_elem_of_In.
  - apply Forall_forall. intros f' Hf'. apply list_elem_of_lookup in Hf' as [i Hi'].
    destruct (Forall2_lookup_r _ _ _ _ _ H5 Hi') as (f & Hf & -> & ->).
    rewrite Forall_forall in Hk. by apply Hk, (list_elem_of_lookup_2 _ i).
Qed.

Lemma makeModel_names_without_dots_witness :
  exists m' g',
    makeModel 1 Sample.registry (newModel "M")
      [field "p.x" "P" [nullFlag]; primaryKey ["p.x.q"]; foreignKey "p.x.q" "N"] "" false
      Sample.declared = Done (m', g') /\
    flatNames m' /\
    Column_Name <$> Model_Columns m' = ["p__x__q"; "p__x"] /\
    Model_PrimaryKey m' = Some (mkPrimaryKey ["p__x__q"]).
Proof.
  eexists _, _. split; [vm_compute; reflexivity|].
  split; [|split; vm_compute; reflexivity].
  refine (proj1 (makeModel_names_without_dots 1 Sample.registry (newModel "M")
                   [field "p.x" "P" [nullFlag]; primaryKey ["p.x.q"]; foreignKey "p.x.q" "N"]
                   "" false Sample.declared _ _ _ _)).
  - vm_compute. reflexivity.
  - apply flatNames_newModel.
Defined.

(** ** Column names that collide *)

Lemma append_longer (a t : string) : t <> "" -> a <> a +:+ t.
Proof.
  intros Ht. induction a as [|c a IH]; [done|].
  rewrite append_cons. by intros [= H].
Qed.

(** X14.  Column names are not checked for collisions.  A member [b] of
    a struct-typed field [a] and a top-level field named [a__b] are
    flattened to two columns of one and the same name, and the model
    passes every check: the fields are distinct, and a primary key on that
    name finds the first of the two columns. *)
Theorem colliding_column_names_pass fuel s g name a b tS tT n fs bt :
  Types s !! tS = Some (TStruct n fs) ->
  te_info <$> typesByName g !! tS = Some (structType [field b tT []]) ->
  Types s !! tT = Some (TBase bt) ->
  exists m',
    makeModel (S fuel) s (newModel name)
      [field a tS []; field (a +:+ "__" +:+ b) tT []; primaryKey [a +:+ "__" +:+ b]]
      "" false g = Done (m', g) /\
    Field_Name <$> Model_Fields m' = [a; a +:+ "__" +:+ b] /\
    Column_Name <$> Model_Columns m'
    = [undot a +:+ "__" +:+ undot b; undot a +:+ "__" +:+ undot b] /\
    forall s', checkModel s' m' g = Done (m', g).
Proof.
  intros HS Hby HT.
  assert (forall m p fn h,
            String.eqb p "" = false ->
            makeModel fuel s m [field b tT []] p fn h
            = Done (appendColumn m (baseColumn (p +:+ b) bt (false || fn)), h)) as Hrec.
  { intros m p fn h Hp. destruct fuel; simpl; unfold makeModelField, bind; rewrite HT, Hp;
      done. }
  set (c := undot a +:+ "__" +:+ undot b).
  exists (mkModel name
            [mkField a (TStruct n fs) false ∅; mkField (a +:+ "__" +:+ b) (TBase bt) false ∅]
            [mkColumn c bt (TypeDB bt) false; mkColumn c bt (TypeDB bt) false]
            (Some (mkPrimaryKey [c])) [] [] []).
  split; [|split; [done|split; [done|]]].
  - simpl. unfold makeModelField, bind. rewrite HS. simpl. rewrite Hby, Hrec by (by destruct a).
    simpl. rewrite HT. simpl.
    unfold setPrimaryKey, appendColumn, appendField, baseColumn, flattenNames. simpl.
    change ("" +:+ a +:+ ".") with (a +:+ ".").
    change ("" +:+ a +:+ "__" +:+ b) with (a +:+ "__" +:+ b).
    rewrite !undot_app. simpl. by rewrite <- append_assoc.
  - intros s'. unfold checkModel, bind.
    rewrite checkDuplicateFields_emits.
    assert (fieldDiagnostics ∅ name
              [mkField a (TStruct n fs) false ∅;
               mkField (a +:+ "__" +:+ b) (TBase bt) false ∅] = []) as Hd1.
    { apply fieldDiagnostics_nil. split; [|set_solver]. simpl.
      apply NoDup_cons. split; [|apply NoDup_singleton].
      rewrite list_elem_of_singleton. by apply append_longer. }
    cbn [Model_Name Model_Fields]. rewrite Hd1, record_nil.
    rewrite checkPrimaryKey_emits.
    match goal with
    | |- context [primaryKeyDiagnostics ?m] =>
        assert (primaryKeyDiagnostics m = []) as ->
    end.
    { apply primaryKeyDiagnostics_nil. eexists. split; [done|]. simpl.
      constructor; [|done]. eexists.
      split; [unfold FindColumn; simpl; by rewrite String.eqb_refl|done]. }
    rewrite record_nil, checkIndexes_emits. cbv beta iota.
    rewrite checkUniques_emits. simpl. by rewrite !record_nil.
Qed.

Lemma colliding_column_names_pass_witness :
  exists m',
    makeModel 1 Sample.registry (newModel "M")
      [field "p" "P" []; field "p__q" "int" []; primaryKey ["p__q"]] "" false
      Sample.declared = Done (m', Sample.declared) /\
    Column_Name <$> Model_Columns m' = ["p__q"; "p__q"] /\
    checkModel Sample.registry m' Sample.declared = Done (m', Sample.declared).
Proof.
  destruct (colliding_column_names_pass 0 Sample.registry Sample.declared "M" "p" "q"
              "P" "int" "P" []
              (mkBaseTypeNullable "int" (mkTypeGo "" "int") (mkTypeGo "null" "Int") "integer"))
    as (m' & Hrun & _ & Hcols & Hcheck); [vm_compute; reflexivity..|].
  exists m'. split; [exact Hrun|]. split; [exact Hcols|]. apply Hcheck.
Defined.

(** ** The order of the visit and the panics of the checks *)

Lemma panicsOnKeys_ret {A} (a : A) : panicsOnKeys (ret a).
Proof. done. Qed.

Lemma panicsOnKeys_addError msg : panicsOnKeys (addError msg).
Proof. done. Qed.

Lemma panicsOnKeys_bind {A B} (c : M A) (k : A -> M B) :
  panicsOnKeys c -> (forall a, panicsOnKeys (k a)) -> panicsOnKeys (bind c k).
Proof.
  intros Hc Hk g. unfold bind. specialize (Hc g).
  destruct (c g) as [[a g1]| |]; [apply Hk|done|done].
Qed.

Lemma panicsOnKeys_emits {A} (c : M A) a new : emits c a new -> panicsOnKeys c.
Proof. intros H g. by rewrite H. Qed.

Lemma panicsOnKeys_checkForeignKey s m f : panicsOnKeys (checkForeignKey s m f).
Proof.
  unfold checkForeignKey. apply panicsOnKeys_bind.
  { destruct (FindColumn _ _); [apply panicsOnKeys_ret|apply panicsOnKeys_addError]. }
  intros _. simpl. destruct (Models s !! ForeignKey_ForeignModel f) as [m2|].
  - destruct (Model_PrimaryKey m2) as [pk|]; [|intros g; by left].
    apply panicsOnKeys_bind.
    { destruct (_ =? _)%nat; [apply panicsOnKeys_ret|apply panicsOnKeys_addError]. }
    intros _. destruct (PrimaryKey_Columns pk); [intros g; by right|apply panicsOnKeys_ret].
  - apply panicsOnKeys_bind; [apply panicsOnKeys_addError|intros; apply panicsOnKeys_ret].
Qed.

Lemma panicsOnKeys_checkForeignKeysFrom s m l : panicsOnKeys (checkForeignKeysFrom s m l).
Proof.
  induction l as [|f l IH]; simpl; [apply panicsOnKeys_ret|].
  apply panicsOnKeys_bind; [apply panicsOnKeys_checkForeignKey|]. intros f'.
  apply panicsOnKeys_bind; [apply IH|intros; apply panicsOnKeys_ret].
Qed.

Lemma panicsOnKeys_checkModel s m : panicsOnKeys (checkModel s m).
Proof.
  unfold checkModel.
  apply panicsOnKeys_bind; [eapply panicsOnKeys_emits, checkDuplicateFields_emits|intros _].
  apply panicsOnKeys_bind; [eapply panicsOnKeys_emits, checkPrimaryKey_emits|intros _].
  apply panicsOnKeys_bind; [eapply panicsOnKeys_emits, checkIndexes_emits|intros m1].
  apply panicsOnKeys_bind; [eapply panicsOnKeys_emits, checkUniques_emits|intros m2].
  unfold checkForeignKeys.
  apply panicsOnKeys_bind; [apply panicsOnKeys_checkForeignKeysFrom|intros; apply panicsOnKeys_ret].
Qed.

Lemma panicsOnKeys_checkModels keys : forall s, panicsOnKeys (checkModels s keys).
Proof.
  induction keys as [|k keys IH]; intros s; simpl; [apply panicsOnKeys_ret|].
  destruct (Models s !! k); [|apply IH].
  apply panicsOnKeys_bind; [apply panicsOnKeys_checkModel|intros; apply IH].
Qed.

Lemma safeKeys_true s l :
  safeKeys s l = true <->
  forall f m2, In f l -> Models s !! ForeignKey_ForeignModel f = Some m2 ->
    exists c cs, Model_PrimaryKey m2 = Some (mkPrimaryKey (c :: cs)).
Proof.
  unfold safeKeys. rewrite forallb_forall. split.
  - intros H f m2 Hf Hm2. specialize (H f Hf). unfold keylessTarget in H. rewrite Hm2 in H.
    destruct (Model_PrimaryKey m2) as [[[|c cs]]|]; [done| |done]. by exists c, cs.
  - intros H f Hf. unfold keylessTarget.
    destruct (Models s !! ForeignKey_ForeignModel f) as [m2|] eqn:Em; [|done].
    destruct (H f m2 Hf Em) as (c & cs & ->). done.
Qed.

Section VisitOrder.

Variable CalculateRelationships : SchemaT -> SchemaT.

Variable fieldContext : string -> string.

(** X15.  Whether [Schema] panics is decided by the foreign keys alone.
    Once the models are flattened, [Schema] returns, with a schema or with
    the aggregate error, exactly when every foreign key whose target
    model is registered finds there a primary key with at least one
    column; otherwise it panics on a nil primary key or on an empty column
    list, whatever else the declarations hold and whatever the order of
    the visit. *)
Theorem Schema_panics_exactly_when fuel rangeKeys types models g s0 g0 :
  visitsEachKeyOnce rangeKeys ->
  registerAll fieldContext fuel types models g = Done (s0, g0) ->
  (returns (Schema CalculateRelationships fieldContext fuel rangeKeys types models g) <->
   forall k m f m2,
     Models s0 !! k = Some m -> In f (Model_ForeignKeys m) ->
     Models s0 !! ForeignKey_ForeignModel f = Some m2 ->
     exists c cs, Model_PrimaryKey m2 = Some (mkPrimaryKey (c :: cs))) /\
  (~ returns (Schema CalculateRelationships fieldContext fuel rangeKeys types models g) ->
   Schema CalculateRelationships fieldContext fuel rangeKeys types models g
   = Panic "invalid memory address or nil pointer dereference" \/
   Schema CalculateRelationships fieldContext fuel rangeKeys types models g
   = Panic "index out of range [0] with length 0").
Proof.
  intros Hrk H0. split.
  - rewrite (Schema_returns_iff _ _ _ _ _ _ _ _ _ Hrk H0). split.
    + intros H k m f m2 Hm Hf Hm2. specialize (H k m Hm). rewrite safeKeys_true in H.
      by apply (H f m2).
    + intros H k m Hm. apply safeKeys_true. intros f m2. by apply (H k m).
  - intros Hnot. rewrite Schema_build in Hnot |- *. unfold buildSchema, bind in Hnot |- *.
    rewrite H0 in Hnot |- *.
    pose proof (panicsOnKeys_checkModels (rangeKeys (Models s0)) s0 g0) as Hp.
    destruct (checkModels s0 (rangeKeys (Models s0)) g0) as [[s1 g1]|msg|]; [|by destruct Hp as [-> | ->]; [left|right]|done].
    destruct Hnot. by eexists.
Qed.

(** X16.  The order in which the models are visited changes neither
    whether [Schema] returns, nor the schema it returns, nor which
    diagnostics are recorded: two visits record the same diagnostics, in
    a possibly different order. *)
Theorem Schema_order_of_visit fuel rk1 rk2 types models g :
  visitsEachKeyOnce rk1 -> visitsEachKeyOnce rk2 ->
  (returns (Schema CalculateRelationships fieldContext fuel rk1 types models g) <->
   returns (Schema CalculateRelationships fieldContext fuel rk2 types models g)) /\
  forall r1 g1,
    Schema CalculateRelationships fieldContext fuel rk1 types models g = Done (r1, g1) ->
    exists r2 g2,
      Schema CalculateRelationships fieldContext fuel rk2 types models g = Done (r2, g2) /\
      fst r2 = fst r1 /\
      validationErrors g1 ≡ₚ validationErrors g2 /\
      typesByName g2 = typesByName g1.
Proof.
  intros Hrk1 Hrk2. split.
  - destruct (registerAll fieldContext fuel types models g) as [[s0 g0]|msg|] eqn:E0.
    + by rewrite (Schema_returns_iff _ _ _ _ _ _ _ _ _ Hrk1 E0),
        (Schema_returns_iff _ _ _ _ _ _ _ _ _ Hrk2 E0).
    + rewrite !Schema_build. unfold buildSchema, bind. rewrite E0. done.
    + rewrite !Schema_build. unfold buildSchema, bind. rewrite E0. done.
  - intros r1 g1 H. apply Schema_Done_inv in H as (s & _ & Hb & _ & ->).
    destruct (buildSchema_again fieldContext _ _ _ _ _ _ _ _ Hrk1 Hrk2 Hb g)
      as (new & new' & Hnew & Hperm & Hb2).
    eexists _, _. rewrite Schema_build, Hb2. split; [done|]. simpl. split; [|split; [|done]].
    + rewrite Hnew. apply (Permutation_app_head (validationErrors g)) in Hperm.
      unfold verdict.
      destruct (validationErrors g ++ new) as [|x l],
        (validationErrors g ++ new') as [|x' l']; try done.
      * by apply Permutation_nil_l in Hperm.
      * by apply Permutation_nil_r in Hperm.
    + rewrite Hnew. by apply Permutation_app_head.
Qed.

End VisitOrder.

Lemma Schema_panics_exactly_when_witness :
  Schema (fun s => s) Scenario.ctx 0 canonicalKeys
    Scenario.typesA Scenario.modelsNoKey Scenario.fresh
  = Panic "invalid memory address or nil pointer dereference" \/
  Schema (fun s => s) Scenario.ctx 0 canonicalKeys
    Scenario.typesA Scenario.modelsNoKey Scenario.fresh
  = Panic "index out of range [0] with length 0".
Proof.
  refine (proj2 (Schema_panics_exactly_when (fun s => s) Scenario.ctx 0 canonicalKeys
                   Scenario.typesA Scenario.modelsNoKey Scenario.fresh _ _
                   canonicalKeys_visits _) _).
  - vm_compute. reflexivity.
  - intros [a H]. vm_compute in H. discriminate H.
Defined.

Lemma Schema_order_of_visit_witness :
  exists r1 g1 r2 g2,
    Schema (fun s => s) Scenario.ctx 0 canonicalKeys
      Scenario.typesA Sample.modelsUnkeyed Scenario.fresh = Done (r1, g1) /\
    Schema (fun s => s) Scenario.ctx 0 Scenario.reverseKeys
      Scenario.typesA Sample.modelsUnkeyed Scenario.fresh = Done (r2, g2) /\
    validationErrors g1
    = ["Model 'A' is missing a primary key"; "Model 'B' is missing a primary key"] /\
    validationErrors g2
    = ["Model 'B' is missing a primary key"; "Model 'A' is missing a primary key"] /\
    fst r2 = fst r1 /\
    validationErrors g1 ≡ₚ validationErrors g2.
Proof.
  eexists _, _.
  edestruct (proj2 (Schema_order_of_visit (fun s => s) Scenario.ctx 0
                      canonicalKeys Scenario.reverseKeys
                      Scenario.typesA Sample.modelsUnkeyed Scenario.fresh
                      canonicalKeys_visits reverseKeys_visits))
    as (r2 & g2 & Hrun & Hfst & Hperm & _); [vm_compute; reflexivity|].
  exists r2, g2. split; [vm_compute; reflexivity|]. split; [exact Hrun|].
  split; [reflexivity|]. split; [|split; [exact Hfst|exact Hperm]].
  vm_compute in Hrun. injection Hrun as _ <-. reflexivity.
Defined.

(** ** Items that are passed over *)

Lemma makeModel_cons_unknown fuel s m name typeName flags rest prefix fn g :
  Types s !! typeName = None ->
  makeModel fuel s m (field name typeName flags :: rest) prefix fn g
  = makeModel fuel s m rest prefix fn
      (record ["Model '" +:+ Model_Name m +:+ "' field '" +:+ (prefix +:+ name)
               +:+ "' references unknown type '" +:+ typeName +:+ "'"] g).
Proof.
  intros Ht. destruct fuel; simpl; unfold makeModelField, bind; by rewrite Ht.
Qed.

Lemma makeModel_record fuel s m items prefix fn g m' g' :
  makeModel fuel s m items prefix fn g = Done (m', g') ->
  exists new,
    g' = record new g /\
    forall h, typesByName h = typesByName g ->
      makeModel fuel s m items prefix fn h = Done (m', record new h).
Proof.
  intros H. destruct (makeModel_any_state _ _ _ _ _ _ _ _ _ H) as (new & _ & Hany).
  exists new. split; [|done]. rewrite (Hany g eq_refl) in H. by injection H.
Qed.

(** X17.  [makeModel] passes over a field whose type is not registered:
    it records one diagnostic for it and goes on with the items that
    follow.  The model it returns is the one it returns without that
    item, and so are the other diagnostics, before and after. *)
Theorem makeModel_skips_unknown_type fuel s m l1 name typeName flags l2 prefix fn g m' g' :
  Types s !! typeName = None ->
  makeModel fuel s m (l1 ++ field name typeName flags :: l2) prefix fn g = Done (m', g') ->
  exists before after,
    makeModel fuel s m (l1 ++ l2) prefix fn g = Done (m', record (before ++ after) g) /\
    g' = record (before
                 ++ ["Model '" +:+ Model_Name m +:+ "' field '" +:+ (prefix +:+ name)
                     +:+ "' references unknown type '" +:+ typeName +:+ "'"]
                 ++ after) g.
Proof.
  intros Ht H. rewrite makeModel_app in H.
  apply bind_Done_inv in H as (m1 & g1 & H1 & H2).
  rewrite makeModel_cons_unknown in H2 by done.
  pose proof (makeModel_flattened _ _ _ _ _ _ _ _ _ H1) as [[Hname _] _].
  apply makeModel_record in H1 as (before & -> & H1).
  apply makeModel_record in H2 as (after & -> & H2).
  exists before, after. split.
  - rewrite makeModel_app. unfold bind. rewrite (H1 g eq_refl).
    rewrite (H2 (record before g)) by done. by rewrite record_record.
  - by rewrite !record_record, Hname.
Qed.

Lemma makeModel_skips_unknown_type_witness :
  exists m' before after,
    makeModel 0 Sample.registry (newModel "M")
      ([field "a" "int" []] ++ [field "b" "int" []]) "" false Sample.declared
    = Done (m', record (before ++ after) Sample.declared) /\
    makeModel 0 Sample.registry (newModel "M")
      ([field "a" "int" []] ++ field "x" "text" [] :: [field "b" "int" []]) "" false
      Sample.declared
    = Done (m', record (before
                        ++ ["Model 'M' field 'x' references unknown type 'text'"]
                        ++ after) Sample.declared).
Proof.
  pose proof (fun m' g' H =>
    makeModel_skips_unknown_type 0 Sample.registry (newModel "M")
      [field "a" "int" []] "x" "text" [] [field "b" "int" []] "" false
      Sample.declared m' g' ltac:(vm_compute; reflexivity) H) as Hskip.
  edestruct Hskip as (before & after & Hrun & Hg); [vm_compute; reflexivity|].
  eexists _, before, after. split; [exact Hrun|].
  refine (eq_trans _ (f_equal (fun x => Done (_, x)) Hg)). vm_compute. reflexivity.
Defined.

(** ** The order of the type declarations *)

Lemma sameUpToOrder_trans {A} (o1 o2 o3 : outcome (A * Globals)) :
  sameUpToOrder o1 o2 -> sameUpToOrder o2 o3 -> sameUpToOrder o1 o3.
Proof.
  destruct o1 as [[a1 g1]| |], o2 as [[a2 g2]| |], o3 as [[a3 g3]| |]; simpl; try done.
  - intros (-> & Hp & Ht) (-> & Hp' & Ht'). split; [done|]. split; [by etrans|congruence].
  - congruence.
Qed.

Lemma logger_sameUpToOrder {A} (c : M A) g g' :
  logger c ->
  validationErrors g ≡ₚ validationErrors g' -> typesByName g = typesByName g' ->
  sameUpToOrder (c g) (c g').
Proof.
  intros Hc Hp Ht. rewrite (withErrors_split g), (withErrors_split g'), !Hc, Ht.
  destruct (c _) as [[a h]| |]; simpl; [|done|done].
  split; [done|]. split; [|done]. by apply Permutation_app_tail.
Qed.

Lemma bind_sameUpToOrder {A B} (c c' : M A) (k k' : A -> M B) g g' :
  sameUpToOrder (c g) (c' g') ->
  (forall a h h',
     validationErrors h ≡ₚ validationErrors h' -> typesByName h = typesByName h' ->
     sameUpToOrder (k a h) (k' a h')) ->
  sameUpToOrder (bind c k g) (bind c' k' g').
Proof.
  intros Hc Hk. unfold bind.
  destruct (c g) as [[a h]| |], (c' g') as [[a' h']| |]; simpl in Hc; try done.
  destruct Hc as (-> & Hp & Ht). by apply Hk.
Qed.

Lemma fold_insert_elem {A V} (key : A -> string) (val : A -> V) l e (t : gmap string V) :
  NoDup (key <$> l) -> e ∈ l ->
  fold_left (fun t e => <[key e := val e]> t) l t !! key e = Some (val e).
Proof.
  intros Hnd He. apply list_elem_of_split in He as (l1 & l2 & ->).
  apply fold_insert_last. rewrite fmap_app, fmap_cons in Hnd.
  apply NoDup_app in Hnd as (_ & _ & Hnd). by apply NoDup_cons in Hnd as [? _].
Qed.

Lemma fold_insert_perm {A V} (key : A -> string) (val : A -> V) l l' (t : gmap string V) :
  l ≡ₚ l' -> NoDup (key <$> l) ->
  fold_left (fun t e => <[key e := val e]> t) l t
  = fold_left (fun t e => <[key e := val e]> t) l' t.
Proof.
  intros Hp Hnd. apply map_eq. intros k.
  destruct (decide (k ∈ key <$> l)) as [Hk|Hk].
  - apply list_elem_of_fmap in Hk as (e & -> & He).
    rewrite (fold_insert_elem key val l e) by done.
    rewrite (fold_insert_elem key val l' e); [done| |by rewrite <- Hp].
    by rewrite <- Hp.
  - rewrite !fold_insert_other; [done| |done]. by rewrite <- Hp.
Qed.

Section TypeOrder.

Variable CalculateRelationships : SchemaT -> SchemaT.

Variable fieldContext : string -> string.

Lemma resolveRef_dom s s' tname name context g :
  (forall n, is_Some (Types s !! n) <-> is_Some (Types s' !! n)) ->
  resolveRef s tname name context g = resolveRef s' tname name context g.
Proof.
  intros Hd. unfold resolveRef. specialize (Hd name).
  destruct (Types s !! name), (Types s' !! name); try done.
  - by destruct (proj1 Hd ltac:(by eexists)).
  - by destruct (proj2 Hd ltac:(by eexists)).
Qed.

Lemma resolveItems_dom s s' tname items : forall g,
  (forall n, is_Some (Types s !! n) <-> is_Some (Types s' !! n)) ->
  resolveItems fieldContext s tname items g = resolveItems fieldContext s' tname items g.
Proof.
  induction items as [|[name typeName flags| | | |] items IH]; intros g Hd; simpl;
    try by apply IH.
  - done.
  - apply bind_ext; [intros; by apply resolveRef_dom|].
    intros r g1. apply bind_ext; [intros; by apply IH|done].
Qed.

Lemma resolveItems_emits s tname items :
  exists refs d, emits (resolveItems fieldContext s tname items) refs d.
Proof.
  induction items as [|[name typeName flags| | | |] items (refs & d & IH)]; simpl;
    try by exists refs, d.
  - exists [], []. apply emits_ret.
  - unfold resolveRef. destruct (Types s !! typeName).
    + eexists _, _. eapply emits_bind; [apply emits_ret|].
      eapply emits_bind_quiet; [apply IH|apply emits_ret].
    + eexists _, _. eapply emits_bind.
      { eapply emits_bind; [apply emits_addError|apply emits_ret]. }
      eapply emits_bind_quiet; [apply IH|apply emits_ret].
Qed.

Lemma putRefs_nil s name : putRefs s name [] = s.
Proof.
  unfold putRefs. destruct (Types s !! name) as [[n fields|b]|] eqn:E; [|done|done].
  rewrite app_nil_r, insert_id by done. by destruct s.
Qed.

Lemma resolveTypes_putRefs s t :
  exists refs d,
    emits (resolveTypes fieldContext s t) (putRefs s (te_name t) refs) d /\
    forall s', (forall n, is_Some (Types s !! n) <-> is_Some (Types s' !! n)) ->
      emits (resolveTypes fieldContext s' t) (putRefs s' (te_name t) refs) d.
Proof.
  unfold resolveTypes. destruct (te_info t) as [items|].
  - destruct (resolveItems_emits s (te_name t) items) as (refs & d & He).
    exists refs, d.
    assert (forall s', (forall n, is_Some (Types s !! n) <-> is_Some (Types s' !! n)) ->
              emits (refs <- resolveItems fieldContext s' (te_name t) items;;
                     match Types s' !! te_name t with
                     | Some (TStruct n fields) =>
                         ret (setTypes s' (<[te_name t:=TStruct n (fields ++ refs)]> (Types s')))
                     | _ => ret s'
                     end) (putRefs s' (te_name t) refs) d) as Hall.
    { intros s' Hd. eapply emits_bind_quiet.
      - intros g. rewrite <- (resolveItems_dom s s') by done. apply He.
      - unfold putRefs. destruct (Types s' !! te_name t) as [[n fields|b]|]; apply emits_ret. }
    split; [by apply Hall|done].
  - exists [], []. split; [|intros s' _]; rewrite putRefs_nil; apply emits_ret.
Qed.

Lemma putRefs_dom s name refs n :
  is_Some (Types s !! n) <-> is_Some (Types (putRefs s name refs) !! n).
Proof.
  unfold putRefs. destruct (Types s !! name) as [[n0 fields|b]|] eqn:E; [|done|done].
  simpl. destruct (decide (name = n)) as [<-|Hne].
  - rewrite lookup_insert_eq, E. split; by eexists.
  - by rewrite lookup_insert_ne.
Qed.

Lemma putRefs_comm s n1 r1 n2 r2 :
  n1 <> n2 -> putRefs (putRefs s n1 r1) n2 r2 = putRefs (putRefs s n2 r2) n1 r1.
Proof.
  intros Hne. unfold putRefs.
  destruct (Types s !! n1) as [[k1 f1|b1]|] eqn:E1, (Types s !! n2) as [[k2 f2|b2]|] eqn:E2;
    simpl; rewrite ?lookup_insert_ne, ?E1, ?E2 by done; try done.
  simpl. unfold setTypes. simpl. f_equal. by apply insert_insert_ne.
Qed.

Lemma resolveAllTypes_perm l l' :
  l ≡ₚ l' -> NoDup (te_name <$> l) ->
  forall s g g',
    validationErrors g ≡ₚ validationErrors g' -> typesByName g = typesByName g' ->
    sameUpToOrder (resolveAllTypes fieldContext s l g) (resolveAllTypes fieldContext s l' g').
Proof.
  intros Hp. induction Hp as [|x l l' Hp IH|x y l|l1 l2 l3 Hp1 IH1 Hp2 IH2];
    intros Hnd s g g' He Ht.
  - done.
  - simpl. rewrite fmap_cons in Hnd. apply NoDup_cons in Hnd as [_ Hnd].
    apply bind_sameUpToOrder.
    + by apply logger_sameUpToOrder; [apply logger_resolveTypes|..].
    + intros s1 h h' Hh Hth. by apply IH.
  - rewrite !fmap_cons in Hnd. apply NoDup_cons in Hnd as [Hxy _].
    rewrite not_elem_of_cons in Hxy. destruct Hxy as [Hxy _].
    destruct (resolveTypes_putRefs s x) as (rx & dx & Hx & Hx').
    destruct (resolveTypes_putRefs s y) as (ry & dy & Hy & Hy').
    simpl. unfold bind.
    rewrite Hy, (Hx' (putRefs s (te_name y) ry)) by (intros; apply putRefs_dom).
    rewrite Hx, (Hy' (putRefs s (te_name x) rx)) by (intros; apply putRefs_dom).
    rewrite (putRefs_comm s (te_name y) ry (te_name x) rx) by done.
    apply logger_sameUpToOrder; [apply logger_resolveAllTypes| |done].
    simpl. rewrite <- !app_assoc, He. apply Permutation_app_head, Permutation_app_comm.
  - eapply sameUpToOrder_trans.
    + by apply (IH1 Hnd s g g).
    + apply IH2; [|done..]. by rewrite <- Hp1.
Qed.

Lemma registerAll_distinct fuel types models g :
  NoDup (te_name <$> types) ->
  registerAll fieldContext fuel types models g
  = bind (resolveAllTypes fieldContext
            (setTypes NewSchema
               (fold_left (fun t e => <[te_name e := getType (te_info e) (te_name e)]> t)
                  types ∅)) types)
      (fun s => registerModels fuel s models)
      (mkGlobals (validationErrors g) (fold_left (fun t e => <[te_name e := e]> t) types ∅)).
Proof.
  intros Hnd. unfold registerAll. unfold bind at 1. simpl. unfold bind at 1.
  destruct (registerTypes_emits types NewSchema (mkGlobals (validationErrors g) ∅))
    as (n1 & -> & Hn1 & _).
  assert (n1 = []) as ->.
  { apply Hn1. split; [done|]. intros n _. apply lookup_empty. }
  simpl. by rewrite app_nil_r.
Qed.

Lemma registerAll_perm fuel types types' models g :
  types ≡ₚ types' -> NoDup (te_name <$> types) ->
  sameUpToOrder (registerAll fieldContext fuel types models g)
                (registerAll fieldContext fuel types' models g).
Proof.
  intros Hp Hnd. rewrite !registerAll_distinct by (done || by rewrite <- Hp).
  rewrite <- (fold_insert_perm te_name (fun e => getType (te_info e) (te_name e)) types types')
    by done.
  rewrite <- (fold_insert_perm te_name (fun e => e) types types') by done.
  apply bind_sameUpToOrder.
  - by apply resolveAllTypes_perm.
  - intros s h h' Hh Hth. by apply logger_sameUpToOrder; [apply logger_registerModels|..].
Qed.

(** X18.  The order of the type declarations does not matter.  When the
    declared type names are pairwise distinct, [Schema] on the
    declarations in another order ends the same way: with the same panic,
    or by returning the same schema, or by failing on the same
    diagnostics, recorded in a possibly different order. *)
Theorem Schema_order_of_types fuel rangeKeys types types' models g :
  types ≡ₚ types' -> NoDup (te_name <$> types) ->
  sameUpToOrder (buildSchema fieldContext fuel rangeKeys types models g)
                (buildSchema fieldContext fuel rangeKeys types' models g) /\
  forall r g1,
    Schema CalculateRelationships fieldContext fuel rangeKeys types models g = Done (r, g1) ->
    exists r' g1',
      Schema CalculateRelationships fieldContext fuel rangeKeys types' models g
      = Done (r', g1') /\
      fst r' = fst r /\
      validationErrors g1 ≡ₚ validationErrors g1' /\
      typesByName g1' = typesByName g1.
Proof.
  intros Hp Hnd.
  assert (sameUpToOrder (buildSchema fieldContext fuel rangeKeys types models g)
                        (buildSchema fieldContext fuel rangeKeys types' models g)) as Hsame.
  { unfold buildSchema. apply bind_sameUpToOrder; [by apply registerAll_perm|].
    intros s h h' Hh Hth. by apply logger_sameUpToOrder; [apply logger_checkModels|..]. }
  split; [done|]. intros r g1 H.
  apply Schema_Done_inv in H as (s & _ & Hb & _ & ->). rewrite Hb in Hsame.
  rewrite Schema_build.
  destruct (buildSchema fieldContext fuel rangeKeys types' models g) as [[s' g1']| |];
    simpl in Hsame; [|done|done].
  destruct Hsame as (<- & Hperm & Ht). eexists _, _. split; [done|]. simpl.
  split; [|done]. unfold verdict.
  destruct (validationErrors g1) as [|x l], (validationErrors g1') as [|x' l']; try done.
  - by apply Permutation_nil_l in Hperm.
  - by apply Permutation_nil_r in Hperm.
Qed.

End TypeOrder.

Lemma Schema_order_of_types_witness :
  exists r' g1',
    Schema (fun s => s) Scenario.ctx 3 canonicalKeys
      (reverse Scenario.typesNested) Scenario.modelsNested Scenario.fresh = Done (r', g1') /\
    fst r' = None /\
    validationErrors g1' = ["Model 'M' is missing a primary key"].
Proof.
  destruct (proj2 (Schema_order_of_types (fun s => s) Scenario.ctx 3 canonicalKeys
                     Scenario.typesNested (reverse Scenario.typesNested)
                     Scenario.modelsNested Scenario.fresh
                     ltac:(symmetry; apply reverse_Permutation)
                     ltac:(apply (bool_decide_unpack _); vm_compute; exact I))
              _ _ ltac:(vm_compute; reflexivity))
    as (r' & g1' & Hrun & Hfst & Hperm & _).
  exists r', g1'. split; [exact Hrun|]. split; [rewrite Hfst; reflexivity|].
  symmetry. apply Permutation_singleton_l. exact Hperm.
Defined.

(** ** The panics of [Schema] *)


Section MakeModelNoPanic.

Variable rec : Model -> list ModelItem -> string -> bool -> M Model.

Variable s : SchemaT.

Variable msg : string.

Hypothesis rec_no_panic : forall m items prefix fn g,
  registered (Types s) (typesByName g) -> rec m items prefix fn g <> Panic msg.

Hypothesis keepsTypes_rec : forall m items prefix fn, keepsTypes (rec m items prefix fn).



End MakeModelNoPanic.



Section OnlyPanics.

Variable CalculateRelationships : SchemaT -> SchemaT.

Variable fieldContext : string -> string.



End OnlyPanics.


(** ** Nullability below a nullable field *)

Lemma addsNullable_refl m : addsNullable m m.
Proof. exists []. by rewrite app_nil_r. Qed.

Lemma addsNullable_trans m1 m2 m3 :
  addsNullable m1 m2 -> addsNullable m2 m3 -> addsNullable m1 m3.
Proof.
  intros (cs & Hc & Hn) (cs' & Hc' & Hn'). exists (cs ++ cs').
  split; [by rewrite Hc', Hc, app_assoc|]. by apply Forall_app.
Qed.

Lemma addsNullable_appendColumn m c :
  Column_Nullable c = true -> addsNullable m (appendColumn m c).
Proof. intros Hc. exists [c]. split; [done|]. by constructor. Qed.

Section MakeModelNullable.

Variable rec : Model -> list ModelItem -> string -> bool -> M Model.

Variable s : SchemaT.

Hypothesis rec_nullable : forall m items prefix g m' g',
  rec m items prefix true g = Done (m', g') -> addsNullable m m'.

Lemma makeModelItem_nullable m i prefix g m' g' :
  makeModelItem rec s m i prefix true g = Done (m', g') -> addsNullable m m'.
Proof using rec_nullable.
  destruct i as [name typeName flags|names|names|names|columnName foreignModelName]; simpl.
  - unfold makeModelField. destruct (Types s !! typeName) as [t|] eqn:Et.
    + intros H. apply bind_Done_inv in H as (m1 & g1 & H1 & H).
      assert (addsNullable m m1) as Hm1.
      { destruct (String.eqb prefix "").
        - apply bind_Done_inv in H1 as (tags & g0 & Htags & [= <- <-]).
          exists []. by rewrite app_nil_r.
        - injection H1 as <- <-. apply addsNullable_refl. }
      apply (addsNullable_trans _ _ _ Hm1). rewrite orb_true_r in H.
      destruct t as [n fields|b].
      * apply bind_Done_inv in H as (byName & g2 & [= <- <-] & H).
        destruct (te_info <$> typesByName g1 !! typeName) as [[items| ]|]; [|done|done].
        apply bind_Done_inv in H as (m2 & g2 & H2 & H).
        apply rec_nullable in H2. apply (addsNullable_trans _ _ _ H2).
        destruct (isNullable flags); injection H as <- <-;
          [by apply addsNullable_appendColumn|apply addsNullable_refl].
      * injection H as <- <-. by apply addsNullable_appendColumn.
    + intros H. apply bind_Done_inv in H as ([] & g1 & [= <-] & [= <- <-]).
      apply addsNullable_refl.
  - intros H. apply bind_Done_inv in H as ([] & g1 & H1 & [= <- <-]).
    exists []. by rewrite app_nil_r.
  - intros [= <- <-]. exists []. by rewrite app_nil_r.
  - intros [= <- <-]. exists []. by rewrite app_nil_r.
  - intros [= <- <-]. exists []. by rewrite app_nil_r.
Qed.

Lemma makeModelItems_nullable items : forall m prefix g m' g',
  makeModelItems rec s m items prefix true g = Done (m', g') -> addsNullable m m'.
Proof using rec_nullable.
  induction items as [|i items IH]; intros m prefix g m' g'; simpl.
  - intros [= <- <-]. apply addsNullable_refl.
  - intros H. apply bind_Done_inv in H as (m1 & g1 & H1 & H).
    apply makeModelItem_nullable in H1. apply IH in H. by eapply addsNullable_trans.
Qed.

End MakeModelNullable.

(** X20.  Nullability is inherited.  Every column that [makeModel] appends
    when it is called with [forceNullable] set is nullable, whatever the
    flags of the items and however deep the struct types nest: base
    columns and presence columns alike. *)
Theorem makeModel_forces_nullable fuel s m items prefix g m' g' :
  makeModel fuel s m items prefix true g = Done (m', g') ->
  exists columns,
    Model_Columns m' = Model_Columns m ++ columns /\
    Forall (fun c => Column_Nullable c = true) columns.
Proof.
  revert m items prefix g m' g'.
  induction fuel as [|fuel IH]; intros m items prefix g m' g' H; simpl in H.
  - by apply makeModelItems_nullable in H.
  - apply makeModelItems_nullable in H; [done|]. intros; by eapply IH.
Qed.

Lemma makeModel_forces_nullable_witness :
  exists m' g' columns,
    makeModel 1 Sample.registry (newModel "M")
      [field "p" "P" [nullFlag]; field "n" "int" []] "a." true Sample.declared
    = Done (m', g') /\
    Model_Columns m' = [] ++ columns /\
    Column_Name <$> columns = ["a__p__q"; "a__p"; "a__n"] /\
    Forall (fun c => Column_Nullable c = true) columns.
Proof.
  destruct (makeModel_forces_nullable 1 Sample.registry (newModel "M")
              [field "p" "P" [nullFlag]; field "n" "int" []] "a." Sample.declared
              _ _ ltac:(vm_compute; reflexivity)) as (columns & Hc & Hn).
  eexists _, _, columns. split; [vm_compute; reflexivity|]. split; [exact Hc|].
  split; [|exact Hn]. vm_compute in Hc. rewrite <- Hc. reflexivity.
Defined.

(** ** Constraints and the columns they name *)

Lemma FindColumn_is_Some m name :
  is_Some (FindColumn m name) <-> name ∈ Column_Name <$> Model_Columns m.
Proof.
  unfold FindColumn. induction (Model_Columns m) as [|c cs IH]; simpl.
  - split; [by intros [? ?]|]. intros H. by apply elem_of_nil in H.
  - rewrite elem_of_cons. destruct (String.eqb_spec (Column_Name c) name) as [->|Hne].
    + split; [by left|by eexists].
    + rewrite IH. split; [by right|]. by intros [?|?].
Qed.

Lemma makeModel_cons fuel s m i rest prefix fn g :
  makeModel fuel s m (i :: rest) prefix fn g
  = bind (makeModelItem
            (match fuel with
             | O => fun _ _ _ _ _ => OutOfFuel
             | S fuel' => makeModel fuel' s
             end) s m i prefix fn)
      (fun m1 => makeModel fuel s m1 rest prefix fn) g.
Proof. by destruct fuel. Qed.

Lemma makeModel_item_in fuel s m items prefix fn g m' g' i :
  makeModel fuel s m items prefix fn g = Done (m', g') -> In i items ->
  exists m1 g1 m2 g2,
    makeModelItem
      (match fuel with
       | O => fun _ _ _ _ _ => OutOfFuel
       | S fuel' => makeModel fuel' s
       end) s m1 i prefix fn g1 = Done (m2, g2) /\
    grows m m1 /\ grows m2 m'.
Proof.
  intros H Hi. apply in_split in Hi as (l1 & l2 & ->).
  rewrite makeModel_app in H. apply bind_Done_inv in H as (m1 & g1 & H1 & H).
  rewrite makeModel_cons in H. apply bind_Done_inv in H as (m2 & g2 & H2 & H).
  exists m1, g1, m2, g2. split; [done|]. split.
  - by apply makeModel_flattened in H1 as [? _].
  - by apply makeModel_flattened in H as [? _].
Qed.

Lemma elem_of_prefix {A} (l k : list A) x : l `prefix_of` k -> x ∈ l -> x ∈ k.
Proof. intros [k' ->] Hx. apply elem_of_app. by left. Qed.

(** X21.  The names of a constraint and the names of the columns are
    flattened alike.  When an item list holds a field of base type, the
    model [makeModel] returns has a column for it, named by the prefix and
    the name of the field with dots replaced; and an index, a unique
    constraint or a foreign key of the same item list that names this
    field is appended with that very column name, at any depth of
    nesting.  The checks then find the column. *)
Theorem constraint_names_find_columns fuel s m items prefix fn g m' g' name typeName flags b :
  makeModel fuel s m items prefix fn g = Done (m', g') ->
  In (field name typeName flags) items -> Types s !! typeName = Some (TBase b) ->
  is_Some (FindColumn m' (undot (prefix +:+ name))) /\
  (forall names, In (index names) items -> In name names ->
     exists i, In i (Model_Indexes m') /\
       Index_Columns i = undotAll (prefixAll names prefix) /\
       In (undot (prefix +:+ name)) (Index_Columns i)) /\
  (forall names, In (unique names) items -> In name names ->
     exists u, In u (Model_Uniques m') /\
       Unique_Columns u = undotAll (prefixAll names prefix) /\
       In (undot (prefix +:+ name)) (Unique_Columns u)) /\
  (forall target, In (foreignKey name target) items ->
     exists f, In f (Model_ForeignKeys m') /\
       ForeignKey_Column f = undot (prefix +:+ name) /\
       ForeignKey_ForeignModel f = target /\ ForeignKey_Model f = Model_Name m).
Proof.
  intros H Hfield Ht.
  assert (forall names, In name names ->
            In (undot (prefix +:+ name)) (undotAll (prefixAll names prefix))) as Hnames.
  { intros names Hin. unfold undotAll, prefixAll. rewrite map_map.
    apply in_map_iff. by exists name. }
  split; [|split; [|split]].
  - destruct (makeModel_item_in _ _ _ _ _ _ _ _ _ _ H Hfield)
      as (m1 & g1 & m2 & g2 & Hitem & _ & (_ & _ & Hcols & _)).
    apply FindColumn_is_Some. apply list_elem_of_fmap.
    simpl in Hitem. unfold makeModelField in Hitem. rewrite Ht in Hitem.
    apply bind_Done_inv in Hitem as (m0 & g0 & _ & [= <- _]).
    eexists. split; [|eapply elem_of_prefix; [done|]].
    2: { simpl. apply elem_of_app. right. by left. }
    done.
  - intros names Hidx Hin.
    destruct (makeModel_item_in _ _ _ _ _ _ _ _ _ _ H Hidx)
      as (m1 & g1 & m2 & g2 & [= <- _] & _ & (_ & _ & _ & Hi & _)).
    exists (mkIndex "" (flattenNames names prefix)). split; [|split; [|by apply Hnames]].
    + apply list_elem_of_In. eapply elem_of_prefix; [done|]. simpl.
      apply elem_of_app. right. by left.
    + done.
  - intros names Huni Hin.
    destruct (makeModel_item_in _ _ _ _ _ _ _ _ _ _ H Huni)
      as (m1 & g1 & m2 & g2 & [= <- _] & _ & (_ & _ & _ & _ & Hu & _)).
    exists (mkUnique "" (flattenNames names prefix)). split; [|split; [|by apply Hnames]].
    + apply list_elem_of_In. eapply elem_of_prefix; [done|]. simpl.
      apply elem_of_app. right. by left.
    + done.
  - intros target Hfk.
    destruct (makeModel_item_in _ _ _ _ _ _ _ _ _ _ H Hfk)
      as (m1 & g1 & m2 & g2 & [= <- _] & (Hn1 & _) & (_ & _ & _ & _ & _ & Hk & _)).
    exists (mkForeignKey "" (Model_Name m1) (undot (prefix +:+ name)) target "").
    split; [|split; [|split]].
    + apply list_elem_of_In. eapply elem_of_prefix; [done|]. simpl.
      apply elem_of_app. right. by left.
    + done.
    + done.
    + done.
Qed.

Lemma constraint_names_find_columns_witness :
  exists m' g' i,
    makeModel 0 Sample.registry (newModel "M")
      [field "q" "int" []; index ["q"]] "p.x." false Sample.declared = Done (m', g') /\
    is_Some (FindColumn m' "p__x__q") /\
    In i (Model_Indexes m') /\ Index_Columns i = ["p__x__q"].
Proof.
  destruct (constraint_names_find_columns 0 Sample.registry (newModel "M")
              [field "q" "int" []; index ["q"]] "p.x." false Sample.declared _ _
              "q" "int" []
              (mkBaseTypeNullable "int" (mkTypeGo "" "int") (mkTypeGo "null" "Int") "integer")
              ltac:(vm_compute; reflexivity) ltac:(left; reflexivity)
              ltac:(vm_compute; reflexivity))
    as (Hfind & Hindex & _).
  destruct (Hindex ["q"] ltac:(right; left; reflexivity) ltac:(left; reflexivity))
    as (i & Hi & Hcols & _).
  eexists _, _, i. split; [vm_compute; reflexivity|]. split; [exact Hfind|].
  split; [exact Hi|exact Hcols].
Defined.

(** ** What the checks write *)

Lemma checkForeignKeysFrom_named s m l : forall g l' g',
  checkForeignKeysFrom s m l g = Done (l', g') ->
  Forall2 (fun f f' =>
             ForeignKey_Name f' = makeName (Model_Name m) [ForeignKey_Column f] "fkey" /\
             ForeignKey_Model f' = ForeignKey_Model f /\
             ForeignKey_Column f' = ForeignKey_Column f /\
             ForeignKey_ForeignModel f' = ForeignKey_ForeignModel f) l l'.
Proof.
  induction l as [|f l IH]; intros g l' g' H; simpl in H.
  - injection H as <- <-. constructor.
  - apply bind_Done_inv in H as (f' & g1 & Hf & H).
    apply bind_Done_inv in H as (l1 & g2 & Hl & [= <- <-]).
    constructor; [|by eapply IH].
    unfold checkForeignKey in Hf. apply bind_Done_inv in Hf as ([] & g0 & _ & Hf). simpl in Hf.
    destruct (Models s !! ForeignKey_ForeignModel f) as [m2|].
    + destruct (Model_PrimaryKey m2) as [pk|]; [|done].
      apply bind_Done_inv in Hf as ([] & g3 & _ & Hf).
      destruct (PrimaryKey_Columns pk); [done|]. by injection Hf as <- <-.
    + apply bind_Done_inv in Hf as ([] & g3 & _ & Hf). by injection Hf as <- <-.
Qed.

(** X22.  The checks write nothing but names and foreign columns.  When
    the checks of a model return, with or without diagnostics, the model
    has the same name, fields, columns and primary key; the same indexes,
    unique constraints and foreign keys in the same order, on the same
    columns, models and targets; and every index, unique constraint and
    foreign key carries its generated name. *)
Theorem checkModel_writes_names_only s m g m' g' :
  checkModel s m g = Done (m', g') ->
  Model_Name m' = Model_Name m /\ Model_Fields m' = Model_Fields m /\
  Model_Columns m' = Model_Columns m /\ Model_PrimaryKey m' = Model_PrimaryKey m /\
  Model_Indexes m'
  = map (fun i => mkIndex (makeName (Model_Name m) (Index_Columns i) "idx") (Index_Columns i))
      (Model_Indexes m) /\
  Model_Uniques m'
  = map (fun u => mkUnique (makeName (Model_Name m) (Unique_Columns u) "key")
                    (Unique_Columns u))
      (Model_Uniques m) /\
  Forall2 (fun f f' =>
             ForeignKey_Name f' = makeName (Model_Name m) [ForeignKey_Column f] "fkey" /\
             ForeignKey_Model f' = ForeignKey_Model f /\
             ForeignKey_Column f' = ForeignKey_Column f /\
             ForeignKey_ForeignModel f' = ForeignKey_ForeignModel f)
    (Model_ForeignKeys m) (Model_ForeignKeys m').
Proof.
  unfold checkModel. intros H.
  apply bind_Done_inv in H as ([] & g1 & _ & H).
  apply bind_Done_inv in H as ([] & g2 & _ & H).
  apply bind_Done_inv in H as (m1 & g3 & H3 & H).
  apply bind_Done_inv in H as (m2 & g4 & H4 & H).
  unfold checkForeignKeys in H.
  apply bind_Done_inv in H as (l' & g5 & H5 & [= <- <-]).
  rewrite checkIndexes_emits in H3. injection H3 as <- <-.
  rewrite checkUniques_emits in H4. injection H4 as <- <-.
  apply checkForeignKeysFrom_named in H5. simpl in *.
  by repeat split.
Qed.

Lemma checkModel_writes_names_only_witness :
  exists m' g',
    checkModel NewSchema Sample.indexed Scenario.fresh = Done (m', g') /\
    Model_Indexes m'
    = [mkIndex "M___a___b___idx" ["a"; "b"]; mkIndex "M___a___b___idx" ["a___b"]] /\
    length (validationErrors g') = 5.
Proof.
  destruct (checkModel_writes_names_only NewSchema Sample.indexed Scenario.fresh _ _
              ltac:(vm_compute; reflexivity)) as (_ & _ & _ & _ & Hi & _).
  eexists _, _. split; [vm_compute; reflexivity|]. split; [exact Hi|reflexivity].
Defined.
